(** * The waypoint updater node: a shallow embedding and its properties

    Source: [ros/src/waypoint_updater/waypoint_updater.py].

    Modelling choices.
    - Python [float] values are real numbers ([R]); rounding, infinities,
      NaN and the [OverflowError] of [**] on a result too large for a float
      are outside the model.  The operations that raise in Python
      (division by zero, [math.sqrt] of a negative number, list indexing,
      [%] by zero, reading an attribute that was never set) return an
      exception here as well.
    - ROS messages are Python objects.  [Waypoint] and [Pose] objects live in
      two heaps and are referred to by location, so that
      [tmp.pose.pose = base.pose.pose] shares the pose object and
      [wp.twist.twist.linear.x = v] writes into one waypoint object.
    - The methods of [WaypointUpdater] are computations in a state and
      exception monad over the fields of [self] and the two heaps; a raised
      exception keeps the state reached so far.
    - [math.atan2] and [tf.transformations.euler_from_quaternion] are
      library functions; they are parameters of the locator. *)

From Stdlib Require Import ZArith List Reals Lra Lia Bool.
From stdpp Require Import base tactics option list.

Set Default Proof Using "Type".
Local Open Scope Z_scope.

(** ** Values *)

Definition loc := nat.

Record Point := mkPoint { pt_x : R; pt_y : R; pt_z : R }.
Record Quaternion := mkQuaternion { q_x : R; q_y : R; q_z : R; q_w : R }.

(** [geometry_msgs/Pose]: the object behind [msg.pose.pose]. *)
Record Pose := mkPose { position : Point; orientation : Quaternion }.

(** [styx_msgs/Waypoint]: [wp_pose] is the reference held in [wp.pose.pose],
    [wp_linear_x] the field [wp.twist.twist.linear.x]. *)
Record Waypoint := mkWaypoint { wp_pose : loc; wp_linear_x : R }.

(** What a constructor call [Waypoint()] builds: zeroed fields. *)
Definition default_Pose : Pose :=
  mkPose (mkPoint 0 0 0) (mkQuaternion 0 0 0 0).

Definition LOOKAHEAD_WPS : Z := 200.

(** ** Exceptions and results *)

(** The Python exceptions the node can raise.  [DanglingReference] is not
    one of them: it marks a reference to no object, which cannot occur in
    Python and which the statements exclude by [route_view]. *)
Inductive exn : Set :=
| IndexError
| ZeroDivisionError
| ValueError
| TypeError
| AttributeError
| DanglingReference.

Inductive result (A : Type) : Type :=
| Ok (a : A)
| Raise (e : exn).
Arguments Ok {A} a.
Arguments Raise {A} e.

(** ** Python primitives *)

Module Py.

(** [range(a, b)] *)
Definition range (a b : Z) : list Z := seqZ a (b - a).

(** [len(l)] *)
Definition len {A} (l : list A) : Z := Z.of_nat (length l).

(** [l[i]], with negative indices counted from the end. *)
Definition getitem {A} (l : list A) (i : Z) : result A :=
  let k := if i <? 0 then i + len l else i in
  if k <? 0 then Raise IndexError
  else match l !! Z.to_nat k with
       | Some a => Ok a
       | None => Raise IndexError
       end.

(** [l[:n]] for [n >= 0] *)
Definition slice_to {A} (l : list A) (n : Z) : list A := take (Z.to_nat n) l.

(** [i % n] on integers *)
Definition mod_ (i n : Z) : result Z :=
  if n =? 0 then Raise ZeroDivisionError else Ok (i mod n).

(** [a / b] on floats *)
Definition div (a b : R) : result R :=
  if Req_dec_T b 0 then Raise ZeroDivisionError else Ok (a / b)%R.

(** [math.sqrt] *)
Definition sqrt (a : R) : result R :=
  if Rlt_dec a 0 then Raise ValueError else Ok (R_sqrt.sqrt a).

(** [min(a, b)]: the first of the smallest. *)
Definition min (a b : R) : R := if Rlt_dec b a then b else a.

(** [max(a, b)]: the first of the largest. *)
Definition max (a b : R) : R := if Rgt_dec b a then b else a.

End Py.

(** ** The node *)

Record WaypointUpdater := mkNode {
  waypoint_heap : list Waypoint;
  pose_heap : list Pose;
  current_pose : option Pose;             (* set by [pose_cb] *)
  base_waypoints : option (list loc);     (* set by [waypoints_cb] *)
  traffic_waypoint : Z;
  current_velocity : option R;            (* set by [current_velocity_cb] *)
  final_waypoints : option (list loc);    (* [None] until the first tick *)
  state : Z;                              (* 0 for move, 1 for stop *)
  breaking_acceleration : option R;
  breaking_acceleration_limit : R
}.

Definition with_waypoint_heap (h : list Waypoint) (s : WaypointUpdater) :=
  mkNode h (pose_heap s) (current_pose s) (base_waypoints s)
    (traffic_waypoint s) (current_velocity s) (final_waypoints s) (state s)
    (breaking_acceleration s) (breaking_acceleration_limit s).

Definition with_pose_heap (h : list Pose) (s : WaypointUpdater) :=
  mkNode (waypoint_heap s) h (current_pose s) (base_waypoints s)
    (traffic_waypoint s) (current_velocity s) (final_waypoints s) (state s)
    (breaking_acceleration s) (breaking_acceleration_limit s).

Definition with_final_waypoints (f : option (list loc)) (s : WaypointUpdater) :=
  mkNode (waypoint_heap s) (pose_heap s) (current_pose s) (base_waypoints s)
    (traffic_waypoint s) (current_velocity s) f (state s)
    (breaking_acceleration s) (breaking_acceleration_limit s).

Definition with_state (v : Z) (s : WaypointUpdater) :=
  mkNode (waypoint_heap s) (pose_heap s) (current_pose s) (base_waypoints s)
    (traffic_waypoint s) (current_velocity s) (final_waypoints s) v
    (breaking_acceleration s) (breaking_acceleration_limit s).

Definition with_breaking_acceleration (a : option R) (s : WaypointUpdater) :=
  mkNode (waypoint_heap s) (pose_heap s) (current_pose s) (base_waypoints s)
    (traffic_waypoint s) (current_velocity s) (final_waypoints s) (state s)
    a (breaking_acceleration_limit s).

(** ** The monad of methods *)

Definition M (A : Type) : Type := WaypointUpdater -> result A * WaypointUpdater.

Definition ret {A} (a : A) : M A := fun s => (Ok a, s).

Definition bind {A B} (m : M A) (k : A -> M B) : M B :=
  fun s => match m s with
           | (Ok a, s') => k a s'
           | (Raise e, s') => (Raise e, s')
           end.

Definition raise {A} (e : exn) : M A := fun s => (Raise e, s).

Definition lift {A} (r : result A) : M A := fun s => (r, s).

Definition gets {A} (f : WaypointUpdater -> A) : M A := fun s => (Ok (f s), s).

Definition modify (f : WaypointUpdater -> WaypointUpdater) : M unit :=
  fun s => (Ok tt, f s).

(** Reading an attribute that a callback sets: [AttributeError] before. *)
Definition attr {A} (f : WaypointUpdater -> option A) : M A :=
  fun s => match f s with
           | Some a => (Ok a, s)
           | None => (Raise AttributeError, s)
           end.

Declare Scope py_scope.
Delimit Scope py_scope with py.
Notation "x <- m ;; k" := (bind m (fun x => k))
  (at level 100, m at next level, right associativity) : py_scope.
Notation "m ;; k" := (bind m (fun _ => k))
  (at level 100, right associativity) : py_scope.
Local Open Scope py_scope.

(** [for x in xs: body x] *)
Fixpoint for_each {A} (xs : list A) (body : A -> M unit) : M unit :=
  match xs with
  | [] => ret tt
  | x :: xs' => body x ;; for_each xs' body
  end.

(** A [for] loop that updates local variables, here the accumulator. *)
Fixpoint for_fold {A B} (xs : list A) (acc : B) (body : B -> A -> M B) : M B :=
  match xs with
  | [] => ret acc
  | x :: xs' => acc' <- body acc x ;; for_fold xs' acc' body
  end.

(** ** Object operations *)

(** [Waypoint()]: a new waypoint object with its own new pose object. *)
Definition new_Waypoint : M loc :=
  fun s =>
    let p := length (pose_heap s) in
    let l := length (waypoint_heap s) in
    (Ok l,
     with_waypoint_heap (waypoint_heap s ++ [mkWaypoint p 0%R])
       (with_pose_heap (pose_heap s ++ [default_Pose]) s)).

(** Reading the fields of the waypoint object at [l]. *)
Definition waypoint_at (l : loc) : M Waypoint :=
  fun s => match waypoint_heap s !! l with
           | Some w => (Ok w, s)
           | None => (Raise DanglingReference, s)
           end.

(** Reading the pose object at [p]. *)
Definition pose_at (p : loc) : M Pose :=
  fun s => match pose_heap s !! p with
           | Some w => (Ok w, s)
           | None => (Raise DanglingReference, s)
           end.

(** [wp.pose.pose = p] *)
Definition set_pose_pose (l p : loc) : M unit :=
  w <- waypoint_at l ;;
  modify (fun s => with_waypoint_heap
                     (<[l := mkWaypoint p (wp_linear_x w)]> (waypoint_heap s)) s).

(** [wp.twist.twist.linear.x = v] *)
Definition set_linear_x (l : loc) (v : R) : M unit :=
  w <- waypoint_at l ;;
  modify (fun s => with_waypoint_heap
                     (<[l := mkWaypoint (wp_pose w) v]> (waypoint_heap s)) s).

(** [self.final_waypoints.append(l)] *)
Definition append_final (l : loc) : M unit :=
  fw <- gets final_waypoints ;;
  match fw with
  | Some ws => modify (with_final_waypoints (Some (ws ++ [l])))
  | None => raise AttributeError
  end.

(** ** The callbacks *)

Definition pose_cb (msg : Pose) : M unit :=
  modify (fun s =>
    mkNode (waypoint_heap s) (pose_heap s) (Some msg) (base_waypoints s)
      (traffic_waypoint s) (current_velocity s) (final_waypoints s) (state s)
      (breaking_acceleration s) (breaking_acceleration_limit s)).

(** The references of the received waypoint objects. *)
Definition waypoints_cb (waypoints : list loc) : M unit :=
  modify (fun s =>
    mkNode (waypoint_heap s) (pose_heap s) (current_pose s) (Some waypoints)
      (traffic_waypoint s) (current_velocity s) (final_waypoints s) (state s)
      (breaking_acceleration s) (breaking_acceleration_limit s)).

Definition traffic_cb (data : Z) : M unit :=
  modify (fun s =>
    mkNode (waypoint_heap s) (pose_heap s) (current_pose s) (base_waypoints s)
      data (current_velocity s) (final_waypoints s) (state s)
      (breaking_acceleration s) (breaking_acceleration_limit s)).

Definition current_velocity_cb (linear_x : R) : M unit :=
  modify (fun s =>
    mkNode (waypoint_heap s) (pose_heap s) (current_pose s) (base_waypoints s)
      (traffic_waypoint s) (Some linear_x) (final_waypoints s) (state s)
      (breaking_acceleration s) (breaking_acceleration_limit s)).

(** ** The methods of [WaypointUpdater] *)

(** [dl(a, b)]: the distance between two points. *)
Definition dl (a b : Point) : result R :=
  Py.sqrt ((pt_x a - pt_x b) ^ 2 + (pt_y a - pt_y b) ^ 2
           + (pt_z a - pt_z b) ^ 2)%R.

(** [waypoints[i].pose.pose.position] *)
Definition position_of (waypoints : list loc) (i : Z) : M Point :=
  l <- lift (Py.getitem waypoints i) ;;
  w <- waypoint_at l ;;
  p <- pose_at (wp_pose w) ;;
  ret (position p).

(** [dist < min_dist], where [None] stands for [float('inf')]. *)
Definition below (dist : R) (min_dist : option R) : bool :=
  match min_dist with
  | None => true
  | Some m => if Rlt_dec dist m then true else false
  end.

(** The body of the loop of [get_closest_waypoint]. *)
Definition scan_body : option R * Z -> Z -> M (option R * Z) :=
  fun '(min_dist, wp) i =>
    cur <- attr current_pose ;;
    wps <- attr base_waypoints ;;
    p <- position_of wps i ;;
    dist <- lift (dl (position cur) p) ;;
    if below dist min_dist then ret (Some dist, i)
    else ret (min_dist, wp).

Definition get_closest_waypoint : M Z :=
  wps <- attr base_waypoints ;;
  r <- for_fold (Py.range 0 (Py.len wps)) (None, 0) scan_body ;;
  ret (snd r).

(** The body of the loop of [distance]; the loop rebinds [wp1]. *)
Definition distance_body (waypoints : list loc) : R * Z -> Z -> M (R * Z) :=
  fun '(dist, wp1) i =>
    a <- position_of waypoints wp1 ;;
    b <- position_of waypoints i ;;
    d <- lift (dl a b) ;;
    ret ((dist + d)%R, i).

(** [distance(waypoints, wp1, wp2)] *)
Definition distance (waypoints : list loc) (wp1 wp2 : Z) : M R :=
  r <- for_fold (Py.range wp1 (wp2 + 1)) (0%R, wp1) (distance_body waypoints) ;;
  ret (fst r).

(** [decel = lambda x: abs(self.current_velocity**2 / (2*x))] *)
Definition decel (x : R) : M R :=
  v <- attr current_velocity ;;
  q <- lift (Py.div (v ^ 2) (2 * x)) ;;
  ret (Rabs q).

Definition resolve_traffic_lights (next_wp : Z) : M unit :=
  st <- gets state ;;
  if st =? 0 then
    tw <- gets traffic_waypoint ;;
    if negb (tw =? -1) then
      wps <- attr base_waypoints ;;
      traffic_light_distance <- distance wps next_wp tw ;;
      limit <- gets breaking_acceleration_limit ;;
      min_distance <- decel limit ;;
      if Rgt_dec traffic_light_distance min_distance then
        modify (with_state 1) ;;
        a <- decel traffic_light_distance ;;
        modify (with_breaking_acceleration (Some a))
      else modify (with_state 0)
    else modify (with_state 0)
  else
    tw <- gets traffic_waypoint ;;
    if tw =? -1 then modify (with_state 0) else ret tt.

(** The body shared by the three copying loops: a new waypoint that takes
    the pose object of [waypoints[i % len]] and either its speed
    ([nominal = true]) or [0.0]. *)
Definition emit (nominal : bool) (i : Z) : M unit :=
  wps <- attr base_waypoints ;;
  j <- lift (Py.mod_ i (Py.len wps)) ;;
  tmp <- new_Waypoint ;;
  b <- lift (Py.getitem wps j) ;;
  bw <- waypoint_at b ;;
  set_pose_pose tmp (wp_pose bw) ;;
  (if nominal then
     b' <- lift (Py.getitem wps j) ;;
     bw' <- waypoint_at b' ;;
     set_linear_x tmp (wp_linear_x bw')
   else set_linear_x tmp 0%R) ;;
  append_final tmp.

(** The body of the loop that adds the deceleration; [last] is the entry
    at [target_wp]. *)
Definition smooth (last wp : loc) : M unit :=
  w <- waypoint_at wp ;;
  p <- pose_at (wp_pose w) ;;
  lw <- waypoint_at last ;;
  lp <- pose_at (wp_pose lw) ;;
  let x := (pt_x (position p) - pt_x (position lp))%R in
  let y := (pt_y (position p) - pt_y (position lp))%R in
  let z := (pt_z (position p) - pt_z (position lp))%R in
  dist <- lift (Py.sqrt (x * x + y * y + z * z)) ;;
  acc <- gets breaking_acceleration ;;
  match acc with
  | None => raise TypeError
  | Some a =>
      vel <- lift (Py.sqrt (2 * a * Py.max 0 (dist - 5))) ;;
      let vel := if Rlt_dec vel 1 then 0%R else vel in
      w' <- waypoint_at wp ;;
      set_linear_x wp (Py.min vel (wp_linear_x w'))
  end.

(** [self.final_waypoints], once it is a list. *)
Definition the_final_waypoints : M (list loc) :=
  fw <- gets final_waypoints ;;
  match fw with
  | Some ws => ret ws
  | None => raise TypeError
  end.

(** The two copying loops of the braking case; the result is [target_wp],
    the length of the list after the first. *)
Definition braking_segments (start_wp : Z) : M Z :=
  (* waypoints before TL *)
  tw <- gets traffic_waypoint ;;
  for_each (Py.range start_wp tw) (emit true) ;;
  fw <- the_final_waypoints ;;
  let target_wp := Py.len fw in
  (* waypoints after TL *)
  tw <- gets traffic_waypoint ;;
  let i_max := Z.max (start_wp + LOOKAHEAD_WPS) (tw + 1) in
  for_each (Py.range tw i_max) (emit false) ;;
  ret target_wp.

(** [last = self.final_waypoints[target_wp]; last.twist.twist.linear.x = 0.0] *)
Definition force_stop (target_wp : Z) : M loc :=
  fw <- the_final_waypoints ;;
  last <- lift (Py.getitem fw target_wp) ;;
  set_linear_x last 0%R ;;
  ret last.

(** The loop over [self.final_waypoints[:target_wp][::-1]]. *)
Definition add_deceleration (target_wp : Z) (last : loc) : M unit :=
  fw <- the_final_waypoints ;;
  for_each (reverse (Py.slice_to fw target_wp)) (smooth last).

Definition calculate_final_waypoints (start_wp : Z) : M unit :=
  modify (with_final_waypoints (Some [])) ;;
  st <- gets state ;;
  if st =? 0 then
    for_each (Py.range start_wp (start_wp + LOOKAHEAD_WPS)) (emit true)
  else if st =? 1 then
    target_wp <- braking_segments start_wp ;;
    last <- force_stop target_wp ;;
    add_deceleration target_wp last
  else ret tt.

(** What the publisher sends for one waypoint: its pose and its speed. *)
Definition serialize (l : loc) : M (Pose * R) :=
  w <- waypoint_at l ;;
  p <- pose_at (wp_pose w) ;;
  ret (p, wp_linear_x w).

Fixpoint publish (ws : list loc) : M (list (Pose * R)) :=
  match ws with
  | [] => ret []
  | l :: ws' => e <- serialize l ;; es <- publish ws' ;; ret (e :: es)
  end.

(** [msg.waypoints = self.final_waypoints[:LOOKAHEAD_WPS]] and the publish. *)
Definition publish_window : M (list (Pose * R)) :=
  fw <- the_final_waypoints ;;
  publish (Py.slice_to fw LOOKAHEAD_WPS).

Section Tick.

(** [math.atan2] *)
Variable atan2 : R -> R -> R.
(** [tf.transformations.euler_from_quaternion([x, y, z, w])[-1]] *)
Variable euler_yaw : Quaternion -> R.

(** [fabs(theta - heading)] for the pose [cur] and the point [next]. *)
Definition heading_angle (cur : Pose) (next : Point) : R :=
  let heading := atan2 (pt_y next - pt_y (position cur))
                       (pt_x next - pt_x (position cur)) in
  let theta := euler_yaw (orientation cur) in
  Rabs (theta - heading).

Definition get_next_waypoint : M Z :=
  next_wp <- get_closest_waypoint ;;
  cur <- attr current_pose ;;
  wps <- attr base_waypoints ;;
  next_pose_position <- position_of wps next_wp ;;
  let angle := heading_angle cur next_pose_position in
  ret (if Rle_dec angle (PI / 4) then next_wp else next_wp + 1).

(** One tick; the result is the published list, [None] when the tick
    returns before publishing. *)
Definition update : M (option (list (Pose * R))) :=
  cp <- gets current_pose ;;
  bw <- gets base_waypoints ;;
  if negb (bool_decide (is_Some cp) && bool_decide (is_Some bw)) then ret None
  else
    next_wp <- get_next_waypoint ;;
    resolve_traffic_lights next_wp ;;
    calculate_final_waypoints next_wp ;;
    msg <- publish_window ;;
    ret (Some msg).

End Tick.

(** ** Definitions for the statements and the proofs *)

(** The Euclidean distance that [dl] computes. *)
Definition euclid (a b : Point) : R :=
  R_sqrt.sqrt ((pt_x a - pt_x b) ^ 2 + (pt_y a - pt_y b) ^ 2
               + (pt_z a - pt_z b) ^ 2).

(** [objs] lists, for each reference of [wps], the waypoint object it points
    to and the pose object that one shares. *)
Definition route_view (s : WaypointUpdater) (wps : list loc)
    (objs : list (Waypoint * Pose)) : Prop :=
  Forall2 (fun b o => waypoint_heap s !! b = Some o.1
                      /\ pose_heap s !! wp_pose o.1 = Some o.2) wps objs.

(** The pose and the speed of the waypoint object at [l], if any. *)
Definition entry_at (s : WaypointUpdater) (l : loc) : option (Pose * R) :=
  w ← waypoint_heap s !! l;
  p ← pose_heap s !! wp_pose w;
  Some (p, wp_linear_x w).

(** Entry [k] of [self.final_waypoints]. *)
Definition window_entry (s : WaypointUpdater) (k : nat) : option (Pose * R) :=
  fw ← final_waypoints s;
  l ← fw !! k;
  entry_at s l.

(** Entry [j] of the route, read through [objs]. *)
Definition route_pose (objs : list (Waypoint * Pose)) (j : Z) : Pose :=
  default default_Pose (snd <$> objs !! Z.to_nat j).

(** Its nominal speed. *)
Definition route_speed (objs : list (Waypoint * Pose)) (j : Z) : R :=
  default 0%R ((wp_linear_x ∘ fst) <$> objs !! Z.to_nat j).

(** Its position. *)
Definition route_point (objs : list (Waypoint * Pose)) (j : Z) : Point :=
  position (route_pose objs j).

(** The arc distance of the specification: the sum of the distances between
    consecutive route waypoints from index [t] to index [idx]. *)
Definition arc_distance (objs : list (Waypoint * Pose)) (t idx : Z) : R :=
  foldr Rplus 0%R
    ((fun i => euclid (route_point objs i) (route_point objs (i + 1)))
       <$> Py.range t idx).

(** The speed the smoothing pass computes for a cruise entry at straight-line
    distance [dist] from the stop entry, under deceleration [a]. *)
Definition candidate_speed (a dist : R) : R :=
  let vel := R_sqrt.sqrt (2 * a * Rmax 0 (dist - 5)) in
  if Rlt_dec vel 1 then 0%R else vel.

(** Distance from the vehicle pose [cur] to route entry [i]. *)
Definition dist_to (objs : list (Waypoint * Pose)) (cur : Pose) (i : nat) : R :=
  euclid (position cur) (route_point objs (Z.of_nat i)).

(** The state of the closest-point scan after the entries below [k]: nothing
    seen yet, or the first of the closest among them. *)
Definition scan_inv (objs : list (Waypoint * Pose)) (cur : Pose) (k : nat)
    (acc : option R * Z) : Prop :=
  match acc.1 with
  | None => k = 0%nat /\ acc.2 = 0
  | Some d =>
      exists c : nat,
        acc.2 = Z.of_nat c /\ (c < k)%nat /\ d = dist_to objs cur c
        /\ (forall i, (i < k)%nat -> (d <= dist_to objs cur i)%R)
        /\ (forall i, (i < c)%nat -> (d < dist_to objs cur i)%R)
  end.

(** The sum the loop of [distance] accumulates over the indices [idxs],
    starting from the index [prev] held in [wp1]. *)
Fixpoint path_length (objs : list (Waypoint * Pose)) (prev : Z) (idxs : list Z) : R :=
  match idxs with
  | [] => 0%R
  | i :: idxs' =>
      (euclid (route_point objs prev) (route_point objs i)
       + path_length objs i idxs')%R
  end.

(** The pose reference of route entry [j], read through [objs]. *)
Definition route_pose_ref (objs : list (Waypoint * Pose)) (j : Z) : loc :=
  default 0%nat ((wp_pose ∘ fst) <$> objs !! Z.to_nat j).

(** The waypoint object that [emit nominal i] leaves in the heap. *)
Definition emitted (objs : list (Waypoint * Pose)) (nominal : bool) (i : Z)
  : Waypoint :=
  let j := i mod Py.len objs in
  mkWaypoint (route_pose_ref objs j)
             (if nominal then route_speed objs j else 0%R).

(** The node after [for i in idxs: emit nominal i]. *)
Definition emit_all (objs : list (Waypoint * Pose)) (nominal : bool)
    (idxs : list Z) (s : WaypointUpdater) : WaypointUpdater :=
  mkNode (waypoint_heap s ++ (emitted objs nominal <$> idxs))
         (pose_heap s ++ replicate (length idxs) default_Pose)
         (current_pose s) (base_waypoints s) (traffic_waypoint s)
         (current_velocity s)
         (Some (default [] (final_waypoints s)
                ++ seq (length (waypoint_heap s)) (length idxs)))
         (state s) (breaking_acceleration s) (breaking_acceleration_limit s).

(** The waypoint object the pass leaves for the object [w] with pose [p],
    the stop entry having pose [lp]. *)
Definition smoothed (a : R) (lp : Pose) (w : Waypoint) (p : Pose) : Waypoint :=
  mkWaypoint (wp_pose w)
    (Rmin (candidate_speed a (euclid (position p) (position lp)))
          (wp_linear_x w)).

(** Route indices of the cruise zone. *)
Definition cruise_idxs (t S : Z) : list Z := Py.range t S.

(** Route indices of the stop zone. *)
Definition stop_idxs (t S : Z) : list Z :=
  Py.range S (Z.max (t + LOOKAHEAD_WPS) (S + 1)).

(** The node after the two copying loops of the braking case. *)
Definition after_segments (objs : list (Waypoint * Pose)) (t S : Z)
    (s : WaypointUpdater) : WaypointUpdater :=
  emit_all objs false (stop_idxs t S)
    (emit_all objs true (cruise_idxs t S)
       (with_final_waypoints (Some []) s)).

(** [hoare P m Q E]: from a node satisfying [P], the method [m] ends in a
    node satisfying [Q a] when it returns [a] and [E] when it raises. *)
Definition hoare {A} (P : WaypointUpdater -> Prop) (m : M A)
    (Q : A -> WaypointUpdater -> Prop) (E : WaypointUpdater -> Prop) : Prop :=
  forall s, P s ->
    match m s with
    | (Ok a, s') => Q a s'
    | (Raise _, s') => E s'
    end.

(** A method that leaves the node as it is, whatever it returns. *)
Definition reads_only {A} (m : M A) : Prop := forall s, (m s).2 = s.

(** [s] holds every object of [s0], unchanged, the same route and the same
    motion state. *)
Definition grows_from (s0 s : WaypointUpdater) : Prop :=
  (base_waypoints s = base_waypoints s0 /\ state s = state s0)
  /\ (exists ext, waypoint_heap s = waypoint_heap s0 ++ ext)
  /\ (exists ext, pose_heap s = pose_heap s0 ++ ext).

(** A location that [s0] has not allocated. *)
Definition fresh_in (s0 : WaypointUpdater) (l : loc) : Prop :=
  (length (waypoint_heap s0) <= l)%nat.

(** The window of [s] holds only waypoints allocated after [s0]. *)
Definition fresh_window (s0 s : WaypointUpdater) : Prop :=
  forall fw, final_waypoints s = Some fw -> Forall (fresh_in s0) fw.

(** The invariant of the trajectory builder started in [s0]. *)
Definition building (s0 s : WaypointUpdater) : Prop :=
  grows_from s0 s /\ fresh_window s0 s.

(** What a caller sees of the objects it knew: nothing changed. *)
Definition untouched (s s' : WaypointUpdater) : Prop :=
  base_waypoints s' = base_waypoints s
  /\ (forall l w, waypoint_heap s !! l = Some w -> waypoint_heap s' !! l = Some w)
  /\ (forall p o, pose_heap s !! p = Some o -> pose_heap s' !! p = Some o).

(** The node that [__init__] sets up before its loop: no message received
    yet, no stop signal, Driving, no deceleration recorded. *)
Definition init_node (decel_limit : R) : WaypointUpdater :=
  mkNode [] [] None None (-1) None None 0 None decel_limit.

(** [s'] differs from [s] at most in the two heaps and in
    [final_waypoints]. *)
Definition same_control (s s' : WaypointUpdater) : Prop :=
  state s' = state s
  /\ breaking_acceleration s' = breaking_acceleration s
  /\ breaking_acceleration_limit s' = breaking_acceleration_limit s
  /\ traffic_waypoint s' = traffic_waypoint s
  /\ current_velocity s' = current_velocity s
  /\ current_pose s' = current_pose s
  /\ base_waypoints s' = base_waypoints s.

(** A method that changes at most the heaps and [final_waypoints]. *)
Definition builds_only {A} (m : M A) : Prop :=
  forall s, same_control s (m s).2.

(** What the node records about braking is sound: it is Driving, or it is
    Braking with a recorded deceleration that is non-negative and not above
    the magnitude of the configured limit. *)
Definition braking_record_ok (s : WaypointUpdater) : Prop :=
  state s = 0
  \/ (state s = 1
      /\ exists a, breaking_acceleration s = Some a
                   /\ (0 <= a <= Rabs (breaking_acceleration_limit s))%R).

(** What a Driving-case window publishes for route index [i]. *)
Definition nominal_entry (objs : list (Waypoint * Pose)) (i : Z) : Pose * R :=
  (route_pose objs (i mod Py.len objs), route_speed objs (i mod Py.len objs)).

(** What a Braking-case window holds for the cruise-zone route index [i],
    under deceleration [a] and stop index [S]. *)
Definition cruise_entry (objs : list (Waypoint * Pose)) (a : R) (S i : Z)
  : Pose * R :=
  let p := route_pose objs (i mod Py.len objs) in
  let stop := route_pose objs (S mod Py.len objs) in
  (p, Rmin (candidate_speed a (euclid (position p) (position stop)))
           (route_speed objs (i mod Py.len objs))).

(** What it holds for the stop-zone route index [i]. *)
Definition stop_entry (objs : list (Waypoint * Pose)) (i : Z) : Pose * R :=
  (route_pose objs (i mod Py.len objs), 0%R).

(** The whole Braking-case window, before the cut to LOOKAHEAD_WPS. *)
Definition braking_entries (objs : list (Waypoint * Pose)) (a : R) (t S : Z)
  : list (Pose * R) :=
  (cruise_entry objs a S <$> cruise_idxs t S)
  ++ (stop_entry objs <$> stop_idxs t S).

(** The straight-line distance from route entry [i] to the stop entry [S],
    both wrapped into the route. *)
Definition stop_distance (objs : list (Waypoint * Pose)) (S i : Z) : R :=
  euclid (position (route_pose objs (i mod Py.len objs)))
         (position (route_pose objs (S mod Py.len objs))).

(** ** Sample nodes *)

(** A pose on the x axis, heading along it. *)
Definition sample_pose (x : R) : Pose :=
  mkPose (mkPoint x 0 0) (mkQuaternion 0 0 0 1).

(** Three waypoints on the x axis, ten units apart, nominal speed 10; the
    vehicle at the first one, at speed 10; a stop signal at the last. *)
Definition sample_node : WaypointUpdater :=
  mkNode [mkWaypoint 0%nat 10; mkWaypoint 1%nat 10; mkWaypoint 2%nat 10]
         [sample_pose 0; sample_pose 10; sample_pose 20]
         (Some (sample_pose 0)) (Some [0%nat; 1%nat; 2%nat])
         2 (Some 10%R) None 0 None (-5).

(** The objects of the sample route. *)
Definition sample_objs : list (Waypoint * Pose) :=
  [(mkWaypoint 0%nat 10, sample_pose 0); (mkWaypoint 1%nat 10, sample_pose 10);
   (mkWaypoint 2%nat 10, sample_pose 20)].

(** An instance of the two library functions for the examples: the angle of
    a vector by [atan], and the yaw of a rotation about the z axis. *)
Definition atan2_sample (y x : R) : R :=
  if Rlt_dec 0 x then atan (y / x)
  else if Rlt_dec x 0 then
    if Rle_dec 0 y then (atan (y / x) + PI)%R else (atan (y / x) - PI)%R
  else if Rlt_dec 0 y then (PI / 2)%R
  else if Rlt_dec y 0 then (- PI / 2)%R else 0%R.

Definition euler_yaw_sample (q : Quaternion) : R :=
  atan2_sample (2 * (q_w q * q_z q + q_x q * q_y q))
               (1 - 2 * (q_y q * q_y q + q_z q * q_z q)).

(** The sample node while braking for the signal at index 2. *)
Definition sample_braking : WaypointUpdater :=
  with_breaking_acceleration (Some (5 / 2)%R) (with_state 1 sample_node).

(** The sample node as its first messages leave it: pose and route
    received, nothing else. *)
Definition sample_started : WaypointUpdater :=
  mkNode [mkWaypoint 0%nat 10; mkWaypoint 1%nat 10; mkWaypoint 2%nat 10]
         [sample_pose 0; sample_pose 10; sample_pose 20]
         (Some (sample_pose 0)) (Some [0%nat; 1%nat; 2%nat])
         (-1) None None 0 None (-5).

(** The sample node before any velocity message: pose, route and stop
    signal have arrived. *)
Definition sample_no_velocity : WaypointUpdater :=
  mkNode [mkWaypoint 0%nat 10; mkWaypoint 1%nat 10; mkWaypoint 2%nat 10]
         [sample_pose 0; sample_pose 10; sample_pose 20]
         (Some (sample_pose 0)) (Some [0%nat; 1%nat; 2%nat])
         2 None None 0 None (-5).


(** The sample node while braking, after the stop signal has been cleared. *)
Definition sample_cleared : WaypointUpdater :=
  (traffic_cb (-1) sample_braking).2.

(** ** Running the primitives *)

Lemma bind_ok {A B} (m : M A) (k : A -> M B) s a s' :
  m s = (Ok a, s') -> bind m k s = k a s'.
Proof. unfold bind. intros ->. reflexivity. Qed.

Lemma bind_raise {A B} (m : M A) (k : A -> M B) s e s' :
  m s = (Raise e, s') -> bind m k s = (Raise e, s').
Proof. unfold bind. intros ->. reflexivity. Qed.

Lemma attr_ok {A} (f : WaypointUpdater -> option A) s a :
  f s = Some a -> attr f s = (Ok a, s).
Proof. unfold attr. intros ->. reflexivity. Qed.

Lemma dl_ok a b : dl a b = Ok (euclid a b).
Proof.
  unfold dl, Py.sqrt, euclid.
  destruct (Rlt_dec _ 0) as [H|H]; [|reflexivity].
  exfalso.
  pose proof (pow2_ge_0 (pt_x a - pt_x b)).
  pose proof (pow2_ge_0 (pt_y a - pt_y b)).
  pose proof (pow2_ge_0 (pt_z a - pt_z b)).
  lra.
Qed.

Lemma euclid_refl a : euclid a a = 0%R.
Proof.
  unfold euclid.
  replace ((pt_x a - pt_x a) ^ 2 + (pt_y a - pt_y a) ^ 2
           + (pt_z a - pt_z a) ^ 2)%R with 0%R by ring.
  apply sqrt_0.
Qed.

Lemma euclid_nonneg a b : (0 <= euclid a b)%R.
Proof. apply sqrt_pos. Qed.

Lemma getitem_ok {A} (l : list A) (i : Z) a :
  0 <= i -> l !! Z.to_nat i = Some a -> Py.getitem l i = Ok a.
Proof.
  intros Hi Hl. unfold Py.getitem.
  destruct (Z.ltb_spec i 0); [lia|].
  destruct (Z.ltb_spec i 0); [lia|].
  rewrite Hl. reflexivity.
Qed.

Lemma route_view_lookup s wps objs j b :
  route_view s wps objs -> wps !! j = Some b ->
  exists o, objs !! j = Some o /\ waypoint_heap s !! b = Some o.1
            /\ pose_heap s !! wp_pose o.1 = Some o.2.
Proof.
  intros Hv Hb.
  destruct (Forall2_lookup_l _ _ _ _ _ Hv Hb) as (o & Ho & Hw & Hp).
  exists o. auto.
Qed.

Lemma route_view_length s wps objs :
  route_view s wps objs -> length objs = length wps.
Proof. intros Hv. symmetry. eapply Forall2_length, Hv. Qed.

Lemma position_of_ok s wps objs i :
  route_view s wps objs -> 0 <= i < Py.len wps ->
  position_of wps i s = (Ok (route_point objs i), s).
Proof.
  intros Hv [Hi Hn]. unfold Py.len in Hn.
  destruct (lookup_lt_is_Some_2 wps (Z.to_nat i)) as [b Hb]; [lia|].
  destruct (route_view_lookup _ _ _ _ _ Hv Hb) as (o & Ho & Hw & Hp).
  unfold position_of.
  rewrite (bind_ok _ _ s b s) by (unfold lift; erewrite getitem_ok; eauto).
  rewrite (bind_ok _ _ s o.1 s) by (unfold waypoint_at; rewrite Hw; auto).
  rewrite (bind_ok _ _ s o.2 s) by (unfold pose_at; rewrite Hp; auto).
  unfold ret, route_point, route_pose. rewrite Ho. reflexivity.
Qed.

(** ** The closest-point scan *)

Section ClosestScan.

Variables (s : WaypointUpdater) (wps : list loc)
          (objs : list (Waypoint * Pose)) (cur : Pose).
Hypothesis Hbase : base_waypoints s = Some wps.
Hypothesis Hcur : current_pose s = Some cur.
Hypothesis Hview : route_view s wps objs.

Lemma scan_body_ok (k : nat) md wp :
  (k < length wps)%nat ->
  scan_body (md, wp) (Z.of_nat k) s
  = (Ok (if below (dist_to objs cur k) md then (Some (dist_to objs cur k), Z.of_nat k)
         else (md, wp)), s).
Proof using Hbase Hcur Hview.
  intros Hk. unfold scan_body.
  rewrite (bind_ok _ _ s cur s) by (apply attr_ok, Hcur).
  rewrite (bind_ok _ _ s wps s) by (apply attr_ok, Hbase).
  assert (Hpos : 0 <= Z.of_nat k < Py.len wps) by (unfold Py.len; lia).
  rewrite (bind_ok _ _ s _ s (position_of_ok _ _ _ _ Hview Hpos)).
  rewrite (bind_ok _ _ s (dist_to objs cur k) s)
    by (unfold lift; rewrite dl_ok; reflexivity).
  destruct (below _ _); reflexivity.
Qed.

Lemma scan_step (k : nat) acc :
  scan_inv objs cur k acc ->
  scan_inv objs cur (S k)
    (if below (dist_to objs cur k) acc.1 then (Some (dist_to objs cur k), Z.of_nat k)
     else acc).
Proof.
  destruct acc as [[d|] wp]; unfold scan_inv; simpl.
  - intros (c & -> & Hc & -> & Hmin & Hfirst).
    destruct (Rlt_dec (dist_to objs cur k) (dist_to objs cur c)) as [Hlt|Hge]; simpl.
    + exists k. repeat split; [lia| |].
      * intros i Hi. destruct (decide (i = k)) as [->|]; [lra|].
        specialize (Hmin i ltac:(lia)). lra.
      * intros i Hi. specialize (Hmin i Hi). lra.
    + exists c. repeat split; [lia| |assumption].
      intros i Hi. destruct (decide (i = k)) as [->|]; [lra|].
      apply Hmin. lia.
  - intros [-> ->]. exists 0%nat. repeat split; [lia| |lia].
    intros i Hi. replace i with 0%nat by lia. lra.
Qed.

Lemma scan_loop (n k : nat) acc :
  (k + n <= length wps)%nat -> scan_inv objs cur k acc ->
  exists acc',
    for_fold (seqZ (Z.of_nat k) (Z.of_nat n)) acc scan_body s = (Ok acc', s)
    /\ scan_inv objs cur (k + n) acc'.
Proof using Hbase Hcur Hview.
  revert k acc. induction n as [|n IH]; intros k acc Hn Hinv.
  - exists acc. rewrite Nat.add_0_r. auto.
  - rewrite seqZ_cons by lia. simpl.
    destruct acc as [md wp].
    rewrite (bind_ok _ _ s _ s (scan_body_ok k md wp ltac:(lia))).
    replace (Z.succ (Z.of_nat k)) with (Z.of_nat (S k)) by lia.
    replace (Z.pred (Z.of_nat (S n))) with (Z.of_nat n) by lia.
    destruct (IH (S k) _ ltac:(lia) (scan_step k (md, wp) Hinv))
      as (acc' & Hrun & Hinv').
    simpl in Hrun. exists acc'. rewrite Hrun. split; [reflexivity|].
    replace (k + S n)%nat with (S k + n)%nat by lia. exact Hinv'.
Qed.

Lemma get_closest_waypoint_spec :
  wps <> [] ->
  exists c : nat,
    get_closest_waypoint s = (Ok (Z.of_nat c), s)
    /\ (c < length wps)%nat
    /\ (forall i, (i < length wps)%nat -> (dist_to objs cur c <= dist_to objs cur i)%R)
    /\ (forall i, (i < c)%nat -> (dist_to objs cur c < dist_to objs cur i)%R).
Proof using Hbase Hcur Hview.
  intros Hne.
  destruct (scan_loop (length wps) 0 (None, 0) ltac:(lia))
    as ([md wp] & Hrun & Hinv); [split; reflexivity|].
  unfold get_closest_waypoint.
  rewrite (bind_ok _ _ s wps s) by (apply attr_ok, Hbase).
  unfold Py.range, Py.len. rewrite Z.sub_0_r.
  change 0 with (Z.of_nat 0). fold scan_body.
  rewrite (bind_ok _ _ s _ s Hrun). unfold ret. simpl.
  unfold scan_inv in Hinv. simpl in Hinv.
  destruct md as [d|].
  - destruct Hinv as (c & -> & Hc & -> & Hmin & Hfirst).
    exists c. auto.
  - destruct Hinv as [Hlen _]. destruct wps; [congruence|discriminate].
Qed.

End ClosestScan.

(** ** The arc distance *)

Lemma distance_loop s wps objs (n : nat) (a prev : Z) (d : R) :
  route_view s wps objs ->
  0 <= prev < Py.len wps -> 0 <= a -> a + Z.of_nat n <= Py.len wps ->
  exists D last,
    for_fold (seqZ a (Z.of_nat n)) (d, prev) (distance_body wps) s
    = (Ok (D, last), s)
    /\ D = (d + path_length objs prev (seqZ a (Z.of_nat n)))%R.
Proof.
  intros Hv. revert a prev d.
  induction n as [|n IH]; intros a prev d Hprev Ha Hn.
  - exists d, prev. simpl. split; [reflexivity|lra].
  - rewrite seqZ_cons by lia. cbn [for_fold].
    replace (Z.pred (Z.of_nat (S n))) with (Z.of_nat n) by lia.
    assert (Hin : 0 <= a < Py.len wps) by lia.
    destruct (IH (Z.succ a) a
                (d + euclid (route_point objs prev) (route_point objs a))%R
                Hin ltac:(lia) ltac:(lia))
      as (D & last & Hrun & HD).
    exists D, last. split.
    + erewrite bind_ok; [exact Hrun|]. unfold distance_body.
      rewrite (bind_ok _ _ s _ s (position_of_ok _ _ _ _ Hv Hprev)).
      rewrite (bind_ok _ _ s _ s (position_of_ok _ _ _ _ Hv Hin)).
      erewrite bind_ok; [reflexivity|].
      unfold lift. rewrite dl_ok. reflexivity.
    + rewrite HD. cbn [path_length]. lra.
Qed.

Lemma path_length_arc objs (n : nat) (a : Z) :
  path_length objs a (seqZ (a + 1) (Z.of_nat n))
  = foldr Rplus 0%R
      ((fun i => euclid (route_point objs i) (route_point objs (i + 1)))
         <$> seqZ a (Z.of_nat n)).
Proof.
  revert a. induction n as [|n IH]; intros a; [reflexivity|].
  rewrite (seqZ_cons (a + 1)), (seqZ_cons a) by lia. simpl.
  replace (Z.pred (Z.of_nat (S n))) with (Z.of_nat n) by lia.
  replace (Z.succ (a + 1)) with (a + 1 + 1) by lia.
  rewrite IH. replace (Z.succ a) with (a + 1) by lia. reflexivity.
Qed.

Lemma arc_distance_past objs t idx : idx <= t -> arc_distance objs t idx = 0%R.
Proof.
  intros H. unfold arc_distance, Py.range.
  rewrite seqZ_nil by lia. reflexivity.
Qed.

Lemma distance_ok s wps objs t idx :
  route_view s wps objs -> 0 <= t -> idx < Py.len wps ->
  distance wps t idx s = (Ok (arc_distance objs t idx), s).
Proof.
  intros Hv Ht Hidx. unfold distance. fold (distance_body wps).
  unfold Py.range.
  destruct (Z_lt_le_dec idx t) as [Hlt|Hle].
  - rewrite seqZ_nil by lia. simpl. unfold bind, ret. simpl.
    rewrite arc_distance_past by lia. reflexivity.
  - destruct (distance_loop s wps objs (Z.to_nat (idx + 1 - t)) t t 0%R Hv
                ltac:(lia) Ht ltac:(lia)) as (D & last & Hrun & HD).
    rewrite Z2Nat.id in Hrun, HD by lia.
    rewrite (bind_ok _ _ s _ s Hrun). unfold ret. simpl.
    f_equal. f_equal. rewrite HD.
    rewrite seqZ_cons by lia. simpl.
    replace (Z.succ t) with (t + 1) by lia.
    replace (Z.pred (idx + 1 - t)) with (Z.of_nat (Z.to_nat (idx - t))) by lia.
    rewrite path_length_arc, euclid_refl.
    unfold arc_distance, Py.range. rewrite Z2Nat.id by lia. lra.
Qed.

Lemma arc_distance_nonneg objs t idx : (0 <= arc_distance objs t idx)%R.
Proof.
  unfold arc_distance.
  induction (Py.range t idx) as [|i l IH]; [simpl; lra|].
  rewrite fmap_cons. cbn [foldr].
  pose proof (euclid_nonneg (route_point objs i) (route_point objs (i + 1))).
  lra.
Qed.

(** ** The stop resolver *)

Lemma decel_ok s v x :
  current_velocity s = Some v -> x <> 0%R ->
  decel x s = (Ok (Rabs (v ^ 2 / (2 * x))), s).
Proof.
  intros Hv Hx. unfold decel.
  rewrite (bind_ok _ _ s v s) by (apply attr_ok, Hv).
  unfold lift, Py.div, bind, ret.
  destruct (Req_dec_T (2 * x) 0) as [H0|H0]; [exfalso; lra|reflexivity].
Qed.

Lemma decel_state s x : (decel x s).2 = s.
Proof.
  unfold decel, attr, bind, lift, ret, Py.div.
  destruct (current_velocity s); [|reflexivity].
  destruct (Req_dec_T _ _); reflexivity.
Qed.

Lemma stopping_distance_abs v lim :
  lim <> 0%R -> Rabs (v ^ 2 / (2 * lim)) = (v ^ 2 / (2 * Rabs lim))%R.
Proof.
  intros Hl. unfold Rdiv.
  rewrite Rabs_mult, Rabs_inv, Rabs_mult.
  rewrite (Rabs_right 2) by lra.
  rewrite (Rabs_right (v ^ 2)); [reflexivity|].
  apply Rle_ge, pow2_ge_0.
Qed.

Lemma stopping_distance_nonneg q : (0 <= Rabs q)%R.
Proof. apply Rabs_pos. Qed.

Lemma with_state_same s : with_state (state s) s = s.
Proof. destruct s; reflexivity. Qed.

Lemma bind_gets {A B} (f : WaypointUpdater -> A) (k : A -> M B) s :
  bind (gets f) k s = k (f s) s.
Proof. reflexivity. Qed.

Lemma bind_modify {B} f (k : unit -> M B) s :
  bind (modify f) k s = k tt (f s).
Proof. reflexivity. Qed.

Lemma resolve_no_signal s t :
  traffic_waypoint s = -1 ->
  resolve_traffic_lights t s = (Ok tt, with_state 0 s).
Proof.
  intros Htw. unfold resolve_traffic_lights.
  rewrite bind_gets. destruct (state s =? 0).
  - rewrite bind_gets, Htw. reflexivity.
  - rewrite bind_gets, Htw. reflexivity.
Qed.

(** The resolver in the Driving state with a stop signal, once the arc
    distance is known. *)
Lemma resolve_driving_signal s wps objs t v :
  state s = 0 -> traffic_waypoint s <> -1 ->
  base_waypoints s = Some wps -> route_view s wps objs ->
  0 <= t -> traffic_waypoint s < Py.len wps ->
  current_velocity s = Some v -> breaking_acceleration_limit s <> 0%R ->
  let D := arc_distance objs t (traffic_waypoint s) in
  let m := Rabs (v ^ 2 / (2 * breaking_acceleration_limit s)) in
  resolve_traffic_lights t s
  = if Rgt_dec D m
    then (Ok tt, with_breaking_acceleration (Some (Rabs (v ^ 2 / (2 * D))))
                   (with_state 1 s))
    else (Ok tt, s).
Proof.
  intros Hst Htw Hbase Hview Ht Hidx Hv Hlim D m.
  unfold resolve_traffic_lights.
  rewrite bind_gets, Hst. simpl. rewrite bind_gets.
  destruct (Z.eqb_spec (traffic_waypoint s) (-1)) as [|_]; [contradiction|].
  simpl.
  rewrite (bind_ok _ _ s wps s) by (apply attr_ok, Hbase).
  rewrite (bind_ok _ _ s _ s (distance_ok _ _ _ _ _ Hview Ht Hidx)).
  rewrite bind_gets.
  rewrite (bind_ok _ _ s _ s (decel_ok _ _ _ Hv Hlim)).
  fold D m. destruct (Rgt_dec D m) as [Hgt|Hle].
  - rewrite bind_modify.
    assert (HD : D <> 0%R).
    { pose proof (stopping_distance_nonneg (v ^ 2 / (2 * breaking_acceleration_limit s))).
      unfold m in Hgt. lra. }
    rewrite (bind_ok _ _ _ _ _ (decel_ok (with_state 1 s) v D Hv HD)).
    reflexivity.
  - unfold modify. rewrite <- Hst, with_state_same. reflexivity.
Qed.

Lemma Rabs_decel v D : (0 < D)%R -> Rabs (v ^ 2 / (2 * D)) = (v ^ 2 / (2 * D))%R.
Proof.
  intros HD. apply Rabs_right, Rle_ge.
  apply Rmult_le_pos; [apply pow2_ge_0|].
  apply Rlt_le, Rinv_0_lt_compat. lra.
Qed.

Lemma sample_view : route_view sample_node [0%nat; 1%nat; 2%nat] sample_objs.
Proof. repeat constructor. Qed.

(** C1: in the Driving state with a stop signal at [idx], with [D] the arc
    distance from the tracked index to [idx] and [M = speed^2 / (2 |limit|)]:
    when [D > M] the resolver moves to Braking (1) and records the
    deceleration [speed^2 / (2 D)]; when [D <= M] the node is unchanged. *)
Theorem resolver_feasibility (s : WaypointUpdater) (wps : list loc)
    (objs : list (Waypoint * Pose)) (t idx : Z) (speed : R) :
  state s = 0 -> traffic_waypoint s = idx -> idx <> -1 ->
  base_waypoints s = Some wps -> route_view s wps objs ->
  0 <= t -> idx < Py.len wps ->
  current_velocity s = Some speed -> breaking_acceleration_limit s <> 0%R ->
  let D := arc_distance objs t idx in
  let M := (speed ^ 2 / (2 * Rabs (breaking_acceleration_limit s)))%R in
  ((D > M)%R ->
   resolve_traffic_lights t s
   = (Ok tt, with_breaking_acceleration (Some (speed ^ 2 / (2 * D))%R)
               (with_state 1 s)))
  /\ ((D <= M)%R -> resolve_traffic_lights t s = (Ok tt, s)).
Proof.
  intros Hst Htw Hidx Hbase Hview Ht Hlt Hv Hlim D M. subst idx.
  pose proof (resolve_driving_signal s wps objs t speed Hst Hidx Hbase Hview
                Ht Hlt Hv Hlim) as Hrun.
  cbv zeta in Hrun. fold D in Hrun.
  rewrite (stopping_distance_abs _ _ Hlim) in Hrun. fold M in Hrun.
  assert (HM : (0 <= M)%R).
  { unfold M. rewrite <- (stopping_distance_abs _ _ Hlim). apply Rabs_pos. }
  split; intros HD; rewrite Hrun.
  - destruct (Rgt_dec D M) as [_|Hn]; [|contradiction].
    rewrite Rabs_decel by lra. reflexivity.
  - destruct (Rgt_dec D M) as [Hgt|_]; [exfalso; lra|reflexivity].
Qed.

Lemma resolver_feasibility_witness :
  let D := arc_distance sample_objs 0 2 in
  let M := (10 ^ 2 / (2 * Rabs (-5)))%R in
  ((D > M)%R ->
   resolve_traffic_lights 0 sample_node
   = (Ok tt, with_breaking_acceleration (Some (10 ^ 2 / (2 * D))%R)
               (with_state 1 sample_node)))
  /\ ((D <= M)%R -> resolve_traffic_lights 0 sample_node = (Ok tt, sample_node)).
Proof.
  apply (resolver_feasibility sample_node [0%nat; 1%nat; 2%nat] sample_objs
           0 2 10).
  - reflexivity.
  - reflexivity.
  - lia.
  - reflexivity.
  - exact sample_view.
  - lia.
  - unfold Py.len. simpl. lia.
  - reflexivity.
  - simpl. lra.
Defined.

(** C9: for a non-empty route, when the tracked index [t] (up to the route
    length, the unwrapped closest index plus one) is at or past the stop
    index [S], [distance] reads no entry out of bounds and returns 0; the
    resolver then leaves the Driving state as it is: it never enters
    Braking, and with a speed and a non-zero limit it returns normally with
    the node unchanged. *)
Theorem stop_behind_never_brakes (s : WaypointUpdater) (wps : list loc)
    (objs : list (Waypoint * Pose)) (t S : Z) :
  wps <> [] -> base_waypoints s = Some wps -> route_view s wps objs ->
  state s = 0 -> traffic_waypoint s = S -> S <> -1 ->
  0 <= t <= Py.len wps -> S <= t -> S < Py.len wps ->
  distance wps t S s = (Ok 0%R, s)
  /\ state (resolve_traffic_lights t s).2 = 0
  /\ breaking_acceleration (resolve_traffic_lights t s).2
     = breaking_acceleration s
  /\ (forall v, current_velocity s = Some v ->
                breaking_acceleration_limit s <> 0%R ->
                resolve_traffic_lights t s = (Ok tt, s)).
Proof.
  intros Hne Hbase Hview Hst Htw HS [Ht HtN] HSt HSN.
  assert (Hdist : distance wps t S s = (Ok 0%R, s)).
  { rewrite (distance_ok s wps objs t S Hview Ht HSN).
    rewrite arc_distance_past by lia. reflexivity. }
  split; [exact Hdist|].
  assert (Hrun : resolve_traffic_lights t s
                 = (min_distance <- decel (breaking_acceleration_limit s) ;;
                    if Rgt_dec 0 min_distance then
                      modify (with_state 1) ;;
                      a <- decel 0 ;;
                      modify (with_breaking_acceleration (Some a))
                    else modify (with_state 0)) s).
  { unfold resolve_traffic_lights.
    rewrite bind_gets, Hst. simpl. rewrite bind_gets, Htw.
    destruct (Z.eqb_spec S (-1)) as [|_]; [contradiction|]. simpl.
    rewrite (bind_ok _ _ s wps s) by (apply attr_ok, Hbase).
    rewrite (bind_ok _ _ s _ s Hdist). rewrite bind_gets. reflexivity. }
  assert (Hcases :
    (exists e, resolve_traffic_lights t s = (Raise e, s))
    \/ resolve_traffic_lights t s = (Ok tt, s)).
  { rewrite Hrun.
    pose proof (decel_state s (breaking_acceleration_limit s)) as Hs.
    destruct (decel (breaking_acceleration_limit s) s) as [[m|e] s'] eqn:Hd;
      simpl in Hs; subst s'.
    - right. rewrite (bind_ok _ _ _ _ _ Hd).
      destruct (Rgt_dec 0 m) as [Hgt|_].
      + exfalso. unfold decel, attr, bind, lift, ret, Py.div in Hd.
        destruct (current_velocity s); [|discriminate].
        destruct (Req_dec_T _ _); [discriminate|].
        injection Hd as <-.
        apply Rgt_not_le in Hgt. apply Hgt, Rabs_pos.
      + unfold modify. rewrite <- Hst, with_state_same. reflexivity.
    - left. exists e. rewrite (bind_raise _ _ _ _ _ Hd). reflexivity. }
  split; [|split].
  - destruct Hcases as [[e ->]| ->]; exact Hst.
  - destruct Hcases as [[e ->]| ->]; reflexivity.
  - intros v Hv Hlim. destruct Hcases as [[e He]|Hok]; [|exact Hok].
    rewrite Hrun in He.
    rewrite (bind_ok _ _ s _ s (decel_ok _ _ _ Hv Hlim)) in He.
    destruct (Rgt_dec _ _) as [Hgt|_]; [|discriminate].
    exfalso. apply Rgt_not_le in Hgt. apply Hgt, Rabs_pos.
Qed.

Lemma stop_behind_never_brakes_witness :
  distance [0%nat; 1%nat; 2%nat] 3 2 sample_node = (Ok 0%R, sample_node)
  /\ state (resolve_traffic_lights 3 sample_node).2 = 0
  /\ breaking_acceleration (resolve_traffic_lights 3 sample_node).2
     = breaking_acceleration sample_node
  /\ (forall v, current_velocity sample_node = Some v ->
                breaking_acceleration_limit sample_node <> 0%R ->
                resolve_traffic_lights 3 sample_node = (Ok tt, sample_node)).
Proof.
  apply (stop_behind_never_brakes sample_node [0%nat; 1%nat; 2%nat]
           sample_objs 3 2).
  - discriminate.
  - reflexivity.
  - exact sample_view.
  - reflexivity.
  - reflexivity.
  - lia.
  - unfold Py.len. simpl. lia.
  - lia.
  - unfold Py.len. simpl. lia.
Defined.

(** ** The locator *)

Lemma get_next_waypoint_run atan2 euler_yaw s wps objs cur (c : nat) :
  base_waypoints s = Some wps -> current_pose s = Some cur ->
  route_view s wps objs -> (c < length wps)%nat ->
  get_closest_waypoint s = (Ok (Z.of_nat c), s) ->
  get_next_waypoint atan2 euler_yaw s
  = (Ok (if Rle_dec (heading_angle atan2 euler_yaw cur
                       (route_point objs (Z.of_nat c))) (PI / 4)
         then Z.of_nat c else Z.of_nat c + 1), s).
Proof.
  intros Hbase Hcur Hview Hc Hclosest. unfold get_next_waypoint.
  rewrite (bind_ok _ _ s _ s Hclosest).
  rewrite (bind_ok _ _ s cur s) by (apply attr_ok, Hcur).
  rewrite (bind_ok _ _ s wps s) by (apply attr_ok, Hbase).
  assert (Hpos : 0 <= Z.of_nat c < Py.len wps) by (unfold Py.len; lia).
  rewrite (bind_ok _ _ s _ s (position_of_ok _ _ _ _ Hview Hpos)).
  reflexivity.
Qed.



(** ** The copying loops *)

Lemma lookup_snoc {A} (h : list A) (x : A) : (h ++ [x]) !! length h = Some x.
Proof. apply list_lookup_middle. reflexivity. Qed.

Lemma insert_snoc {A} (h : list A) (x y : A) :
  <[length h := y]> (h ++ [x]) = h ++ [y].
Proof.
  rewrite insert_app_r_alt by lia. rewrite Nat.sub_diag. reflexivity.
Qed.

Lemma emit_all_nil objs nominal s fw :
  final_waypoints s = Some fw -> emit_all objs nominal [] s = s.
Proof.
  intros Hfw. destruct s. simpl in *. subst. unfold emit_all. simpl.
  rewrite !app_nil_r. reflexivity.
Qed.

Lemma emit_all_cons objs nominal i idxs s fw :
  final_waypoints s = Some fw ->
  emit_all objs nominal idxs (emit_all objs nominal [i] s)
  = emit_all objs nominal (i :: idxs) s.
Proof.
  intros Hfw. unfold emit_all. simpl. rewrite Hfw. simpl.
  rewrite length_app. simpl.
  rewrite <- !app_assoc. simpl.
  replace (length (waypoint_heap s) + 1)%nat with (S (length (waypoint_heap s)))
    by lia.
  reflexivity.
Qed.

Lemma lift_ok {A} (r : result A) a s : r = Ok a -> lift r s = (Ok a, s).
Proof. intros ->. reflexivity. Qed.

Lemma waypoint_at_ok s l w :
  waypoint_heap s !! l = Some w -> waypoint_at l s = (Ok w, s).
Proof. unfold waypoint_at. intros ->. reflexivity. Qed.

Lemma pose_at_ok s l p :
  pose_heap s !! l = Some p -> pose_at l s = (Ok p, s).
Proof. unfold pose_at. intros ->. reflexivity. Qed.

Lemma set_pose_pose_ok s l w p :
  waypoint_heap s !! l = Some w ->
  set_pose_pose l p s
  = (Ok tt, with_waypoint_heap
              (<[l := mkWaypoint p (wp_linear_x w)]> (waypoint_heap s)) s).
Proof.
  intros H. unfold set_pose_pose.
  rewrite (bind_ok _ _ _ _ _ (waypoint_at_ok _ _ _ H)). reflexivity.
Qed.

Lemma set_linear_x_ok s l w v :
  waypoint_heap s !! l = Some w ->
  set_linear_x l v s
  = (Ok tt, with_waypoint_heap
              (<[l := mkWaypoint (wp_pose w) v]> (waypoint_heap s)) s).
Proof.
  intros H. unfold set_linear_x.
  rewrite (bind_ok _ _ _ _ _ (waypoint_at_ok _ _ _ H)). reflexivity.
Qed.

Lemma append_final_ok s fw l :
  final_waypoints s = Some fw ->
  append_final l s = (Ok tt, with_final_waypoints (Some (fw ++ [l])) s).
Proof. intros H. unfold append_final. rewrite bind_gets, H. reflexivity. Qed.

Lemma emit_ok s wps objs fw nominal i :
  base_waypoints s = Some wps -> wps <> [] -> route_view s wps objs ->
  final_waypoints s = Some fw ->
  emit nominal i s = (Ok tt, emit_all objs nominal [i] s).
Proof.
  intros Hbase Hne Hview Hfw.
  pose proof (route_view_length _ _ _ Hview) as Hlen.
  assert (HN : 0 < Py.len wps).
  { unfold Py.len. destruct wps; [congruence|simpl; lia]. }
  pose proof (Z.mod_pos_bound i (Py.len wps) HN) as Hj.
  destruct (lookup_lt_is_Some_2 wps (Z.to_nat (i mod Py.len wps))) as [b Hb];
    [unfold Py.len in *; lia|].
  destruct (route_view_lookup _ _ _ _ _ Hview Hb) as ([w p] & Ho & Hw & Hp).
  simpl in Hw, Hp.
  assert (Hget : Py.getitem wps (i mod Py.len wps) = Ok b)
    by (apply getitem_ok; [lia|exact Hb]).
  assert (Hem : emitted objs nominal i
                = mkWaypoint (wp_pose w) (if nominal then wp_linear_x w else 0%R)).
  { unfold emitted, route_pose_ref, route_speed, Py.len. rewrite Hlen.
    fold (Py.len wps). rewrite Ho. reflexivity. }
  unfold emit_all. cbn [fmap list_fmap length replicate seq]. rewrite Hem, Hfw.
  cbn [default].
  unfold emit.
  rewrite (bind_ok _ _ s wps s) by (apply attr_ok, Hbase).
  erewrite bind_ok;
    [|apply lift_ok; unfold Py.mod_;
      destruct (Z.eqb_spec (Py.len wps) 0); [lia|reflexivity]].
  erewrite bind_ok; [|reflexivity].
  set (s1 := with_waypoint_heap _ _).
  assert (Hw1 : waypoint_heap s1 !! b = Some w)
    by (apply lookup_app_l_Some, Hw).
  assert (Hnew : waypoint_heap s1 !! length (waypoint_heap s)
                 = Some (mkWaypoint (length (pose_heap s)) 0))
    by apply lookup_snoc.
  erewrite bind_ok; [|apply lift_ok, Hget].
  erewrite bind_ok; [|apply waypoint_at_ok, Hw1].
  erewrite bind_ok; [|apply set_pose_pose_ok, Hnew].
  cbn [wp_linear_x]. unfold s1 at 1. cbn [waypoint_heap with_waypoint_heap].
  rewrite insert_snoc.
  set (s2 := with_waypoint_heap _ s1).
  assert (Hw2 : waypoint_heap s2 !! b = Some w)
    by (apply lookup_app_l_Some, Hw).
  assert (Hnew2 : waypoint_heap s2 !! length (waypoint_heap s)
                  = Some (mkWaypoint (wp_pose w) 0))
    by apply lookup_snoc.
  assert (Hset : forall v,
             set_linear_x (length (waypoint_heap s)) v s2
             = (Ok tt, with_waypoint_heap
                         (waypoint_heap s ++ [mkWaypoint (wp_pose w) v]) s2)).
  { intros v. rewrite (set_linear_x_ok _ _ _ v Hnew2).
    unfold s2 at 1. cbn [waypoint_heap with_waypoint_heap wp_pose].
    rewrite insert_snoc. reflexivity. }
  destruct nominal.
  - erewrite bind_ok.
    2:{ erewrite bind_ok; [|apply lift_ok, Hget].
        erewrite bind_ok; [|apply waypoint_at_ok, Hw2].
        apply Hset. }
    erewrite append_final_ok by exact Hfw. reflexivity.
  - erewrite bind_ok; [|apply Hset].
    erewrite append_final_ok by exact Hfw. reflexivity.
Qed.

Lemma route_view_emit_all s wps objs objs' nominal idxs :
  route_view s wps objs -> route_view (emit_all objs' nominal idxs s) wps objs.
Proof.
  unfold route_view. intros H. eapply Forall2_impl; [exact H|].
  intros b o [Hw Hp]. simpl.
  split; apply lookup_app_l_Some; assumption.
Qed.

Lemma for_each_emit s wps objs fw nominal idxs :
  base_waypoints s = Some wps -> wps <> [] -> route_view s wps objs ->
  final_waypoints s = Some fw ->
  for_each idxs (emit nominal) s = (Ok tt, emit_all objs nominal idxs s).
Proof.
  intros Hbase Hne. revert s fw Hbase.
  induction idxs as [|i idxs IH]; intros s fw Hbase Hview Hfw.
  - simpl. unfold ret. erewrite emit_all_nil by exact Hfw. reflexivity.
  - cbn [for_each].
    rewrite (bind_ok _ _ _ _ _ (emit_ok s wps objs fw nominal i Hbase Hne Hview Hfw)).
    erewrite IH.
    + erewrite emit_all_cons by exact Hfw. reflexivity.
    + exact Hbase.
    + apply route_view_emit_all, Hview.
    + reflexivity.
Qed.

(** ** Reading the window *)

Lemma Py_range_length a b : length (Py.range a b) = Z.to_nat (b - a).
Proof. unfold Py.range. apply length_seqZ. Qed.

Lemma Py_range_lookup a b (k : nat) :
  (k < Z.to_nat (b - a))%nat -> Py.range a b !! k = Some (a + Z.of_nat k).
Proof.
  intros Hk. unfold Py.range. rewrite lookup_seqZ_lt by lia.
  f_equal.
Qed.

(** The pose and speed of an emitted waypoint, in any node that still holds
    the route's pose objects. *)
Lemma entry_emitted s wps objs nominal i l :
  route_view s wps objs -> wps <> [] ->
  waypoint_heap s !! l = Some (emitted objs nominal i) ->
  entry_at s l
  = Some (route_pose objs (i mod Py.len objs),
          if nominal then route_speed objs (i mod Py.len objs) else 0%R).
Proof.
  intros Hview Hne Hl.
  pose proof (route_view_length _ _ _ Hview) as Hlen.
  assert (HN : 0 < Py.len objs).
  { unfold Py.len. rewrite Hlen. destruct wps; [congruence|simpl; lia]. }
  pose proof (Z.mod_pos_bound i (Py.len objs) HN) as Hj.
  destruct (lookup_lt_is_Some_2 wps (Z.to_nat (i mod Py.len objs))) as [b Hb];
    [unfold Py.len in *; lia|].
  destruct (route_view_lookup _ _ _ _ _ Hview Hb) as ([w p] & Ho & Hw & Hp).
  simpl in Hw, Hp.
  unfold entry_at. rewrite Hl. simpl.
  unfold route_pose_ref, route_pose, route_speed. rewrite Ho. simpl.
  rewrite Hp. reflexivity.
Qed.

Lemma the_final_waypoints_ok s fw :
  final_waypoints s = Some fw -> the_final_waypoints s = (Ok fw, s).
Proof.
  intros H. unfold the_final_waypoints. rewrite bind_gets, H. reflexivity.
Qed.

Lemma serialize_ok s l e : entry_at s l = Some e -> serialize l s = (Ok e, s).
Proof.
  unfold entry_at, serialize. intros H.
  destruct (waypoint_heap s !! l) as [w|] eqn:Hw; [|discriminate].
  simpl in H.
  destruct (pose_heap s !! wp_pose w) as [p|] eqn:Hp; [|discriminate].
  simpl in H. injection H as <-.
  rewrite (bind_ok _ _ _ _ _ (waypoint_at_ok _ _ _ Hw)).
  rewrite (bind_ok _ _ _ _ _ (pose_at_ok _ _ _ Hp)). reflexivity.
Qed.

Lemma publish_ok s ws es :
  Forall2 (fun l e => entry_at s l = Some e) ws es ->
  publish ws s = (Ok es, s).
Proof.
  induction 1 as [|l e ws es Hl _ IH]; [reflexivity|].
  cbn [publish].
  rewrite (bind_ok _ _ _ _ _ (serialize_ok _ _ _ Hl)).
  rewrite (bind_ok _ _ _ _ _ IH). reflexivity.
Qed.

Lemma emit_all_lookup objs nominal idxs s (k : nat) :
  waypoint_heap (emit_all objs nominal idxs s) !! (length (waypoint_heap s) + k)%nat
  = emitted objs nominal <$> idxs !! k.
Proof.
  simpl. rewrite lookup_app_r by lia.
  replace (length (waypoint_heap s) + k - length (waypoint_heap s))%nat
    with k by lia.
  apply list_lookup_fmap.
Qed.

(** C6: in the Driving state, on a non-empty route of length N, the tick
    builds and publishes a list of at most LOOKAHEAD_WPS entries, and for
    every [k] below LOOKAHEAD_WPS entry [k] is the pose and the nominal speed
    of route entry [(t + k) mod N]. *)
Theorem driving_window (s : WaypointUpdater) (wps : list loc)
    (objs : list (Waypoint * Pose)) (t : Z) :
  state s = 0 -> base_waypoints s = Some wps -> wps <> [] ->
  route_view s wps objs ->
  exists msg s',
    (calculate_final_waypoints t ;; publish_window) s = (Ok msg, s')
    /\ (length msg <= Z.to_nat LOOKAHEAD_WPS)%nat
    /\ forall k : nat,
         (k < Z.to_nat LOOKAHEAD_WPS)%nat ->
         msg !! k
         = Some (route_pose objs ((t + Z.of_nat k) mod Py.len wps),
                 route_speed objs ((t + Z.of_nat k) mod Py.len wps)).
Proof.
  intros Hst Hbase Hne Hview.
  pose proof (route_view_length _ _ _ Hview) as Hlen.
  set (idxs := Py.range t (t + LOOKAHEAD_WPS)).
  assert (Hn : length idxs = Z.to_nat LOOKAHEAD_WPS).
  { unfold idxs. rewrite Py_range_length. f_equal. lia. }
  set (s0 := with_final_waypoints (Some []) s).
  set (s1 := emit_all objs true idxs s0).
  set (entry := fun i : Z => (route_pose objs (i mod Py.len wps),
                              route_speed objs (i mod Py.len wps))).
  assert (Hcalc : calculate_final_waypoints t s = (Ok tt, s1)).
  { unfold calculate_final_waypoints.
    rewrite bind_modify, bind_gets. fold s0.
    change (state s0) with (state s). rewrite Hst. simpl. fold idxs.
    apply (for_each_emit s0 wps objs [] true idxs Hbase Hne Hview).
    reflexivity. }
  assert (Hpub : publish_window s1 = (Ok (entry <$> idxs), s1)).
  { unfold publish_window.
    rewrite (bind_ok _ _ _ _ _
               (the_final_waypoints_ok s1 _ ltac:(reflexivity))).
    cbn [final_waypoints s0 with_final_waypoints default].
    rewrite app_nil_l.
    unfold Py.slice_to. rewrite Hn, take_ge by (rewrite length_seq; lia).
    apply publish_ok.
    apply Forall2_same_length_lookup_2.
    - rewrite length_seq, length_fmap, Hn. reflexivity.
    - intros k l e Hl He.
      apply lookup_seq in Hl as [-> Hk].
      rewrite list_lookup_fmap in He.
      destruct (idxs !! k) as [i|] eqn:Hi; [|discriminate].
      injection He as <-.
      unfold entry, Py.len. rewrite <- Hlen. fold (Py.len objs).
      apply (entry_emitted s1 wps objs true i);
        [apply route_view_emit_all, Hview|exact Hne|].
      unfold s1. change (length (waypoint_heap s)) with (length (waypoint_heap s0)).
      rewrite emit_all_lookup, Hi. reflexivity. }
  exists (entry <$> idxs), s1. split; [|split].
  - rewrite (bind_ok _ _ _ _ _ Hcalc). exact Hpub.
  - rewrite length_fmap, Hn. lia.
  - intros k Hk. rewrite list_lookup_fmap. unfold idxs.
    rewrite Py_range_lookup by lia. reflexivity.
Qed.

Lemma driving_window_witness :
  exists msg s',
    (calculate_final_waypoints 1 ;; publish_window) sample_node = (Ok msg, s')
    /\ (length msg <= Z.to_nat LOOKAHEAD_WPS)%nat
    /\ forall k : nat,
         (k < Z.to_nat LOOKAHEAD_WPS)%nat ->
         msg !! k
         = Some (route_pose sample_objs ((1 + Z.of_nat k) mod 3),
                 route_speed sample_objs ((1 + Z.of_nat k) mod 3)).
Proof.
  apply (driving_window sample_node [0%nat; 1%nat; 2%nat] sample_objs 1).
  - reflexivity.
  - reflexivity.
  - discriminate.
  - exact sample_view.
Defined.

(** ** The deceleration pass *)

Lemma Py_max_Rmax a b : Py.max a b = Rmax a b.
Proof.
  unfold Py.max, Rmax.
  destruct (Rgt_dec b a), (Rle_dec a b); try reflexivity; lra.
Qed.

Lemma Py_min_Rmin a b : Py.min a b = Rmin a b.
Proof.
  unfold Py.min, Rmin.
  destruct (Rlt_dec b a), (Rle_dec a b); try reflexivity; lra.
Qed.

Lemma sqrt_nonneg_ok x : (0 <= x)%R -> Py.sqrt x = Ok (R_sqrt.sqrt x).
Proof.
  intros H. unfold Py.sqrt. destruct (Rlt_dec x 0); [exfalso; lra|reflexivity].
Qed.

Lemma sqrt_squares_ok (p q : Point) :
  Py.sqrt ((pt_x p - pt_x q) * (pt_x p - pt_x q)
           + (pt_y p - pt_y q) * (pt_y p - pt_y q)
           + (pt_z p - pt_z q) * (pt_z p - pt_z q))%R
  = Ok (euclid p q).
Proof.
  rewrite <- dl_ok. unfold dl. f_equal. ring.
Qed.

Lemma smooth_ok s last wp w p lw lp a :
  waypoint_heap s !! wp = Some w -> pose_heap s !! wp_pose w = Some p ->
  waypoint_heap s !! last = Some lw -> pose_heap s !! wp_pose lw = Some lp ->
  breaking_acceleration s = Some a -> (0 <= a)%R ->
  smooth last wp s
  = (Ok tt, with_waypoint_heap (<[wp := smoothed a lp w p]> (waypoint_heap s)) s).
Proof.
  intros Hw Hp Hlw Hlp Ha Hpos. unfold smooth.
  rewrite (bind_ok _ _ _ _ _ (waypoint_at_ok _ _ _ Hw)).
  rewrite (bind_ok _ _ _ _ _ (pose_at_ok _ _ _ Hp)).
  rewrite (bind_ok _ _ _ _ _ (waypoint_at_ok _ _ _ Hlw)).
  rewrite (bind_ok _ _ _ _ _ (pose_at_ok _ _ _ Hlp)).
  cbv zeta.
  rewrite (bind_ok _ _ _ _ _ (lift_ok _ _ s (sqrt_squares_ok _ _))).
  rewrite bind_gets, Ha.
  set (dist := euclid (position p) (position lp)).
  assert (Hnn : (0 <= 2 * a * Py.max 0 (dist - 5))%R).
  { rewrite Py_max_Rmax. pose proof (Rmax_l 0 (dist - 5)).
    apply Rmult_le_pos; lra. }
  rewrite (bind_ok _ _ _ _ _ (lift_ok _ _ s (sqrt_nonneg_ok _ Hnn))).
  rewrite (bind_ok _ _ _ _ _ (waypoint_at_ok _ _ _ Hw)).
  rewrite (set_linear_x_ok _ _ _ _ Hw).
  unfold smoothed, candidate_speed. fold dist.
  rewrite Py_min_Rmin, Py_max_Rmax. reflexivity.
Qed.

Lemma smooth_loop (ls : list loc) : forall s last lw lp a,
  NoDup ls -> last ∉ ls ->
  waypoint_heap s !! last = Some lw -> pose_heap s !! wp_pose lw = Some lp ->
  breaking_acceleration s = Some a -> (0 <= a)%R ->
  (forall wp, wp ∈ ls ->
     exists w p, waypoint_heap s !! wp = Some w
                 /\ pose_heap s !! wp_pose w = Some p) ->
  exists h',
    for_each ls (smooth last) s = (Ok tt, with_waypoint_heap h' s)
    /\ length h' = length (waypoint_heap s)
    /\ (forall l, l ∉ ls -> h' !! l = waypoint_heap s !! l)
    /\ (forall wp w p, wp ∈ ls -> waypoint_heap s !! wp = Some w ->
          pose_heap s !! wp_pose w = Some p ->
          h' !! wp = Some (smoothed a lp w p)).
Proof.
  induction ls as [|wp ls IH]; intros s last lw lp a Hnd Hlast Hlw Hlp Ha Hpos Hall.
  - exists (waypoint_heap s). repeat split.
    + simpl. unfold ret. destruct s; reflexivity.
    + intros wp w p Hin. inversion Hin.
  - apply NoDup_cons in Hnd as [Hwp Hnd].
    apply not_elem_of_cons in Hlast as [Hne Hlast].
    destruct (Hall wp ltac:(left)) as (w & p & Hw & Hp).
    set (h1 := <[wp := smoothed a lp w p]> (waypoint_heap s)).
    set (s1 := with_waypoint_heap h1 s).
    assert (Hother : forall l, l <> wp -> waypoint_heap s1 !! l = waypoint_heap s !! l).
    { intros l Hl. simpl. unfold h1. apply list_lookup_insert_ne. congruence. }
    destruct (IH s1 last lw lp a Hnd Hlast) as (h' & Hrun & Hlen & Hout & Hin).
    + rewrite Hother by congruence. exact Hlw.
    + exact Hlp.
    + exact Ha.
    + exact Hpos.
    + intros wp' Hwp'. destruct (Hall wp' ltac:(right; exact Hwp')) as (w' & p' & Hw' & Hp').
      exists w', p'. split; [|exact Hp'].
      rewrite Hother; [exact Hw'|]. intros ->. contradiction.
    + exists h'. split; [|split; [|split]].
      * cbn [for_each].
        rewrite (bind_ok _ _ _ _ _ (smooth_ok s last wp w p lw lp a Hw Hp Hlw Hlp Ha Hpos)).
        fold h1. fold s1. rewrite Hrun. reflexivity.
      * rewrite Hlen. simpl. unfold h1. apply length_insert.
      * intros l Hl. apply not_elem_of_cons in Hl as [Hl1 Hl2].
        rewrite (Hout l Hl2). apply Hother, Hl1.
      * intros wp' w' p' Hwp' Hw' Hp'.
        apply elem_of_cons in Hwp' as [->|Hwp'].
        -- rewrite (Hout wp Hwp). simpl. unfold h1.
           assert (w' = w) by congruence. subst w'.
           assert (p' = p) by congruence. subst p'.
           apply list_lookup_insert_eq. eapply lookup_lt_Some, Hw.
        -- apply Hin; [exact Hwp'| |exact Hp'].
           rewrite Hother; [exact Hw'|]. intros ->. contradiction.
Qed.

(** ** The braking case *)

Lemma stop_idxs_length t S : (1 <= length (stop_idxs t S))%nat.
Proof. unfold stop_idxs. rewrite Py_range_length. lia. Qed.

Lemma pose_of_route_ref s wps objs j :
  route_view s wps objs -> 0 <= j < Py.len wps ->
  pose_heap s !! route_pose_ref objs j = Some (route_pose objs j).
Proof.
  intros Hview Hj.
  destruct (lookup_lt_is_Some_2 wps (Z.to_nat j)) as [b Hb];
    [unfold Py.len in *; lia|].
  destruct (route_view_lookup _ _ _ _ _ Hview Hb) as ([w p] & Ho & Hw & Hp).
  unfold route_pose_ref, route_pose. rewrite Ho. exact Hp.
Qed.

Lemma with_waypoint_heap_same s : with_waypoint_heap (waypoint_heap s) s = s.
Proof. destruct s; reflexivity. Qed.

Section BrakingCase.

Variables (s : WaypointUpdater) (wps : list loc)
          (objs : list (Waypoint * Pose)) (t S : Z) (a : R).
Hypothesis Hst : state s = 1.
Hypothesis Htw : traffic_waypoint s = S.
Hypothesis Hbase : base_waypoints s = Some wps.
Hypothesis Hne : wps <> [].
Hypothesis Hview : route_view s wps objs.
Hypothesis Hacc : breaking_acceleration s = Some a.
Hypothesis Hpos : (0 <= a)%R.

Local Abbreviation nh := (length (waypoint_heap s)).
Local Abbreviation nA := (length (cruise_idxs t S)).
Local Abbreviation nB := (length (stop_idxs t S)).
Local Abbreviation sB := (after_segments objs t S s).

Lemma after_segments_final :
  final_waypoints sB = Some (seq nh nA ++ seq (nh + nA) nB).
Proof.
  unfold after_segments. simpl. rewrite length_app, length_fmap. reflexivity.
Qed.

Lemma after_segments_view : route_view sB wps objs.
Proof using Hview.
  unfold after_segments. do 2 apply route_view_emit_all. exact Hview.
Qed.

Lemma after_segments_cruise (k : nat) :
  waypoint_heap sB !! (nh + k)%nat = emitted objs true <$> cruise_idxs t S !! k
  \/ (nA <= k)%nat.
Proof.
  destruct (le_lt_dec nA k) as [Hge|Hlt]; [right; exact Hge|left].
  unfold after_segments. simpl.
  rewrite <- app_assoc.
  rewrite lookup_app_r by lia. rewrite lookup_app_l by (rewrite length_fmap; lia).
  replace (nh + k - nh)%nat with k by lia.
  apply list_lookup_fmap.
Qed.

Lemma after_segments_stop (m : nat) :
  waypoint_heap sB !! (nh + nA + m)%nat
  = emitted objs false <$> stop_idxs t S !! m.
Proof.
  unfold after_segments. simpl.
  rewrite lookup_app_r by (rewrite length_app, length_fmap; lia).
  rewrite length_app, length_fmap.
  replace (nh + nA + m - (nh + nA))%nat with m by lia.
  apply list_lookup_fmap.
Qed.

Lemma braking_segments_ok :
  braking_segments t (with_final_waypoints (Some []) s)
  = (Ok (Z.of_nat nA), sB).
Proof using Hbase Hne Hview Htw.
  unfold braking_segments.
  rewrite bind_gets. cbn [traffic_waypoint with_final_waypoints]. rewrite Htw.
  rewrite (bind_ok _ _ _ _ _
             (for_each_emit (with_final_waypoints (Some []) s) wps objs []
                true (Py.range t S) Hbase Hne Hview eq_refl)).
  fold (cruise_idxs t S).
  set (sA := emit_all objs true (cruise_idxs t S) _).
  rewrite (bind_ok _ _ _ _ _ (the_final_waypoints_ok sA _ ltac:(reflexivity))).
  rewrite bind_gets. change (traffic_waypoint sA) with (traffic_waypoint s).
  rewrite Htw. fold (stop_idxs t S).
  assert (HviewA : route_view sA wps objs)
    by (apply route_view_emit_all, Hview).
  rewrite (bind_ok _ _ _ _ _
             (for_each_emit sA wps objs _ false (stop_idxs t S) Hbase Hne HviewA
                eq_refl)).
  unfold ret, Py.len. simpl. rewrite length_seq. reflexivity.
Qed.

(** The explicit write of 0.0 into the first stop-zone entry changes
    nothing: the entry already has speed 0. *)
Lemma force_stop_ok :
  force_stop (Z.of_nat nA) sB = (Ok (nh + nA)%nat, sB).
Proof.
  pose proof (stop_idxs_length t S) as HB.
  destruct (stop_idxs t S !! 0%nat) as [i|] eqn:Hi;
    [|apply lookup_ge_None in Hi; lia].
  assert (Hlast : waypoint_heap sB !! (nh + nA)%nat = Some (emitted objs false i)).
  { pose proof (after_segments_stop 0) as H.
    rewrite Nat.add_0_r, Hi in H. exact H. }
  unfold force_stop.
  rewrite (bind_ok _ _ _ _ _ (the_final_waypoints_ok sB _ after_segments_final)).
  erewrite bind_ok.
  2:{ apply lift_ok, getitem_ok; [lia|].
      rewrite Nat2Z.id, lookup_app_r by (rewrite length_seq; lia).
      rewrite length_seq, Nat.sub_diag. apply lookup_seq_lt. lia. }
  rewrite Nat.add_0_r.
  rewrite (bind_ok _ _ _ _ _ (set_linear_x_ok _ _ _ 0%R Hlast)).
  unfold ret. f_equal.
  rewrite list_insert_id by exact Hlast.
  apply with_waypoint_heap_same.
Qed.

End BrakingCase.

Lemma len_pos {A} (l : list A) : l <> [] -> 0 < Py.len l.
Proof. unfold Py.len. destruct l; [congruence|simpl; lia]. Qed.

Section BrakingRun.

Variables (s : WaypointUpdater) (wps : list loc)
          (objs : list (Waypoint * Pose)) (t S : Z) (a : R).
Hypothesis Hst : state s = 1.
Hypothesis Htw : traffic_waypoint s = S.
Hypothesis Hbase : base_waypoints s = Some wps.
Hypothesis Hne : wps <> [].
Hypothesis Hview : route_view s wps objs.
Hypothesis Hacc : breaking_acceleration s = Some a.
Hypothesis Hpos : (0 <= a)%R.

Local Abbreviation nh := (length (waypoint_heap s)).
Local Abbreviation nA := (length (cruise_idxs t S)).
Local Abbreviation nB := (length (stop_idxs t S)).
Local Abbreviation sB := (after_segments objs t S s).
Local Abbreviation N := (Py.len wps).

Lemma route_len_pos : 0 < N.
Proof using Hne. apply len_pos, Hne. Qed.

Lemma route_len_objs : Py.len objs = N.
Proof using Hview.
  unfold Py.len. rewrite (route_view_length _ _ _ Hview). reflexivity.
Qed.

Lemma emitted_pose nominal i :
  pose_heap sB !! wp_pose (emitted objs nominal i)
  = Some (route_pose objs (i mod N)).
Proof using Hview Hne.
  unfold emitted. cbn [wp_pose]. rewrite route_len_objs.
  apply (pose_of_route_ref sB wps objs);
    [apply after_segments_view, Hview|].
  apply Z.mod_pos_bound, route_len_pos.
Qed.

Lemma add_deceleration_ok :
  exists h',
    add_deceleration (Z.of_nat nA) (nh + nA)%nat sB
    = (Ok tt, with_waypoint_heap h' sB)
    /\ (forall m : nat,
          h' !! (nh + nA + m)%nat = waypoint_heap sB !! (nh + nA + m)%nat)
    /\ (forall (k : nat) i,
          cruise_idxs t S !! k = Some i ->
          h' !! (nh + k)%nat
          = Some (smoothed a (route_pose objs (S mod N))
                    (emitted objs true i) (route_pose objs (i mod N)))).
Proof using Hview Hne Hacc Hpos.
  pose proof (stop_idxs_length t S) as HB.
  assert (Hi0 : stop_idxs t S !! 0%nat = Some S).
  { unfold stop_idxs. rewrite Py_range_lookup by lia. f_equal. lia. }
  assert (Hlast : waypoint_heap sB !! (nh + nA)%nat = Some (emitted objs false S)).
  { pose proof (after_segments_stop s objs t S 0) as H.
    rewrite Nat.add_0_r, Hi0 in H. exact H. }
  assert (Hcruise : forall wp, wp ∈ reverse (seq nh nA) ->
            exists k i, wp = (nh + k)%nat /\ cruise_idxs t S !! k = Some i
                        /\ waypoint_heap sB !! wp = Some (emitted objs true i)).
  { intros wp Hwp. apply elem_of_reverse, elem_of_seq in Hwp.
    exists (wp - nh)%nat.
    destruct (lookup_lt_is_Some_2 (cruise_idxs t S) (wp - nh)) as [i Hi]; [lia|].
    exists i. split; [lia|]. split; [exact Hi|].
    destruct (after_segments_cruise s objs t S (wp - nh)) as [H|H]; [|lia].
    replace (nh + (wp - nh))%nat with wp in H by lia.
    rewrite H, Hi. reflexivity. }
  destruct (smooth_loop (reverse (seq nh nA)) sB (nh + nA)%nat
              (emitted objs false S) (route_pose objs (S mod N)) a)
    as (h' & Hrun & Hlen & Hout & Hin).
  - rewrite reverse_Permutation. apply NoDup_seq.
  - rewrite elem_of_reverse, elem_of_seq. lia.
  - exact Hlast.
  - apply emitted_pose.
  - exact Hacc.
  - exact Hpos.
  - intros wp Hwp. destruct (Hcruise wp Hwp) as (k & i & -> & Hi & Hw).
    exists (emitted objs true i), (route_pose objs (i mod N)).
    split; [exact Hw|apply emitted_pose].
  - exists h'. split; [|split].
    + unfold add_deceleration.
      rewrite (bind_ok _ _ _ _ _
                 (the_final_waypoints_ok sB _ (after_segments_final s objs t S))).
      unfold Py.slice_to. rewrite Nat2Z.id.
      rewrite take_app_length' by (rewrite length_seq; reflexivity). exact Hrun.
    + intros m. apply Hout. rewrite elem_of_reverse, elem_of_seq. lia.
    + intros k i Hi.
      assert (Hk : (k < nA)%nat) by (eapply lookup_lt_Some, Hi).
      assert (Hwp : (nh + k)%nat ∈ reverse (seq nh nA))
        by (rewrite elem_of_reverse, elem_of_seq; lia).
      destruct (Hcruise _ Hwp) as (k' & i' & Hk' & Hi' & Hw).
      assert (k' = k) by lia. subst k'.
      assert (i' = i) by congruence. subst i'.
      apply (Hin _ _ _ Hwp Hw). apply emitted_pose.
Qed.

(** The braking case as a whole: the node after the copying loops, with the
    waypoint heap the deceleration pass leaves. *)
Lemma braking_run :
  exists h',
    calculate_final_waypoints t s = (Ok tt, with_waypoint_heap h' sB)
    /\ (forall m : nat,
          h' !! (nh + nA + m)%nat = waypoint_heap sB !! (nh + nA + m)%nat)
    /\ (forall (k : nat) i,
          cruise_idxs t S !! k = Some i ->
          h' !! (nh + k)%nat
          = Some (smoothed a (route_pose objs (S mod N))
                    (emitted objs true i) (route_pose objs (i mod N)))).
Proof using Hst Htw Hbase Hview Hne Hacc Hpos.
  destruct add_deceleration_ok as (h' & Hrun & Hstop & Hcruise).
  exists h'. split; [|split; assumption].
  unfold calculate_final_waypoints.
  rewrite bind_modify, bind_gets.
  cbn [state with_final_waypoints]. rewrite Hst. simpl.
  rewrite (bind_ok _ _ _ _ _ (braking_segments_ok s wps objs t S Htw Hbase Hne Hview)).
  rewrite (bind_ok _ _ _ _ _ (force_stop_ok s objs t S)).
  exact Hrun.
Qed.

End BrakingRun.

Lemma cruise_idxs_length t S : length (cruise_idxs t S) = Z.to_nat (S - t).
Proof. apply Py_range_length. Qed.

Lemma stop_idxs_length_eq t S :
  length (stop_idxs t S) = Z.to_nat (Z.max (t + LOOKAHEAD_WPS) (S + 1) - S).
Proof. apply Py_range_length. Qed.

(** Entry [k] of the window, in the cruise zone, after the braking case. *)
Lemma window_cruise s wps objs t S a h' (k : nat) i :
  wps <> [] -> route_view s wps objs ->
  cruise_idxs t S !! k = Some i ->
  h' !! (length (waypoint_heap s) + k)%nat
  = Some (smoothed a (route_pose objs (S mod Py.len wps))
            (emitted objs true i) (route_pose objs (i mod Py.len wps))) ->
  window_entry (with_waypoint_heap h' (after_segments objs t S s)) k
  = Some (route_pose objs (i mod Py.len wps),
          Rmin (candidate_speed a
                  (euclid (position (route_pose objs (i mod Py.len wps)))
                          (position (route_pose objs (S mod Py.len wps)))))
               (route_speed objs (i mod Py.len wps))).
Proof.
  intros Hne Hview Hi Hh.
  assert (Hk : (k < length (cruise_idxs t S))%nat) by (eapply lookup_lt_Some, Hi).
  pose proof (emitted_pose s wps objs t S Hne Hview true i) as Hpose.
  pose proof (route_len_objs s wps objs Hview) as Hobjs.
  unfold window_entry.
  change (final_waypoints (with_waypoint_heap h' (after_segments objs t S s)))
    with (final_waypoints (after_segments objs t S s)).
  rewrite after_segments_final. cbn [mbind option_bind].
  rewrite lookup_app_l by (rewrite length_seq; lia).
  rewrite lookup_seq_lt by lia. cbn [mbind option_bind].
  unfold entry_at. cbn [waypoint_heap with_waypoint_heap].
  unfold loc in *. rewrite Hh. cbn [mbind option_bind].
  change (pose_heap (with_waypoint_heap h' (after_segments objs t S s)))
    with (pose_heap (after_segments objs t S s)).
  unfold smoothed. cbn [wp_pose wp_linear_x].
  rewrite Hpose.
  cbn [mbind option_bind]. unfold emitted. cbn [wp_linear_x].
  rewrite Hobjs. reflexivity.
Qed.

(** Entry [nA + m] of the window, in the stop zone. *)
Lemma window_stop s wps objs t S h' (m : nat) i :
  wps <> [] -> route_view s wps objs ->
  stop_idxs t S !! m = Some i ->
  h' !! (length (waypoint_heap s) + length (cruise_idxs t S) + m)%nat
  = waypoint_heap (after_segments objs t S s)
      !! (length (waypoint_heap s) + length (cruise_idxs t S) + m)%nat ->
  window_entry (with_waypoint_heap h' (after_segments objs t S s))
    (length (cruise_idxs t S) + m)
  = Some (route_pose objs (i mod Py.len wps), 0%R).
Proof.
  intros Hne Hview Hi Hh.
  assert (Hm : (m < length (stop_idxs t S))%nat) by (eapply lookup_lt_Some, Hi).
  pose proof (emitted_pose s wps objs t S Hne Hview false i) as Hpose.
  unfold window_entry.
  change (final_waypoints (with_waypoint_heap h' (after_segments objs t S s)))
    with (final_waypoints (after_segments objs t S s)).
  rewrite after_segments_final. cbn [mbind option_bind].
  rewrite lookup_app_r by (rewrite length_seq; lia).
  rewrite length_seq.
  replace (length (cruise_idxs t S) + m - length (cruise_idxs t S))%nat
    with m by lia.
  rewrite lookup_seq_lt by lia. cbn [mbind option_bind].
  unfold entry_at. cbn [waypoint_heap with_waypoint_heap].
  unfold loc in *. rewrite Hh, after_segments_stop, Hi. cbn [fmap option_fmap option_map mbind option_bind].
  change (pose_heap (with_waypoint_heap h' (after_segments objs t S s)))
    with (pose_heap (after_segments objs t S s)).
  rewrite Hpose.
  reflexivity.
Qed.

(** C2: in the Braking case every cruise-zone entry, the window positions
    before the first stop-zone entry, ends with the speed
    min(candidate, nominal), where the candidate is
    sqrt(2 A max(0, dist - 5)) snapped to 0 below 1.0 and [dist] is the
    straight-line distance from the entry's position to the position of the
    first stop-zone entry; so no cruise-zone entry exceeds its nominal
    speed. *)
Theorem cruise_zone_speeds (s : WaypointUpdater) (wps : list loc)
    (objs : list (Waypoint * Pose)) (t S : Z) (A : R) :
  state s = 1 -> traffic_waypoint s = S ->
  base_waypoints s = Some wps -> wps <> [] -> route_view s wps objs ->
  breaking_acceleration s = Some A -> (0 <= A)%R ->
  exists s' stop_pose,
    calculate_final_waypoints t s = (Ok tt, s')
    /\ window_entry s' (Z.to_nat (S - t)) = Some (stop_pose, 0%R)
    /\ forall k : nat,
         Z.of_nat k < S - t ->
         let j := (t + Z.of_nat k) mod Py.len wps in
         let dist := euclid (position (route_pose objs j)) (position stop_pose) in
         let final := Rmin (candidate_speed A dist) (route_speed objs j) in
         window_entry s' k = Some (route_pose objs j, final)
         /\ (final <= route_speed objs j)%R.
Proof.
  intros Hst Htw Hbase Hne Hview Hacc Hpos.
  destruct (braking_run s wps objs t S A Hst Htw Hbase Hne Hview Hacc Hpos)
    as (h' & Hrun & Hstop & Hcruise).
  exists (with_waypoint_heap h' (after_segments objs t S s)),
         (route_pose objs (S mod Py.len wps)).
  split; [exact Hrun|]. split.
  - pose proof (stop_idxs_length t S) as HB.
    assert (Hi0 : stop_idxs t S !! 0%nat = Some S).
    { unfold stop_idxs. rewrite Py_range_lookup by lia. f_equal. lia. }
    pose proof (window_stop s wps objs t S h' 0 S Hne Hview Hi0 (Hstop 0%nat)) as H.
    rewrite Nat.add_0_r, cruise_idxs_length in H. exact H.
  - intros k Hk j dist final.
    assert (Hi : cruise_idxs t S !! k = Some (t + Z.of_nat k))
      by (apply Py_range_lookup; lia).
    split; [|apply Rmin_r].
    apply (window_cruise s wps objs t S A h' k _ Hne Hview Hi).
    apply Hcruise, Hi.
Qed.

(** C3: in the Braking case with stop index [S] and tracked index [t], the
    window is the cruise zone followed by the stop zone; the stop zone holds
    the route indices from [S] up to max(t + LOOKAHEAD_WPS, S + 1), so at
    least one entry; each of its entries has the pose of its route entry and
    speed 0; and the explicit write of 0 into the first of them, at
    [target_wp], succeeds and changes nothing. *)
Theorem stop_zone_entries (s : WaypointUpdater) (wps : list loc)
    (objs : list (Waypoint * Pose)) (t S : Z) (A : R) :
  state s = 1 -> traffic_waypoint s = S ->
  base_waypoints s = Some wps -> wps <> [] -> route_view s wps objs ->
  breaking_acceleration s = Some A -> (0 <= A)%R ->
  let nA := Z.to_nat (S - t) in
  let nB := Z.to_nat (Z.max (t + LOOKAHEAD_WPS) (S + 1) - S) in
  exists s' fw,
    calculate_final_waypoints t s = (Ok tt, s')
    /\ final_waypoints s' = Some fw
    /\ length fw = (nA + nB)%nat
    /\ (1 <= nB)%nat
    /\ (forall m : nat,
          (m < nB)%nat ->
          window_entry s' (nA + m)
          = Some (route_pose objs ((S + Z.of_nat m) mod Py.len wps), 0%R))
    /\ braking_segments t (with_final_waypoints (Some []) s)
       = (Ok (Z.of_nat nA), after_segments objs t S s)
    /\ exists last,
         force_stop (Z.of_nat nA) (after_segments objs t S s)
         = (Ok last, after_segments objs t S s)
         /\ fw !! nA = Some last.
Proof.
  intros Hst Htw Hbase Hne Hview Hacc Hpos nA nB.
  destruct (braking_run s wps objs t S A Hst Htw Hbase Hne Hview Hacc Hpos)
    as (h' & Hrun & Hstop & Hcruise).
  pose proof (stop_idxs_length t S) as HB.
  pose proof (stop_idxs_length_eq t S) as HnB. fold nB in HnB.
  pose proof (cruise_idxs_length t S) as HnA. fold nA in HnA.
  exists (with_waypoint_heap h' (after_segments objs t S s)),
         (seq (length (waypoint_heap s)) nA
          ++ seq (length (waypoint_heap s) + nA) nB).
  split; [exact Hrun|]. split; [|split; [|split; [|split; [|split]]]].
  - change (final_waypoints (with_waypoint_heap h' (after_segments objs t S s)))
      with (final_waypoints (after_segments objs t S s)).
    rewrite after_segments_final, HnA, HnB. reflexivity.
  - rewrite length_app, !length_seq. reflexivity.
  - lia.
  - intros m Hm.
    assert (Hi : stop_idxs t S !! m = Some (S + Z.of_nat m)).
    { unfold stop_idxs. apply Py_range_lookup. fold nB. exact Hm. }
    rewrite <- HnA.
    apply (window_stop s wps objs t S h' m _ Hne Hview Hi). apply Hstop.
  - rewrite <- HnA. apply (braking_segments_ok s wps objs t S Htw Hbase Hne Hview).
  - exists (length (waypoint_heap s) + nA)%nat. split.
    + rewrite <- HnA. apply force_stop_ok.
    + rewrite lookup_app_r by (rewrite length_seq; lia).
      rewrite length_seq, Nat.sub_diag, lookup_seq_lt by lia.
      f_equal. lia.
Qed.

Lemma cruise_zone_speeds_witness :
  exists s' stop_pose,
    calculate_final_waypoints 0 sample_braking = (Ok tt, s')
    /\ window_entry s' (Z.to_nat (2 - 0)) = Some (stop_pose, 0%R)
    /\ forall k : nat,
         Z.of_nat k < 2 - 0 ->
         let j := (0 + Z.of_nat k) mod 3 in
         let dist := euclid (position (route_pose sample_objs j))
                            (position stop_pose) in
         let final := Rmin (candidate_speed (5 / 2) dist)
                           (route_speed sample_objs j) in
         window_entry s' k = Some (route_pose sample_objs j, final)
         /\ (final <= route_speed sample_objs j)%R.
Proof.
  apply (cruise_zone_speeds sample_braking [0%nat; 1%nat; 2%nat] sample_objs
           0 2 (5 / 2)).
  - reflexivity.
  - reflexivity.
  - reflexivity.
  - discriminate.
  - exact sample_view.
  - reflexivity.
  - lra.
Defined.

Lemma stop_zone_entries_witness :
  let nA := Z.to_nat (2 - 0) in
  let nB := Z.to_nat (Z.max (0 + LOOKAHEAD_WPS) (2 + 1) - 2) in
  exists s' fw,
    calculate_final_waypoints 0 sample_braking = (Ok tt, s')
    /\ final_waypoints s' = Some fw
    /\ length fw = (nA + nB)%nat
    /\ (1 <= nB)%nat
    /\ (forall m : nat,
          (m < nB)%nat ->
          window_entry s' (nA + m)
          = Some (route_pose sample_objs ((2 + Z.of_nat m) mod 3), 0%R))
    /\ braking_segments 0 (with_final_waypoints (Some []) sample_braking)
       = (Ok (Z.of_nat nA), after_segments sample_objs 0 2 sample_braking)
    /\ exists last,
         force_stop (Z.of_nat nA) (after_segments sample_objs 0 2 sample_braking)
         = (Ok last, after_segments sample_objs 0 2 sample_braking)
         /\ fw !! nA = Some last.
Proof.
  apply (stop_zone_entries sample_braking [0%nat; 1%nat; 2%nat] sample_objs
           0 2 (5 / 2)).
  - reflexivity.
  - reflexivity.
  - reflexivity.
  - discriminate.
  - exact sample_view.
  - reflexivity.
  - lra.
Defined.

(** ** Invariants of methods *)

Lemma hoare_bind {A B} P (m : M A) (k : A -> M B) Q R E :
  hoare P m Q E -> (forall a, hoare (Q a) (k a) R E) ->
  hoare P (bind m k) R E.
Proof.
  intros Hm Hk s HP. unfold bind. specialize (Hm s HP).
  destruct (m s) as [[a|e] s']; [apply Hk, Hm|exact Hm].
Qed.

Lemma hoare_ret {A} (P : WaypointUpdater -> Prop) (a : A) Q E :
  (forall s, P s -> Q a s) -> hoare P (ret a) Q E.
Proof. intros H s Hs. apply H, Hs. Qed.

Lemma hoare_modify (P : WaypointUpdater -> Prop) f Q E :
  (forall s, P s -> Q tt (f s)) -> hoare P (modify f) Q E.
Proof. intros H s Hs. apply H, Hs. Qed.

Lemma hoare_reads {A} (P : WaypointUpdater -> Prop) (m : M A) :
  reads_only m -> hoare P m (fun _ => P) P.
Proof.
  intros Hm s Hs. specialize (Hm s).
  destruct (m s) as [[a|e] s']; simpl in Hm; rewrite Hm; exact Hs.
Qed.

(** A reading method whose result, when it returns, satisfies [V]. *)
Lemma hoare_reads_value {A} (P : WaypointUpdater -> Prop) (m : M A)
    (V : A -> Prop) :
  reads_only m -> (forall s a, P s -> (m s).1 = Ok a -> V a) ->
  hoare P m (fun a s => P s /\ V a) P.
Proof.
  intros Hm HV s Hs. specialize (Hm s). specialize (HV s).
  destruct (m s) as [[a|e] s']; simpl in *; rewrite Hm; [|exact Hs].
  split; [exact Hs|]. apply HV; [exact Hs|reflexivity].
Qed.

Lemma hoare_for_each {A} (I : WaypointUpdater -> Prop) (xs : list A)
    (body : A -> M unit) :
  (forall x, x ∈ xs -> hoare I (body x) (fun _ => I) I) ->
  hoare I (for_each xs body) (fun _ => I) I.
Proof.
  induction xs as [|x xs IH]; intros Hbody.
  - apply hoare_ret. auto.
  - cbn [for_each]. eapply hoare_bind.
    + apply Hbody. left.
    + intros u. apply IH. intros y Hy. apply Hbody. right. exact Hy.
Qed.

Lemma reads_only_bind {A B} (m : M A) (k : A -> M B) :
  reads_only m -> (forall a, reads_only (k a)) -> reads_only (bind m k).
Proof.
  intros Hm Hk s. unfold bind. specialize (Hm s).
  destruct (m s) as [[a|e] s']; simpl in Hm; rewrite Hm; [apply Hk|reflexivity].
Qed.

Lemma reads_only_ret {A} (a : A) : reads_only (ret a).
Proof. intros s. reflexivity. Qed.

Lemma reads_only_raise {A} e : reads_only (@raise A e).
Proof. intros s. reflexivity. Qed.

Lemma reads_only_lift {A} (r : result A) : reads_only (lift r).
Proof. intros s. reflexivity. Qed.

Lemma reads_only_gets {A} (f : WaypointUpdater -> A) : reads_only (gets f).
Proof. intros s. reflexivity. Qed.

Lemma reads_only_attr {A} (f : WaypointUpdater -> option A) : reads_only (attr f).
Proof. intros s. unfold attr. destruct (f s); reflexivity. Qed.

Lemma reads_only_waypoint_at l : reads_only (waypoint_at l).
Proof. intros s. unfold waypoint_at. destruct (_ !! _); reflexivity. Qed.

Lemma reads_only_pose_at l : reads_only (pose_at l).
Proof. intros s. unfold pose_at. destruct (_ !! _); reflexivity. Qed.

Lemma reads_only_for_fold {A B} (xs : list A) (body : B -> A -> M B) :
  (forall acc x, reads_only (body acc x)) ->
  forall acc, reads_only (for_fold xs acc body).
Proof.
  intros Hbody. induction xs as [|x xs IH]; intros acc.
  - apply reads_only_ret.
  - cbn [for_fold]. apply reads_only_bind; [apply Hbody|]. intros acc'. apply IH.
Qed.

Create HintDb reads discriminated.
#[local] Hint Resolve reads_only_ret reads_only_raise reads_only_lift
  reads_only_gets reads_only_attr reads_only_waypoint_at reads_only_pose_at
  : reads.

Ltac reads :=
  repeat first
    [ progress auto with reads
    | apply reads_only_bind; [|intros ?]
    | apply reads_only_for_fold; intros [? ?] ?
    | match goal with |- reads_only (if ?b then _ else _) => destruct b end
    | match goal with |- reads_only (match ?o with _ => _ end) => destruct o end ].

Lemma reads_only_position_of wps i : reads_only (position_of wps i).
Proof. unfold position_of. reads. Qed.

Lemma reads_only_get_closest_waypoint : reads_only get_closest_waypoint.
Proof.
  unfold get_closest_waypoint. reads.
Qed.

Lemma reads_only_get_next_waypoint atan2 euler_yaw :
  reads_only (get_next_waypoint atan2 euler_yaw).
Proof.
  unfold get_next_waypoint. reads.
Qed.

Lemma reads_only_distance wps a b : reads_only (distance wps a b).
Proof. unfold distance. reads. Qed.

Lemma reads_only_decel x : reads_only (decel x).
Proof. unfold decel. reads. Qed.

Lemma reads_only_the_final_waypoints : reads_only the_final_waypoints.
Proof. unfold the_final_waypoints. reads. Qed.

Lemma reads_only_publish ws : reads_only (publish ws).
Proof.
  induction ws as [|l ws IH]; cbn [publish]; [apply reads_only_ret|].
  apply reads_only_bind; [unfold serialize; reads|]. intros e.
  apply reads_only_bind; [exact IH|]. intros es. apply reads_only_ret.
Qed.

Lemma reads_only_publish_window : reads_only publish_window.
Proof.
  unfold publish_window. apply reads_only_bind.
  - apply reads_only_the_final_waypoints.
  - intros fw. apply reads_only_publish.
Qed.

(** ** The frame of the trajectory builder *)

Lemma grows_from_untouched s0 s : grows_from s0 s -> untouched s0 s.
Proof.
  intros ([Hb _] & [e1 H1] & [e2 H2]). split; [exact Hb|]. split.
  - intros l w Hl. rewrite H1. apply lookup_app_l_Some, Hl.
  - intros p o Hp. rewrite H2. apply lookup_app_l_Some, Hp.
Qed.

Lemma grows_from_refl s : grows_from s s.
Proof. repeat split; exists []; rewrite app_nil_r; reflexivity. Qed.

Lemma hoare_fact {A} (P : WaypointUpdater -> Prop) (F : Prop) (m : M A) Q E :
  (F -> hoare P m Q E) -> hoare (fun s => P s /\ F) m Q E.
Proof. intros H s [Hs HF]. apply H; assumption. Qed.

Lemma getitem_elem {A} (l : list A) i a : Py.getitem l i = Ok a -> a ∈ l.
Proof.
  unfold Py.getitem. destruct (_ <? 0); [discriminate|].
  destruct (l !! _) as [x|] eqn:Hx; [|discriminate].
  intros [= <-]. eapply list_elem_of_lookup_2, Hx.
Qed.

Section Frame.

Variable s0 : WaypointUpdater.

Local Abbreviation I := (building s0).

Lemma new_Waypoint_frame :
  hoare I new_Waypoint (fun l s => I s /\ fresh_in s0 l) I.
Proof.
  intros s [(Hb & [e1 H1] & [e2 H2]) Hfw]. unfold new_Waypoint.
  split; [split|].
  - split; [exact Hb|]. simpl. split.
    + exists (e1 ++ [mkWaypoint (length (pose_heap s)) 0]).
      rewrite H1, <- app_assoc. reflexivity.
    + exists (e2 ++ [default_Pose]). rewrite H2, <- app_assoc. reflexivity.
  - exact Hfw.
  - unfold fresh_in. rewrite H1, length_app. lia.
Qed.

Lemma write_frame l (f : Waypoint -> Waypoint) s :
  fresh_in s0 l -> I s ->
  I (with_waypoint_heap (alter f l (waypoint_heap s)) s).
Proof.
  intros Hl [(Hb & [e1 H1] & He2) Hfw]. split; [|exact Hfw].
  split; [exact Hb|]. split; [|exact He2]. simpl.
  exists (alter f (l - length (waypoint_heap s0))%nat e1).
  rewrite H1. apply alter_app_r_alt. exact Hl.
Qed.

Lemma set_pose_pose_frame l p :
  fresh_in s0 l -> hoare I (set_pose_pose l p) (fun _ => I) I.
Proof.
  intros Hl s HI. unfold set_pose_pose, bind, waypoint_at, modify.
  destruct (waypoint_heap s !! l) as [w|] eqn:Hw; [|exact HI].
  rewrite list_insert_alter.
  apply write_frame; assumption.
Qed.

Lemma set_linear_x_frame l v :
  fresh_in s0 l -> hoare I (set_linear_x l v) (fun _ => I) I.
Proof.
  intros Hl s HI. unfold set_linear_x, bind, waypoint_at, modify.
  destruct (waypoint_heap s !! l) as [w|] eqn:Hw; [|exact HI].
  rewrite list_insert_alter.
  apply write_frame; assumption.
Qed.

Lemma append_final_frame l :
  fresh_in s0 l -> hoare I (append_final l) (fun _ => I) I.
Proof.
  intros Hl s [Hg Hfw]. unfold append_final, bind, gets.
  destruct (final_waypoints s) as [ws|] eqn:Hws; [|split; assumption].
  split; [exact Hg|]. intros fw [= <-].
  apply Forall_app. split; [apply Hfw, Hws|].
  apply Forall_singleton, Hl.
Qed.

Lemma the_final_waypoints_frame :
  hoare I the_final_waypoints (fun fw s => I s /\ Forall (fresh_in s0) fw) I.
Proof.
  apply hoare_reads_value; [apply reads_only_the_final_waypoints|].
  intros s fw [_ Hfw]. unfold the_final_waypoints, bind, gets.
  destruct (final_waypoints s) as [ws|] eqn:Hws; [|discriminate].
  intros [= <-]. apply Hfw, Hws.
Qed.

Lemma emit_frame nominal i : hoare I (emit nominal i) (fun _ => I) I.
Proof.
  unfold emit.
  eapply hoare_bind; [apply hoare_reads, reads_only_attr|]. intros wps.
  eapply hoare_bind; [apply hoare_reads, reads_only_lift|]. intros j.
  eapply hoare_bind; [apply new_Waypoint_frame|]. intros tmp.
  apply hoare_fact. intros Htmp.
  eapply hoare_bind; [apply hoare_reads, reads_only_lift|]. intros b.
  eapply hoare_bind; [apply hoare_reads, reads_only_waypoint_at|]. intros bw.
  eapply hoare_bind; [apply set_pose_pose_frame, Htmp|]. intros u.
  eapply hoare_bind; [|intros u'; apply append_final_frame, Htmp].
  destruct nominal; [|apply set_linear_x_frame, Htmp].
  eapply hoare_bind; [apply hoare_reads, reads_only_lift|]. intros b'.
  eapply hoare_bind; [apply hoare_reads, reads_only_waypoint_at|]. intros bw'.
  apply set_linear_x_frame, Htmp.
Qed.

Lemma smooth_frame last wp :
  fresh_in s0 wp -> hoare I (smooth last wp) (fun _ => I) I.
Proof.
  intros Hwp. unfold smooth.
  eapply hoare_bind; [apply hoare_reads, reads_only_waypoint_at|]. intros w.
  eapply hoare_bind; [apply hoare_reads, reads_only_pose_at|]. intros p.
  eapply hoare_bind; [apply hoare_reads, reads_only_waypoint_at|]. intros lw.
  eapply hoare_bind; [apply hoare_reads, reads_only_pose_at|]. intros lp.
  cbv zeta.
  eapply hoare_bind; [apply hoare_reads, reads_only_lift|]. intros dist.
  eapply hoare_bind; [apply hoare_reads, reads_only_gets|]. intros [a|].
  - eapply hoare_bind; [apply hoare_reads, reads_only_lift|]. intros vel.
    eapply hoare_bind; [apply hoare_reads, reads_only_waypoint_at|]. intros w'.
    apply set_linear_x_frame, Hwp.
  - apply hoare_reads, reads_only_raise.
Qed.

Lemma braking_segments_frame t :
  hoare I (braking_segments t) (fun _ => I) I.
Proof.
  unfold braking_segments.
  eapply hoare_bind; [apply hoare_reads, reads_only_gets|]. intros tw.
  eapply hoare_bind;
    [apply hoare_for_each; intros i _; apply emit_frame|]. intros u.
  eapply hoare_bind; [apply hoare_reads, reads_only_the_final_waypoints|].
  intros fw.
  eapply hoare_bind; [apply hoare_reads, reads_only_gets|]. intros tw'.
  eapply hoare_bind;
    [apply hoare_for_each; intros i _; apply emit_frame|]. intros u'.
  apply hoare_ret. auto.
Qed.

Lemma force_stop_frame target_wp :
  hoare I (force_stop target_wp) (fun _ => I) I.
Proof.
  unfold force_stop.
  eapply hoare_bind; [apply the_final_waypoints_frame|]. intros fw.
  apply hoare_fact. intros Hfw.
  eapply hoare_bind.
  { apply (hoare_reads_value I _ (fun l => l ∈ fw)); [apply reads_only_lift|].
    intros s l _ Hl. apply (getitem_elem _ _ _ Hl). }
  intros last. apply hoare_fact. intros Hlast.
  eapply hoare_bind.
  - apply set_linear_x_frame.
    rewrite Forall_forall in Hfw. apply Hfw, Hlast.
  - intros u. apply hoare_ret. auto.
Qed.

Lemma add_deceleration_frame target_wp last :
  hoare I (add_deceleration target_wp last) (fun _ => I) I.
Proof.
  unfold add_deceleration.
  eapply hoare_bind; [apply the_final_waypoints_frame|]. intros fw.
  apply hoare_fact. intros Hfw.
  apply hoare_for_each. intros wp Hwp. apply smooth_frame.
  rewrite Forall_forall in Hfw. apply Hfw.
  rewrite elem_of_reverse in Hwp. unfold Py.slice_to in Hwp.
  apply elem_of_take in Hwp as (k & Hk & _).
  eapply list_elem_of_lookup_2, Hk.
Qed.

Lemma calculate_final_waypoints_frame t :
  hoare (eq s0) (calculate_final_waypoints t) (fun _ => I) I.
Proof.
  unfold calculate_final_waypoints.
  eapply hoare_bind.
  { apply (hoare_modify _ _ (fun _ => I)). intros s <-.
    split; [exact (grows_from_refl s0)|].
    intros fw [= <-]. constructor. }
  intros u.
  eapply hoare_bind; [apply hoare_reads, reads_only_gets|]. intros st.
  destruct (st =? 0).
  - apply hoare_for_each. intros i _. apply emit_frame.
  - destruct (st =? 1).
    + eapply hoare_bind; [apply braking_segments_frame|]. intros target_wp.
      eapply hoare_bind; [apply force_stop_frame|]. intros last.
      apply add_deceleration_frame.
    + apply hoare_ret. auto.
Qed.

End Frame.

Lemma untouched_refl s : untouched s s.
Proof. repeat split; auto. Qed.

Lemma untouched_trans s1 s2 s3 :
  untouched s1 s2 -> untouched s2 s3 -> untouched s1 s3.
Proof.
  intros (Hb & Hw & Hp) (Hb' & Hw' & Hp'). split; [congruence|]. split.
  - intros l w Hl. apply Hw', Hw, Hl.
  - intros p o Ho. apply Hp', Hp, Ho.
Qed.

Lemma untouched_route_view s s' wps objs :
  untouched s s' -> base_waypoints s = Some wps -> route_view s wps objs ->
  base_waypoints s' = Some wps /\ route_view s' wps objs.
Proof.
  intros (Hb & Hw & Hp) Hbase Hview. split; [congruence|].
  unfold route_view in *. eapply Forall2_impl; [exact Hview|].
  intros b o [H1 H2]. split; [apply Hw, H1|apply Hp, H2].
Qed.

Lemma calculate_final_waypoints_untouched s t :
  hoare (untouched s) (calculate_final_waypoints t)
        (fun _ => untouched s) (untouched s).
Proof.
  intros s1 Hs1.
  pose proof (calculate_final_waypoints_frame s1 t s1 eq_refl) as H.
  destruct (calculate_final_waypoints t s1) as [[u|e] s2];
    destruct H as [Hg _];
    exact (untouched_trans _ _ _ Hs1 (grows_from_untouched _ _ Hg)).
Qed.

Lemma resolve_traffic_lights_untouched s t :
  hoare (untouched s) (resolve_traffic_lights t)
        (fun _ => untouched s) (untouched s).
Proof.
  assert (Hstate : forall v, hoare (untouched s) (modify (with_state v))
                               (fun _ => untouched s) (untouched s)).
  { intros v. apply hoare_modify. intros s1 H. exact H. }
  unfold resolve_traffic_lights.
  eapply hoare_bind; [apply hoare_reads, reads_only_gets|]. intros st.
  destruct (st =? 0).
  - eapply hoare_bind; [apply hoare_reads, reads_only_gets|]. intros tw.
    destruct (negb (tw =? -1)); [|apply Hstate].
    eapply hoare_bind; [apply hoare_reads, reads_only_attr|]. intros wps.
    eapply hoare_bind; [apply hoare_reads, reads_only_distance|]. intros D.
    eapply hoare_bind; [apply hoare_reads, reads_only_gets|]. intros lim.
    eapply hoare_bind; [apply hoare_reads, reads_only_decel|]. intros m.
    destruct (Rgt_dec D m); [|apply Hstate].
    eapply hoare_bind; [apply Hstate|]. intros u.
    eapply hoare_bind; [apply hoare_reads, reads_only_decel|]. intros a.
    apply hoare_modify. intros s1 H. exact H.
  - eapply hoare_bind; [apply hoare_reads, reads_only_gets|]. intros tw.
    destruct (tw =? -1); [apply Hstate|apply hoare_ret; auto].
Qed.

Lemma update_untouched atan2 euler_yaw s :
  hoare (untouched s) (update atan2 euler_yaw)
        (fun _ => untouched s) (untouched s).
Proof.
  unfold update.
  eapply hoare_bind; [apply hoare_reads, reads_only_gets|]. intros cp.
  eapply hoare_bind; [apply hoare_reads, reads_only_gets|]. intros bw.
  destruct (negb _); [apply hoare_ret; auto|].
  eapply hoare_bind; [apply hoare_reads, reads_only_get_next_waypoint|].
  intros next_wp.
  eapply hoare_bind; [apply resolve_traffic_lights_untouched|]. intros u.
  eapply hoare_bind; [apply calculate_final_waypoints_untouched|]. intros u'.
  eapply hoare_bind; [apply hoare_reads, reads_only_publish_window|].
  intros msg. apply hoare_ret. auto.
Qed.

Lemma hoare_after {A} (P : WaypointUpdater -> Prop) (m : M A) s :
  hoare P m (fun _ => P) P -> P s -> P (m s).2.
Proof.
  intros H Hs. specialize (H s Hs). destruct (m s) as [[a|e] s']; exact H.
Qed.

(** C10: building the window never writes to an object that existed before:
    whether [calculate_final_waypoints] returns or raises, the route list and
    every waypoint and pose object of the node are as before, and the window
    holds only waypoints allocated by this call; the same holds for the
    whole tick, so the route's waypoints keep their nominal speed and their
    pose. *)
Theorem route_store_untouched (atan2 : R -> R -> R)
    (euler_yaw : Quaternion -> R) (s : WaypointUpdater) (t : Z) :
  let built := (calculate_final_waypoints t s).2 in
  let ticked := (update atan2 euler_yaw s).2 in
  untouched s built
  /\ fresh_window s built
  /\ untouched s ticked
  /\ (forall wps objs,
        base_waypoints s = Some wps -> route_view s wps objs ->
        (base_waypoints built = Some wps /\ route_view built wps objs)
        /\ (base_waypoints ticked = Some wps /\ route_view ticked wps objs)).
Proof.
  intros built ticked.
  assert (Hb : building s built).
  { pose proof (calculate_final_waypoints_frame s t s eq_refl) as H.
    unfold built. destruct (calculate_final_waypoints t s) as [[u|e] s'];
      exact H. }
  assert (Hu : untouched s built)
    by (apply grows_from_untouched, Hb).
  assert (Ht : untouched s ticked)
    by (apply (hoare_after _ _ _ (update_untouched atan2 euler_yaw s)),
          untouched_refl).
  split; [exact Hu|]. split; [apply Hb|]. split; [exact Ht|].
  intros wps objs Hbase Hview. split.
  - apply (untouched_route_view s built wps objs Hu Hbase Hview).
  - apply (untouched_route_view s ticked wps objs Ht Hbase Hview).
Qed.

(** ** The guards of the tick *)

Lemma update_idle atan2 euler_yaw s :
  current_pose s = None \/ base_waypoints s = None ->
  update atan2 euler_yaw s = (Ok None, s).
Proof.
  intros H. unfold update. rewrite !bind_gets.
  destruct H as [-> | ->]; [reflexivity|].
  destruct (current_pose s); reflexivity.
Qed.

Lemma update_runs atan2 euler_yaw s cur wps :
  current_pose s = Some cur -> base_waypoints s = Some wps ->
  update atan2 euler_yaw s
  = (next_wp <- get_next_waypoint atan2 euler_yaw ;;
     resolve_traffic_lights next_wp ;;
     calculate_final_waypoints next_wp ;;
     msg <- publish_window ;;
     ret (Some msg)) s.
Proof.
  intros Hc Hb. unfold update. rewrite !bind_gets, Hc, Hb. reflexivity.
Qed.

(** With a stop signal pending and no velocity message yet, the resolver
    fails on [self.current_velocity]. *)
Lemma resolve_without_velocity s wps objs t :
  state s = 0 -> traffic_waypoint s <> -1 ->
  base_waypoints s = Some wps -> route_view s wps objs ->
  0 <= t -> traffic_waypoint s < Py.len wps ->
  current_velocity s = None ->
  resolve_traffic_lights t s = (Raise AttributeError, s).
Proof.
  intros Hst Htw Hbase Hview Ht Hidx Hv.
  unfold resolve_traffic_lights.
  rewrite bind_gets, Hst. simpl. rewrite bind_gets.
  destruct (Z.eqb_spec (traffic_waypoint s) (-1)) as [|_]; [contradiction|].
  simpl.
  rewrite (bind_ok _ _ s wps s) by (apply attr_ok, Hbase).
  rewrite (bind_ok _ _ s _ s (distance_ok _ _ _ _ _ Hview Ht Hidx)).
  rewrite bind_gets.
  erewrite bind_raise; [reflexivity|].
  unfold decel. erewrite bind_raise; [reflexivity|].
  unfold attr. rewrite Hv. reflexivity.
Qed.

Lemma update_without_velocity atan2 euler_yaw s cur wps objs :
  current_pose s = Some cur -> base_waypoints s = Some wps -> wps <> [] ->
  route_view s wps objs ->
  state s = 0 -> traffic_waypoint s <> -1 -> traffic_waypoint s < Py.len wps ->
  current_velocity s = None ->
  update atan2 euler_yaw s = (Raise AttributeError, s).
Proof.
  intros Hcur Hbase Hne Hview Hst Htw Hidx Hv.
  rewrite (update_runs _ _ _ _ _ Hcur Hbase).
  destruct (get_closest_waypoint_spec s wps objs cur Hbase Hcur Hview Hne)
    as (c & Hrun & Hc & _).
  rewrite (bind_ok _ _ _ _ _
             (get_next_waypoint_run atan2 euler_yaw s wps objs cur c
                Hbase Hcur Hview Hc Hrun)).
  erewrite bind_raise; [reflexivity|].
  apply (resolve_without_velocity s wps objs); try assumption.
  destruct (Rle_dec _ _); lia.
Qed.

(** C7: the tick is an idle no-op while the pose or the route is missing;
    but the speed is not part of the guard: with pose, route and a stop
    signal received and no speed yet, the tick raises [AttributeError]
    instead of idling. *)
Theorem tick_guard_misses_velocity (atan2 : R -> R -> R)
    (euler_yaw : Quaternion -> R) :
  (forall s, current_pose s = None \/ base_waypoints s = None ->
             update atan2 euler_yaw s = (Ok None, s))
  /\ current_velocity sample_no_velocity = None
  /\ update atan2 euler_yaw sample_no_velocity
     = (Raise AttributeError, sample_no_velocity).
Proof.
  split; [apply update_idle|]. split; [reflexivity|].
  apply (update_without_velocity atan2 euler_yaw sample_no_velocity
           (sample_pose 0) [0%nat; 1%nat; 2%nat] sample_objs).
  - reflexivity.
  - reflexivity.
  - discriminate.
  - repeat constructor.
  - reflexivity.
  - simpl. lia.
  - unfold Py.len. simpl. lia.
  - reflexivity.
Qed.

(** ** The empty route *)

Lemma emit_empty_route nominal i s :
  base_waypoints s = Some [] ->
  emit nominal i s = (Raise ZeroDivisionError, s).
Proof.
  intros Hb. unfold emit.
  rewrite (bind_ok _ _ s [] s) by (apply attr_ok, Hb).
  reflexivity.
Qed.

Lemma for_each_emit_empty_route nominal i idxs s :
  base_waypoints s = Some [] ->
  for_each (i :: idxs) (emit nominal) s = (Raise ZeroDivisionError, s).
Proof.
  intros Hb. cbn [for_each].
  erewrite bind_raise; [reflexivity|]. apply emit_empty_route, Hb.
Qed.

Lemma Py_range_cons a b : a < b -> Py.range a b = a :: Py.range (a + 1) b.
Proof.
  intros H. unfold Py.range. rewrite seqZ_cons by lia.
  f_equal. f_equal; lia.
Qed.

Lemma calculate_final_waypoints_empty_route s t :
  base_waypoints s = Some [] -> state s = 0 \/ state s = 1 ->
  calculate_final_waypoints t s
  = (Raise ZeroDivisionError, with_final_waypoints (Some []) s).
Proof.
  intros Hb Hst. unfold calculate_final_waypoints.
  rewrite bind_modify, bind_gets.
  set (s0 := with_final_waypoints (Some []) s).
  assert (Hb0 : base_waypoints s0 = Some []) by exact Hb.
  change (state s0) with (state s).
  destruct Hst as [-> | ->]; simpl.
  - rewrite Py_range_cons by (unfold LOOKAHEAD_WPS; lia).
    apply for_each_emit_empty_route, Hb0.
  - erewrite bind_raise; [reflexivity|].
    unfold braking_segments. rewrite bind_gets.
    change (traffic_waypoint s0) with (traffic_waypoint s).
    destruct (Z_lt_le_dec t (traffic_waypoint s)) as [Hlt|Hle].
    + rewrite Py_range_cons by lia.
      erewrite bind_raise; [reflexivity|].
      apply for_each_emit_empty_route, Hb0.
    + unfold Py.range at 1. rewrite seqZ_nil by lia.
      cbn [for_each]. rewrite (bind_ok _ _ s0 tt s0) by reflexivity.
      rewrite (bind_ok _ _ s0 [] s0) by reflexivity.
      rewrite bind_gets. change (traffic_waypoint s0) with (traffic_waypoint s).
      rewrite Py_range_cons by lia.
      erewrite bind_raise; [reflexivity|].
      apply for_each_emit_empty_route, Hb0.
Qed.





(** ** The tick without a stop signal *)

Lemma update_state_without_signal atan2 euler_yaw s cur wps objs :
  current_pose s = Some cur -> base_waypoints s = Some wps -> wps <> [] ->
  route_view s wps objs -> traffic_waypoint s = -1 ->
  state (update atan2 euler_yaw s).2 = 0.
Proof.
  intros Hcur Hbase Hne Hview Htw.
  rewrite (update_runs _ _ _ _ _ Hcur Hbase).
  destruct (get_closest_waypoint_spec s wps objs cur Hbase Hcur Hview Hne)
    as (c & Hrun & Hc & _).
  rewrite (bind_ok _ _ _ _ _
             (get_next_waypoint_run atan2 euler_yaw s wps objs cur c
                Hbase Hcur Hview Hc Hrun)).
  set (n := if Rle_dec _ _ then _ else _).
  rewrite (bind_ok _ _ _ _ _ (resolve_no_signal s n Htw)).
  set (s1 := with_state 0 s).
  pose proof (calculate_final_waypoints_frame s1 n s1 eq_refl) as H.
  unfold bind at 1.
  destruct (calculate_final_waypoints n s1) as [[u|e] s2];
    destruct H as [([_ Hstate] & _) _]; [|exact Hstate].
  pose proof (reads_only_publish_window s2) as Hp.
  unfold bind, ret.
  destruct (publish_window s2) as [[msg|e] s3]; simpl in Hp; subst s3;
    exact Hstate.
Qed.

(** C4: after a tick in which the stop signal is the sentinel -1, the
    resolver's state is Driving (0) whatever it was before: the resolver
    raises nothing and only sets the state, and a tick that reaches the
    resolver (pose and a non-empty route received) ends in state 0. *)
Theorem resolver_reset_without_signal (s : WaypointUpdater) (next_wp : Z) :
  traffic_waypoint s = -1 ->
  resolve_traffic_lights next_wp s = (Ok tt, with_state 0 s)
  /\ state (resolve_traffic_lights next_wp s).2 = 0
  /\ (forall atan2 euler_yaw cur wps objs,
        current_pose s = Some cur -> base_waypoints s = Some wps ->
        wps <> [] -> route_view s wps objs ->
        state (update atan2 euler_yaw s).2 = 0).
Proof.
  intros H. rewrite (resolve_no_signal s next_wp H).
  split; [reflexivity|]. split; [reflexivity|].
  intros atan2 euler_yaw cur wps objs Hcur Hbase Hne Hview.
  apply (update_state_without_signal atan2 euler_yaw s cur wps objs);
    assumption.
Qed.

Lemma resolver_reset_without_signal_witness :
  resolve_traffic_lights 1 sample_cleared = (Ok tt, with_state 0 sample_cleared)
  /\ state (resolve_traffic_lights 1 sample_cleared).2 = 0
  /\ (forall atan2 euler_yaw cur wps objs,
        current_pose sample_cleared = Some cur ->
        base_waypoints sample_cleared = Some wps ->
        wps <> [] -> route_view sample_cleared wps objs ->
        state (update atan2 euler_yaw sample_cleared).2 = 0).
Proof.
  apply (resolver_reset_without_signal sample_cleared 1).
  reflexivity.
Defined.

(** ** The sample node, evaluated *)

Lemma euclid_x_axis a b :
  euclid (mkPoint a 0 0) (mkPoint b 0 0) = Rabs (a - b).
Proof.
  unfold euclid. simpl.
  replace ((a - b) * ((a - b) * 1) + (0 - 0) * ((0 - 0) * 1)
           + (0 - 0) * ((0 - 0) * 1))%R with (Rsqr (a - b))
    by (unfold Rsqr; ring).
  apply sqrt_Rsqr_abs.
Qed.

Example sample_arc_distance : arc_distance sample_objs 0 2 = 20%R.
Proof.
  unfold arc_distance, Py.range. simpl.
  unfold route_point, route_pose. simpl.
  rewrite !euclid_x_axis.
  rewrite (Rabs_left (0 - 10)), (Rabs_left (10 - 20)) by lra. lra.
Qed.

(** The stop at index 2 is 20 away, farther than the minimum stopping
    distance 10: the resolver starts braking with deceleration 5/2. *)
Example sample_starts_braking :
  resolve_traffic_lights 0 sample_node = (Ok tt, sample_braking).
Proof.
  rewrite (resolve_driving_signal sample_node [0%nat; 1%nat; 2%nat]
             sample_objs 0 10);
    try reflexivity; try exact sample_view; try lia;
    [|simpl; lia|simpl; lra].
  cbv zeta. change (traffic_waypoint sample_node) with 2.
  rewrite sample_arc_distance.
  change (breaking_acceleration_limit sample_node) with (-5)%R.
  rewrite (stopping_distance_abs 10 (-5)) by lra.
  rewrite Rabs_left by lra.
  replace (10 ^ 2 / (2 * - (-5)))%R with 10%R by field.
  destruct (Rgt_dec 20 10) as [_|Hn]; [|exfalso; apply Hn; lra].
  rewrite Rabs_decel by lra.
  unfold sample_braking. do 3 f_equal. field.
Qed.

Example candidate_speed_sample : candidate_speed (5 / 2) 10 = 5%R.
Proof.
  unfold candidate_speed.
  rewrite Rmax_right by lra.
  replace (2 * (5 / 2) * (10 - 5))%R with (Rsqr 5) by (unfold Rsqr; lra).
  rewrite sqrt_Rsqr by lra.
  destruct (Rlt_dec 5 1); [exfalso; lra|reflexivity].
Qed.

(** While braking for the stop at index 2, the window entry before the stop
    entry gets speed 5, below its nominal 10, and the stop entry speed 0. *)
Example sample_braking_window :
  exists s',
    calculate_final_waypoints 0 sample_braking = (Ok tt, s')
    /\ window_entry s' 1 = Some (sample_pose 10, 5%R)
    /\ window_entry s' 2 = Some (sample_pose 20, 0%R).
Proof.
  destruct (braking_run sample_braking [0%nat; 1%nat; 2%nat] sample_objs
              0 2 (5 / 2)) as (h' & Hrun & Hstop & Hcruise);
    try reflexivity; try exact sample_view; [discriminate|lra|].
  exists (with_waypoint_heap h' (after_segments sample_objs 0 2 sample_braking)).
  split; [exact Hrun|]. split.
  - rewrite (window_cruise sample_braking [0%nat; 1%nat; 2%nat] sample_objs
               0 2 (5 / 2) h' 1 1);
      [|discriminate|exact sample_view|reflexivity|apply Hcruise; reflexivity].
    change (1 mod Py.len [0%nat; 1%nat; 2%nat]) with 1.
    change (2 mod Py.len [0%nat; 1%nat; 2%nat]) with 2.
    change (route_pose sample_objs 1) with (sample_pose 10).
    change (route_pose sample_objs 2) with (sample_pose 20).
    change (route_speed sample_objs 1) with 10%R.
    unfold sample_pose at 2 3. cbn [position].
    rewrite euclid_x_axis, (Rabs_left (10 - 20)) by lra.
    replace (- (10 - 20))%R with 10%R by lra.
    rewrite candidate_speed_sample, Rmin_left by lra. reflexivity.
  - apply (window_stop sample_braking [0%nat; 1%nat; 2%nat] sample_objs
             0 2 h' 0 2);
      [discriminate|exact sample_view|reflexivity|apply (Hstop 0%nat)].
Qed.


(** ** The distance [dl] as a metric *)

Lemma sum_squares_nonneg (x y z : R) : (0 <= x ^ 2 + y ^ 2 + z ^ 2)%R.
Proof.
  pose proof (pow2_ge_0 x). pose proof (pow2_ge_0 y). pose proof (pow2_ge_0 z).
  lra.
Qed.

Lemma euclid_sym a b : euclid a b = euclid b a.
Proof. unfold euclid. f_equal. ring. Qed.

(** Cauchy-Schwarz in three dimensions. *)
Lemma dot_product_bound (x y z x' y' z' : R) :
  (x * x' + y * y' + z * z'
   <= R_sqrt.sqrt (x ^ 2 + y ^ 2 + z ^ 2) * R_sqrt.sqrt (x' ^ 2 + y' ^ 2 + z' ^ 2))%R.
Proof.
  rewrite <- sqrt_mult by apply sum_squares_nonneg.
  eapply Rle_trans; [apply Rle_abs|].
  rewrite <- sqrt_Rsqr_abs. apply sqrt_le_1.
  - apply Rle_0_sqr.
  - apply Rmult_le_pos; apply sum_squares_nonneg.
  - unfold Rsqr.
    pose proof (pow2_ge_0 (x * y' - y * x')).
    pose proof (pow2_ge_0 (x * z' - z * x')).
    pose proof (pow2_ge_0 (y * z' - z * y')).
    replace ((x ^ 2 + y ^ 2 + z ^ 2) * (x' ^ 2 + y' ^ 2 + z' ^ 2))%R
      with ((x * x' + y * y' + z * z') * (x * x' + y * y' + z * z')
            + ((x * y' - y * x') ^ 2 + (x * z' - z * x') ^ 2
               + (y * z' - z * y') ^ 2))%R by ring.
    lra.
Qed.

Lemma euclid_triangle a b c : (euclid a c <= euclid a b + euclid b c)%R.
Proof.
  unfold euclid.
  set (x := (pt_x a - pt_x b)%R). set (y := (pt_y a - pt_y b)%R).
  set (z := (pt_z a - pt_z b)%R).
  set (x' := (pt_x b - pt_x c)%R). set (y' := (pt_y b - pt_y c)%R).
  set (z' := (pt_z b - pt_z c)%R).
  replace (pt_x a - pt_x c)%R with (x + x')%R by (unfold x, x'; ring).
  replace (pt_y a - pt_y c)%R with (y + y')%R by (unfold y, y'; ring).
  replace (pt_z a - pt_z c)%R with (z + z')%R by (unfold z, z'; ring).
  pose proof (sum_squares_nonneg x y z) as HU.
  pose proof (sum_squares_nonneg x' y' z') as HV.
  pose proof (sum_squares_nonneg (x + x') (y + y') (z + z')) as HW.
  pose proof (sqrt_pos (x ^ 2 + y ^ 2 + z ^ 2)) as HsU.
  pose proof (sqrt_pos (x' ^ 2 + y' ^ 2 + z' ^ 2)) as HsV.
  apply Rsqr_incr_0_var; [|lra].
  rewrite Rsqr_sqrt by exact HW.
  rewrite Rsqr_plus, !Rsqr_sqrt by assumption.
  pose proof (dot_product_bound x y z x' y' z') as Hcs.
  replace ((x + x') ^ 2 + (y + y') ^ 2 + (z + z') ^ 2)%R
    with (x ^ 2 + y ^ 2 + z ^ 2 + (x' ^ 2 + y' ^ 2 + z' ^ 2)
          + 2 * (x * x' + y * y' + z * z'))%R by ring.
  lra.
Qed.

(** ** More on the arc distance *)

Lemma arc_distance_cons objs t idx :
  t < idx ->
  arc_distance objs t idx
  = (euclid (route_point objs t) (route_point objs (t + 1))
     + arc_distance objs (t + 1) idx)%R.
Proof.
  intros H. unfold arc_distance. rewrite Py_range_cons by exact H.
  rewrite fmap_cons. reflexivity.
Qed.

Lemma arc_distance_split_nat objs (n : nat) : forall t idx,
  0 <= idx - (t + Z.of_nat n) ->
  arc_distance objs t idx
  = (arc_distance objs t (t + Z.of_nat n)
     + arc_distance objs (t + Z.of_nat n) idx)%R.
Proof.
  induction n as [|n IH]; intros t idx H.
  - rewrite Z.add_0_r, (arc_distance_past objs t t) by lia. lra.
  - rewrite (arc_distance_cons objs t idx) by lia.
    rewrite (arc_distance_cons objs t (t + Z.of_nat (S n))) by lia.
    rewrite (IH (t + 1) idx) by lia.
    replace (t + 1 + Z.of_nat n) with (t + Z.of_nat (S n)) by lia.
    lra.
Qed.

Lemma arc_distance_split objs t m idx :
  t <= m <= idx ->
  arc_distance objs t idx
  = (arc_distance objs t m + arc_distance objs m idx)%R.
Proof.
  intros H. pose proof (arc_distance_split_nat objs (Z.to_nat (m - t)) t idx) as E.
  rewrite Z2Nat.id in E by lia.
  replace (t + (m - t)) with m in E by lia. apply E. lia.
Qed.

Lemma arc_distance_chord_nat objs (n : nat) : forall t,
  (euclid (route_point objs t) (route_point objs (t + Z.of_nat n))
   <= arc_distance objs t (t + Z.of_nat n))%R.
Proof.
  induction n as [|n IH]; intros t.
  - rewrite Z.add_0_r, euclid_refl, arc_distance_past by lia. lra.
  - rewrite (arc_distance_cons objs t) by lia.
    specialize (IH (t + 1)).
    replace (t + 1 + Z.of_nat n) with (t + Z.of_nat (S n)) in IH by lia.
    pose proof (euclid_triangle (route_point objs t) (route_point objs (t + 1))
                  (route_point objs (t + Z.of_nat (S n)))).
    lra.
Qed.

Lemma arc_distance_chord objs t idx :
  t <= idx ->
  (euclid (route_point objs t) (route_point objs idx)
   <= arc_distance objs t idx)%R.
Proof.
  intros H. pose proof (arc_distance_chord_nat objs (Z.to_nat (idx - t)) t) as E.
  rewrite Z2Nat.id in E by lia.
  replace (t + (idx - t)) with idx in E by lia. exact E.
Qed.

Lemma arc_distance_mono objs t idx idx' :
  idx <= idx' -> (arc_distance objs t idx <= arc_distance objs t idx')%R.
Proof.
  intros H. destruct (Z_lt_le_dec idx t) as [Hlt|Hle].
  - rewrite (arc_distance_past objs t idx) by lia. apply arc_distance_nonneg.
  - rewrite (arc_distance_split objs t idx idx') by lia.
    pose proof (arc_distance_nonneg objs idx idx'). lra.
Qed.

(** ** A stop index beyond the route *)

Lemma getitem_out {A} (l : list A) (i : Z) :
  Py.len l <= i -> Py.getitem l i = Raise IndexError.
Proof.
  intros Hi. unfold Py.getitem, Py.len in *.
  destruct (Z.ltb_spec i 0); [lia|].
  destruct (Z.ltb_spec i 0); [lia|].
  rewrite lookup_ge_None_2 by lia. reflexivity.
Qed.

Lemma position_of_out s wps i :
  Py.len wps <= i -> position_of wps i s = (Raise IndexError, s).
Proof.
  intros H. unfold position_of.
  erewrite bind_raise; [reflexivity|].
  unfold lift. rewrite getitem_out by exact H. reflexivity.
Qed.

Lemma distance_loop_out s wps objs (n : nat) : forall (a prev : Z) (d : R),
  route_view s wps objs ->
  0 <= prev -> prev <= a -> Py.len wps < a + Z.of_nat (S n) ->
  for_fold (seqZ a (Z.of_nat (S n))) (d, prev) (distance_body wps) s
  = (Raise IndexError, s).
Proof.
  induction n as [|n IH]; intros a prev d Hview Hprev Ha Hn;
    rewrite seqZ_cons by lia; cbn [for_fold];
    (destruct (Z_lt_le_dec prev (Py.len wps)) as [Hp|Hp];
     [|erewrite bind_raise; [reflexivity|]; unfold distance_body;
       erewrite bind_raise; [reflexivity|]; apply position_of_out, Hp]).
  - erewrite bind_raise; [reflexivity|]. unfold distance_body.
    rewrite (bind_ok _ _ s _ s (position_of_ok _ _ _ _ Hview (conj Hprev Hp))).
    erewrite bind_raise; [reflexivity|]. apply position_of_out. lia.
  - destruct (Z_lt_le_dec a (Py.len wps)) as [Hlt|Hge].
    + assert (Hin : 0 <= a < Py.len wps) by lia.
      erewrite bind_ok.
      2:{ unfold distance_body.
          rewrite (bind_ok _ _ s _ s (position_of_ok _ _ _ _ Hview (conj Hprev Hp))).
          rewrite (bind_ok _ _ s _ s (position_of_ok _ _ _ _ Hview Hin)).
          erewrite bind_ok; [reflexivity|].
          unfold lift. rewrite dl_ok. reflexivity. }
      replace (Z.pred (Z.of_nat (S (S n)))) with (Z.of_nat (S n)) by lia.
      apply IH; [assumption|lia|lia|lia].
    + erewrite bind_raise; [reflexivity|]. unfold distance_body.
      rewrite (bind_ok _ _ s _ s (position_of_ok _ _ _ _ Hview (conj Hprev Hp))).
      erewrite bind_raise; [reflexivity|]. apply position_of_out, Hge.
Qed.

Lemma distance_out_of_range s wps objs t idx :
  route_view s wps objs -> 0 <= t -> t <= idx -> Py.len wps <= idx ->
  distance wps t idx s = (Raise IndexError, s).
Proof.
  intros Hview Ht Hle Hidx. unfold distance, Py.range.
  erewrite bind_raise; [reflexivity|].
  pose proof (distance_loop_out s wps objs (Z.to_nat (idx - t)) t t 0%R Hview
                Ht ltac:(lia)) as H.
  replace (Z.of_nat (S (Z.to_nat (idx - t)))) with (idx + 1 - t) in H by lia.
  apply H. lia.
Qed.

Lemma resolve_stop_out_of_range s wps objs t :
  state s = 0 -> base_waypoints s = Some wps -> route_view s wps objs ->
  0 <= t -> t <= traffic_waypoint s -> Py.len wps <= traffic_waypoint s ->
  resolve_traffic_lights t s = (Raise IndexError, s).
Proof.
  intros Hst Hbase Hview Ht Hle Hout. unfold resolve_traffic_lights.
  rewrite bind_gets, Hst. simpl. rewrite bind_gets.
  destruct (Z.eqb_spec (traffic_waypoint s) (-1)) as [E|_]; [lia|]. simpl.
  rewrite (bind_ok _ _ s wps s) by (apply attr_ok, Hbase).
  erewrite bind_raise; [reflexivity|].
  apply (distance_out_of_range s wps objs); assumption.
Qed.

(** X3: [distance] does not wrap around the route.  In the Driving state,
    with a pose and a non-empty route, a stop index at or beyond the route
    length makes [distance] raise [IndexError] from any tracked index up to
    it, so the tick raises [IndexError], publishes nothing and leaves the
    node as it was, whether or not a speed has been received. *)
Theorem stop_index_beyond_route (atan2 : R -> R -> R)
    (euler_yaw : Quaternion -> R) (s : WaypointUpdater) (cur : Pose)
    (wps : list loc) (objs : list (Waypoint * Pose)) :
  current_pose s = Some cur -> base_waypoints s = Some wps -> wps <> [] ->
  route_view s wps objs -> state s = 0 ->
  Py.len wps <= traffic_waypoint s ->
  (forall t, 0 <= t <= traffic_waypoint s ->
             distance wps t (traffic_waypoint s) s = (Raise IndexError, s))
  /\ update atan2 euler_yaw s = (Raise IndexError, s).
Proof.
  intros Hcur Hbase Hne Hview Hst Hout. split.
  - intros t [Ht Hle]. apply (distance_out_of_range s wps objs); assumption.
  - rewrite (update_runs _ _ _ _ _ Hcur Hbase).
    destruct (get_closest_waypoint_spec s wps objs cur Hbase Hcur Hview Hne)
      as (c & Hrun & Hc & _).
    rewrite (bind_ok _ _ _ _ _
               (get_next_waypoint_run atan2 euler_yaw s wps objs cur c
                  Hbase Hcur Hview Hc Hrun)).
    erewrite bind_raise; [reflexivity|].
    apply (resolve_stop_out_of_range s wps objs); try assumption;
      unfold Py.len in *; destruct (Rle_dec _ _); lia.
Qed.

Lemma stop_index_beyond_route_witness :
  (forall t, 0 <= t <= 3 ->
             distance [0%nat; 1%nat; 2%nat] t 3
               (traffic_cb 3 sample_no_velocity).2
             = (Raise IndexError, (traffic_cb 3 sample_no_velocity).2))
  /\ update atan2_sample euler_yaw_sample (traffic_cb 3 sample_no_velocity).2
     = (Raise IndexError, (traffic_cb 3 sample_no_velocity).2).
Proof.
  apply (stop_index_beyond_route atan2_sample euler_yaw_sample
           (traffic_cb 3 sample_no_velocity).2 (sample_pose 0)
           [0%nat; 1%nat; 2%nat] sample_objs).
  - reflexivity.
  - reflexivity.
  - discriminate.
  - exact sample_view.
  - reflexivity.
  - unfold Py.len. simpl. lia.
Defined.

(** ** The outcomes of [distance] *)

Lemma distance_empty_range s wps t idx :
  idx < t -> distance wps t idx s = (Ok 0%R, s).
Proof.
  intros H. unfold distance, Py.range.
  rewrite seqZ_nil by lia. reflexivity.
Qed.

Lemma distance_raises_iff s wps objs t idx :
  route_view s wps objs -> 0 <= t ->
  (distance wps t idx s).1 = Raise IndexError
  <-> t <= idx /\ Py.len wps <= idx.
Proof.
  intros Hview Ht. split.
  - intros H. destruct (Z_lt_le_dec idx t) as [Hlt|Hle].
    { rewrite distance_empty_range in H by exact Hlt. discriminate. }
    split; [exact Hle|].
    destruct (Z_lt_le_dec idx (Py.len wps)) as [Hin|Hout]; [|exact Hout].
    rewrite (distance_ok s wps objs) in H by assumption. discriminate.
  - intros [Hle Hout].
    rewrite (distance_out_of_range s wps objs) by assumption. reflexivity.
Qed.

(** X2: what [distance] gives from a tracked index [0 <= t].  It raises
    [IndexError] exactly when the end index is at or after [t] and at or
    beyond the route length: it does not wrap around, and an end index
    before [t] is an empty range, whatever its value.  On an empty range it
    returns 0, like from a waypoint to itself.  Inside the route it returns
    a value that is never negative and that does not decrease when the end
    index moves on.  No call changes the node. *)
Theorem distance_outcomes (s : WaypointUpdater) (wps : list loc)
    (objs : list (Waypoint * Pose)) (t : Z) :
  route_view s wps objs -> 0 <= t ->
  (forall idx, (distance wps t idx s).1 = Raise IndexError
               <-> t <= idx /\ Py.len wps <= idx)
  /\ (forall idx, idx < t \/ (idx = t /\ t < Py.len wps) ->
                  distance wps t idx s = (Ok 0%R, s))
  /\ (forall idx idx', idx <= idx' -> idx' < Py.len wps ->
        exists D D' : R,
          distance wps t idx s = (Ok D, s)
          /\ distance wps t idx' s = (Ok D', s)
          /\ (0 <= D <= D')%R)
  /\ (forall idx, (distance wps t idx s).2 = s).
Proof.
  intros Hview Ht. split; [|split; [|split]].
  - intros idx. apply (distance_raises_iff s wps objs); assumption.
  - intros idx [Hlt|[-> Hin]]; [apply distance_empty_range, Hlt|].
    rewrite (distance_ok s wps objs) by assumption.
    rewrite arc_distance_past by lia. reflexivity.
  - intros idx idx' Hle Hin.
    exists (arc_distance objs t idx), (arc_distance objs t idx').
    split; [apply distance_ok; [assumption|lia|lia]|].
    split; [apply distance_ok; [assumption|lia|lia]|].
    split; [apply arc_distance_nonneg|apply arc_distance_mono, Hle].
  - intros idx. apply reads_only_distance.
Qed.

Lemma distance_outcomes_witness :
  (forall idx, (distance [0%nat; 1%nat; 2%nat] 0 idx sample_node).1
               = Raise IndexError
               <-> 0 <= idx /\ Py.len [0%nat; 1%nat; 2%nat] <= idx)
  /\ (forall idx, idx < 0 \/ (idx = 0 /\ 0 < Py.len [0%nat; 1%nat; 2%nat]) ->
                  distance [0%nat; 1%nat; 2%nat] 0 idx sample_node
                  = (Ok 0%R, sample_node))
  /\ (forall idx idx', idx <= idx' -> idx' < Py.len [0%nat; 1%nat; 2%nat] ->
        exists D D' : R,
          distance [0%nat; 1%nat; 2%nat] 0 idx sample_node = (Ok D, sample_node)
          /\ distance [0%nat; 1%nat; 2%nat] 0 idx' sample_node
             = (Ok D', sample_node)
          /\ (0 <= D <= D')%R)
  /\ (forall idx, (distance [0%nat; 1%nat; 2%nat] 0 idx sample_node).2
                  = sample_node).
Proof.
  apply (distance_outcomes sample_node [0%nat; 1%nat; 2%nat] sample_objs 0).
  - exact sample_view.
  - lia.
Defined.

(** ** What the resolver can do *)

Lemma deceleration_within_limit v lim D :
  lim <> 0%R -> (D > Rabs (v ^ 2 / (2 * lim)))%R ->
  (0 <= Rabs (v ^ 2 / (2 * D)) <= Rabs lim)%R.
Proof.
  intros Hlim HD. split; [apply Rabs_pos|]. apply Rlt_le.
  rewrite (stopping_distance_abs v lim Hlim) in HD.
  assert (Hl : (0 < Rabs lim)%R) by (apply Rabs_pos_lt, Hlim).
  assert (Hv : (0 <= v ^ 2)%R) by apply pow2_ge_0.
  assert (Hm : (0 <= v ^ 2 / (2 * Rabs lim))%R).
  { apply Rmult_le_pos; [exact Hv|]. apply Rlt_le, Rinv_0_lt_compat. lra. }
  assert (HDpos : (0 < D)%R) by lra.
  rewrite Rabs_decel by exact HDpos.
  assert (Hv2 : (v ^ 2 < D * (2 * Rabs lim))%R).
  { apply (Rmult_lt_compat_r (2 * Rabs lim)) in HD; [|lra].
    replace (v ^ 2 / (2 * Rabs lim) * (2 * Rabs lim))%R with (v ^ 2)%R in HD
      by (field; lra).
    exact HD. }
  apply (Rmult_lt_reg_r (2 * D)); [lra|].
  replace (v ^ 2 / (2 * D) * (2 * D))%R with (v ^ 2)%R by (field; lra).
  lra.
Qed.

(** The cases of the resolver. *)
Lemma resolver_outcomes_cases (s : WaypointUpdater) (t : Z) :
  (exists e, resolve_traffic_lights t s = (Raise e, s)
             /\ state s = 0 /\ traffic_waypoint s <> -1)
  \/ resolve_traffic_lights t s = (Ok tt, with_state 0 s)
  \/ (resolve_traffic_lights t s = (Ok tt, s)
      /\ state s <> 0 /\ traffic_waypoint s <> -1)
  \/ (exists a,
        resolve_traffic_lights t s
        = (Ok tt, with_breaking_acceleration (Some a) (with_state 1 s))
        /\ state s = 0 /\ traffic_waypoint s <> -1
        /\ (0 <= a <= Rabs (breaking_acceleration_limit s))%R).
Proof.
  unfold resolve_traffic_lights. rewrite bind_gets.
  destruct (Z.eqb_spec (state s) 0) as [Hst|Hst]; rewrite bind_gets;
    destruct (Z.eqb_spec (traffic_waypoint s) (-1)) as [Htw|Htw]; simpl.
  - right. left. reflexivity.
  - destruct (base_waypoints s) as [wps|] eqn:Hbase.
    2:{ left. exists AttributeError. split; [|split; assumption].
        erewrite bind_raise; [reflexivity|]. unfold attr. rewrite Hbase.
        reflexivity. }
    rewrite (bind_ok _ _ s wps s) by (apply attr_ok, Hbase).
    pose proof (reads_only_distance wps t (traffic_waypoint s) s) as Hd.
    destruct (distance wps t (traffic_waypoint s) s) as [[D|e] s'] eqn:HD;
      simpl in Hd; subst s'.
    2:{ left. exists e. split; [|split; assumption].
        erewrite bind_raise; [reflexivity|exact HD]. }
    rewrite (bind_ok _ _ _ _ _ HD), bind_gets.
    destruct (current_velocity s) as [v|] eqn:Hv.
    2:{ left. exists AttributeError. split; [|split; assumption].
        erewrite bind_raise; [reflexivity|]. unfold decel.
        erewrite bind_raise; [reflexivity|]. unfold attr. rewrite Hv.
        reflexivity. }
    destruct (Req_dec_T (breaking_acceleration_limit s) 0) as [Hl|Hl].
    { left. exists ZeroDivisionError. split; [|split; assumption].
      erewrite bind_raise; [reflexivity|]. unfold decel.
      rewrite (bind_ok _ _ s v s) by (apply attr_ok, Hv).
      erewrite bind_raise; [reflexivity|]. unfold lift, Py.div.
      destruct (Req_dec_T _ 0) as [_|Hn]; [reflexivity|].
      exfalso. apply Hn. rewrite Hl. ring. }
    rewrite (bind_ok _ _ _ _ _ (decel_ok s v _ Hv Hl)).
    destruct (Rgt_dec D _) as [Hgt|Hle].
    + right. right. right.
      pose proof (deceleration_within_limit v _ D Hl Hgt) as Hbound.
      exists (Rabs (v ^ 2 / (2 * D))).
      split; [|split; [|split]]; try assumption.
      rewrite bind_modify.
      assert (HD0 : D <> 0%R).
      { pose proof (Rabs_pos (v ^ 2 / (2 * breaking_acceleration_limit s))).
        lra. }
      rewrite (bind_ok _ _ _ _ _ (decel_ok (with_state 1 s) v D Hv HD0)).
      reflexivity.
    + right. left. reflexivity.
  - right. left. reflexivity.
  - right. right. left. split; [reflexivity|]. split; assumption.
Qed.

(** X4: the resolver is all or nothing.  Whatever the node and the tracked
    index, it either raises and leaves the node as it was (only from
    Driving with a stop signal), or sets the state to Driving, or, in
    Braking with a stop signal, returns without touching the node (the
    recorded deceleration is kept, not recomputed), or moves from Driving to
    Braking recording a deceleration that is non-negative and not above the
    magnitude of the limit.  It never leaves Braking set without a
    deceleration. *)
Theorem resolver_outcomes (s : WaypointUpdater) (t : Z) :
  (exists e, resolve_traffic_lights t s = (Raise e, s)
             /\ state s = 0 /\ traffic_waypoint s <> -1)
  \/ resolve_traffic_lights t s = (Ok tt, with_state 0 s)
  \/ (resolve_traffic_lights t s = (Ok tt, s)
      /\ state s <> 0 /\ traffic_waypoint s <> -1)
  \/ (exists a,
        resolve_traffic_lights t s
        = (Ok tt, with_breaking_acceleration (Some a) (with_state 1 s))
        /\ state s = 0 /\ traffic_waypoint s <> -1
        /\ (0 <= a <= Rabs (breaking_acceleration_limit s))%R).
Proof. apply resolver_outcomes_cases. Qed.

(** ** What the trajectory builder leaves alone *)

Lemma same_control_refl s : same_control s s.
Proof. repeat split. Qed.

Lemma same_control_trans s1 s2 s3 :
  same_control s1 s2 -> same_control s2 s3 -> same_control s1 s3.
Proof.
  unfold same_control. intros (A1 & A2 & A3 & A4 & A5 & A6 & A7)
    (B1 & B2 & B3 & B4 & B5 & B6 & B7).
  repeat split; congruence.
Qed.

Lemma builds_only_reads {A} (m : M A) : reads_only m -> builds_only m.
Proof. intros H s. rewrite H. apply same_control_refl. Qed.

Lemma builds_only_bind {A B} (m : M A) (k : A -> M B) :
  builds_only m -> (forall a, builds_only (k a)) -> builds_only (bind m k).
Proof.
  intros Hm Hk s. unfold bind. specialize (Hm s).
  destruct (m s) as [[a|e] s']; simpl in Hm; [|exact Hm].
  eapply same_control_trans; [exact Hm|apply Hk].
Qed.

Lemma builds_only_for_each {A} (xs : list A) (body : A -> M unit) :
  (forall x, builds_only (body x)) -> builds_only (for_each xs body).
Proof.
  intros Hb. induction xs as [|x xs IH]; cbn [for_each].
  - apply builds_only_reads, reads_only_ret.
  - apply builds_only_bind; [apply Hb|]. intros u. exact IH.
Qed.

Lemma builds_only_new_Waypoint : builds_only new_Waypoint.
Proof. intros s. repeat split. Qed.

Lemma builds_only_set_pose_pose l p : builds_only (set_pose_pose l p).
Proof.
  intros s. unfold set_pose_pose, bind, waypoint_at, modify.
  destruct (waypoint_heap s !! l); repeat split.
Qed.

Lemma builds_only_set_linear_x l v : builds_only (set_linear_x l v).
Proof.
  intros s. unfold set_linear_x, bind, waypoint_at, modify.
  destruct (waypoint_heap s !! l); repeat split.
Qed.

Lemma builds_only_append_final l : builds_only (append_final l).
Proof.
  intros s. unfold append_final, bind, gets.
  destruct (final_waypoints s); repeat split.
Qed.

Lemma builds_only_emit nominal i : builds_only (emit nominal i).
Proof.
  unfold emit.
  apply builds_only_bind; [apply builds_only_reads, reads_only_attr|]. intros wps.
  apply builds_only_bind; [apply builds_only_reads, reads_only_lift|]. intros j.
  apply builds_only_bind; [apply builds_only_new_Waypoint|]. intros tmp.
  apply builds_only_bind; [apply builds_only_reads, reads_only_lift|]. intros b.
  apply builds_only_bind; [apply builds_only_reads, reads_only_waypoint_at|].
  intros bw.
  apply builds_only_bind; [apply builds_only_set_pose_pose|]. intros u.
  apply builds_only_bind; [|intros u'; apply builds_only_append_final].
  destruct nominal; [|apply builds_only_set_linear_x].
  apply builds_only_bind; [apply builds_only_reads, reads_only_lift|]. intros b'.
  apply builds_only_bind; [apply builds_only_reads, reads_only_waypoint_at|].
  intros bw'. apply builds_only_set_linear_x.
Qed.

Lemma builds_only_smooth last wp : builds_only (smooth last wp).
Proof.
  unfold smooth.
  apply builds_only_bind; [apply builds_only_reads, reads_only_waypoint_at|].
  intros w.
  apply builds_only_bind; [apply builds_only_reads, reads_only_pose_at|].
  intros p.
  apply builds_only_bind; [apply builds_only_reads, reads_only_waypoint_at|].
  intros lw.
  apply builds_only_bind; [apply builds_only_reads, reads_only_pose_at|].
  intros lp. cbv zeta.
  apply builds_only_bind; [apply builds_only_reads, reads_only_lift|].
  intros dist.
  apply builds_only_bind; [apply builds_only_reads, reads_only_gets|].
  intros [a|]; [|apply builds_only_reads, reads_only_raise].
  apply builds_only_bind; [apply builds_only_reads, reads_only_lift|].
  intros vel.
  apply builds_only_bind; [apply builds_only_reads, reads_only_waypoint_at|].
  intros w'. apply builds_only_set_linear_x.
Qed.

Lemma builds_only_calculate_final_waypoints t :
  builds_only (calculate_final_waypoints t).
Proof.
  unfold calculate_final_waypoints.
  apply builds_only_bind; [intros s; repeat split|]. intros u.
  apply builds_only_bind; [apply builds_only_reads, reads_only_gets|].
  intros st. destruct (st =? 0).
  { apply builds_only_for_each, builds_only_emit. }
  destruct (st =? 1); [|apply builds_only_reads, reads_only_ret].
  apply builds_only_bind.
  { unfold braking_segments.
    apply builds_only_bind; [apply builds_only_reads, reads_only_gets|].
    intros tw.
    apply builds_only_bind; [apply builds_only_for_each, builds_only_emit|].
    intros u1.
    apply builds_only_bind;
      [apply builds_only_reads, reads_only_the_final_waypoints|]. intros fw.
    apply builds_only_bind; [apply builds_only_reads, reads_only_gets|].
    intros tw'.
    apply builds_only_bind; [apply builds_only_for_each, builds_only_emit|].
    intros u2. apply builds_only_reads, reads_only_ret. }
  intros target_wp. apply builds_only_bind.
  { unfold force_stop.
    apply builds_only_bind;
      [apply builds_only_reads, reads_only_the_final_waypoints|]. intros fw.
    apply builds_only_bind; [apply builds_only_reads, reads_only_lift|].
    intros last.
    apply builds_only_bind; [apply builds_only_set_linear_x|]. intros u1.
    apply builds_only_reads, reads_only_ret. }
  intros last. unfold add_deceleration.
  apply builds_only_bind;
    [apply builds_only_reads, reads_only_the_final_waypoints|]. intros fw.
  apply builds_only_for_each, builds_only_smooth.
Qed.

(** After the resolver, a tick changes only the heaps and the window. *)
Lemma tick_tail_builds_only next_wp :
  builds_only (calculate_final_waypoints next_wp ;;
               msg <- publish_window ;; ret (Some msg)).
Proof.
  apply builds_only_bind; [apply builds_only_calculate_final_waypoints|].
  intros u.
  apply builds_only_bind; [apply builds_only_reads, reads_only_publish_window|].
  intros msg. apply builds_only_reads, reads_only_ret.
Qed.

Lemma braking_record_ok_same_control s s' :
  same_control s s' -> braking_record_ok s -> braking_record_ok s'.
Proof.
  intros (H1 & H2 & H3 & _) [H|(H & a & Ha & Hb)].
  - left. congruence.
  - right. split; [congruence|]. exists a. rewrite H2, H3. auto.
Qed.

(** The resolver keeps the braking record sound and touches nothing but the
    state and the recorded deceleration. *)
Lemma resolve_keeps_record s t :
  braking_record_ok s ->
  braking_record_ok (resolve_traffic_lights t s).2
  /\ untouched s (resolve_traffic_lights t s).2
  /\ current_pose (resolve_traffic_lights t s).2 = current_pose s
  /\ breaking_acceleration_limit (resolve_traffic_lights t s).2
     = breaking_acceleration_limit s.
Proof.
  intros Hok.
  destruct (resolver_outcomes_cases s t)
    as [(e & -> & _)|[->|[(-> & _)|(a & -> & _ & _ & Ha)]]]; simpl.
  - repeat split; auto.
  - repeat split; auto. left. reflexivity.
  - repeat split; auto.
  - repeat split; auto. right. split; [reflexivity|]. exists a. auto.
Qed.

Lemma resolve_braking_pending s t :
  state s <> 0 -> traffic_waypoint s <> -1 ->
  resolve_traffic_lights t s = (Ok tt, s).
Proof.
  intros Hst Htw. unfold resolve_traffic_lights. rewrite bind_gets.
  destruct (Z.eqb_spec (state s) 0) as [|_]; [contradiction|].
  rewrite bind_gets.
  destruct (Z.eqb_spec (traffic_waypoint s) (-1)) as [|_]; [contradiction|].
  reflexivity.
Qed.

(** Where a tick leaves the node: as it was, or as the resolver left it, up
    to the heaps and the window. *)
Lemma update_after_resolver atan2 euler_yaw s :
  same_control s (update atan2 euler_yaw s).2
  \/ exists n, same_control (resolve_traffic_lights n s).2
                 (update atan2 euler_yaw s).2.
Proof.
  unfold update. rewrite !bind_gets.
  destruct (negb _); [left; apply same_control_refl|].
  pose proof (reads_only_get_next_waypoint atan2 euler_yaw s) as Hn.
  destruct (get_next_waypoint atan2 euler_yaw s) as [[n|e] s0] eqn:Hnext;
    simpl in Hn; subst s0.
  2:{ left. rewrite (bind_raise _ _ _ _ _ Hnext). apply same_control_refl. }
  right. exists n. rewrite (bind_ok _ _ _ _ _ Hnext).
  destruct (resolve_traffic_lights n s) as [[u|e] s1] eqn:Hres.
  - rewrite (bind_ok _ _ _ _ _ Hres). apply tick_tail_builds_only.
  - rewrite (bind_raise _ _ _ _ _ Hres). apply same_control_refl.
Qed.

(** X5: the braking record stays sound.  It is sound in the node that
    [__init__] sets up; no callback changes it; and a tick keeps it, whether
    the tick returns, idles or raises: the node is Driving, or Braking with a
    recorded deceleration that is at least 0 and at most |decel_limit|. *)
Theorem braking_record_invariant (atan2 : R -> R -> R)
    (euler_yaw : Quaternion -> R) (s : WaypointUpdater) :
  braking_record_ok s ->
  braking_record_ok (update atan2 euler_yaw s).2
  /\ (forall msg, braking_record_ok (pose_cb msg s).2)
  /\ (forall ws, braking_record_ok (waypoints_cb ws s).2)
  /\ (forall data, braking_record_ok (traffic_cb data s).2)
  /\ (forall v, braking_record_ok (current_velocity_cb v s).2)
  /\ (forall limit, braking_record_ok (init_node limit)).
Proof.
  intros Hok. split.
  - destruct (update_after_resolver atan2 euler_yaw s) as [H|[n H]].
    + apply (braking_record_ok_same_control _ _ H Hok).
    + apply (braking_record_ok_same_control _ _ H).
      apply resolve_keeps_record, Hok.
  - repeat split; intros; try exact Hok. left. reflexivity.
Qed.

Lemma braking_record_invariant_witness :
  braking_record_ok (update atan2_sample euler_yaw_sample sample_braking).2
  /\ (forall msg, braking_record_ok (pose_cb msg sample_braking).2)
  /\ (forall ws, braking_record_ok (waypoints_cb ws sample_braking).2)
  /\ (forall data, braking_record_ok (traffic_cb data sample_braking).2)
  /\ (forall v, braking_record_ok (current_velocity_cb v sample_braking).2)
  /\ (forall limit, braking_record_ok (init_node limit)).
Proof.
  apply (braking_record_invariant atan2_sample euler_yaw_sample sample_braking).
  right. split; [reflexivity|]. exists (5 / 2)%R. split; [reflexivity|].
  simpl. rewrite Rabs_left by lra. lra.
Defined.

(** X6: while Braking with a stop signal pending, a whole tick changes
    nothing but the heaps and the window, whatever its outcome: the resolver
    returns without reading the speed or the route, and the state, the
    recorded deceleration, the stop signal, the pose, the speed and the route
    list are as before. *)
Theorem braking_tick_keeps_control (atan2 : R -> R -> R)
    (euler_yaw : Quaternion -> R) (s : WaypointUpdater) :
  state s = 1 -> traffic_waypoint s <> -1 ->
  (forall t, resolve_traffic_lights t s = (Ok tt, s))
  /\ same_control s (update atan2 euler_yaw s).2.
Proof.
  intros Hst Htw.
  assert (Hres : forall t, resolve_traffic_lights t s = (Ok tt, s))
    by (intros t; apply resolve_braking_pending; [lia|exact Htw]).
  split; [exact Hres|].
  destruct (update_after_resolver atan2 euler_yaw s) as [H|[n H]];
    [exact H|]. rewrite Hres in H. exact H.
Qed.

Lemma braking_tick_keeps_control_witness :
  (forall t, resolve_traffic_lights t sample_braking = (Ok tt, sample_braking))
  /\ same_control sample_braking
       (update atan2_sample euler_yaw_sample sample_braking).2.
Proof.
  apply (braking_tick_keeps_control atan2_sample euler_yaw_sample sample_braking).
  - reflexivity.
  - simpl. lia.
Defined.

(** ** Whole ticks in the Driving state *)

Lemma publish_emitted s wps objs nominal idxs :
  route_view s wps objs -> wps <> [] ->
  publish (seq (length (waypoint_heap s)) (length idxs))
    (emit_all objs nominal idxs s)
  = (Ok ((fun i => (route_pose objs (i mod Py.len objs),
                    if nominal then route_speed objs (i mod Py.len objs)
                    else 0%R)) <$> idxs),
     emit_all objs nominal idxs s).
Proof.
  intros Hview Hne. apply publish_ok.
  apply Forall2_same_length_lookup_2.
  - rewrite length_seq, length_fmap. reflexivity.
  - intros k l e Hl He.
    apply lookup_seq in Hl as [-> Hk].
    rewrite list_lookup_fmap in He.
    destruct (idxs !! k) as [i|] eqn:Hi; [|discriminate].
    injection He as <-.
    apply (entry_emitted _ wps objs nominal i);
      [apply route_view_emit_all, Hview|exact Hne|].
    rewrite emit_all_lookup, Hi. reflexivity.
Qed.

Lemma driving_run s wps objs t :
  state s = 0 -> base_waypoints s = Some wps -> wps <> [] ->
  route_view s wps objs ->
  (calculate_final_waypoints t ;; msg <- publish_window ;; ret (Some msg)) s
  = (Ok (Some (nominal_entry objs <$> Py.range t (t + LOOKAHEAD_WPS))),
     emit_all objs true (Py.range t (t + LOOKAHEAD_WPS))
       (with_final_waypoints (Some []) s)).
Proof.
  intros Hst Hbase Hne Hview.
  set (idxs := Py.range t (t + LOOKAHEAD_WPS)).
  assert (Hn : length idxs = Z.to_nat LOOKAHEAD_WPS).
  { unfold idxs. rewrite Py_range_length. f_equal. lia. }
  set (s0 := with_final_waypoints (Some []) s).
  assert (Hcalc : calculate_final_waypoints t s
                  = (Ok tt, emit_all objs true idxs s0)).
  { unfold calculate_final_waypoints.
    rewrite bind_modify, bind_gets. fold s0.
    change (state s0) with (state s). rewrite Hst. simpl. fold idxs.
    apply (for_each_emit s0 wps objs [] true idxs Hbase Hne Hview).
    reflexivity. }
  rewrite (bind_ok _ _ _ _ _ Hcalc).
  erewrite bind_ok; [reflexivity|].
  unfold publish_window.
  rewrite (bind_ok _ _ _ _ _
             (the_final_waypoints_ok (emit_all objs true idxs s0) _ eq_refl)).
  cbn [final_waypoints s0 with_final_waypoints default].
  rewrite app_nil_l. unfold Py.slice_to.
  rewrite Hn, take_ge by (rewrite length_seq; lia).
  rewrite <- Hn.
  apply (publish_emitted s0 wps objs true idxs Hview Hne).
Qed.

(** The closest index is determined by the route and the pose. *)
Lemma closest_unique objs cur (n c1 c2 : nat) :
  (c1 < n)%nat -> (c2 < n)%nat ->
  (forall i, (i < n)%nat -> (dist_to objs cur c1 <= dist_to objs cur i)%R) ->
  (forall i, (i < c1)%nat -> (dist_to objs cur c1 < dist_to objs cur i)%R) ->
  (forall i, (i < n)%nat -> (dist_to objs cur c2 <= dist_to objs cur i)%R) ->
  (forall i, (i < c2)%nat -> (dist_to objs cur c2 < dist_to objs cur i)%R) ->
  c1 = c2.
Proof.
  intros H1 H2 Hmin1 Hf1 Hmin2 Hf2.
  destruct (lt_eq_lt_dec c1 c2) as [[Hlt|Heq]|Hgt]; [|exact Heq|].
  - specialize (Hf2 c1 Hlt). specialize (Hmin1 c2 H2). lra.
  - specialize (Hf1 c2 Hgt). specialize (Hmin2 c1 H1). lra.
Qed.

(** The locator on a valid node: its result and the bounds of it. *)
Lemma locator_run atan2 euler_yaw s wps objs cur :
  wps <> [] -> base_waypoints s = Some wps -> current_pose s = Some cur ->
  route_view s wps objs ->
  exists c : nat,
    (c < length wps)%nat
    /\ (forall i, (i < length wps)%nat ->
                  (dist_to objs cur c <= dist_to objs cur i)%R)
    /\ (forall i, (i < c)%nat -> (dist_to objs cur c < dist_to objs cur i)%R)
    /\ get_next_waypoint atan2 euler_yaw s
       = (Ok (if Rle_dec (heading_angle atan2 euler_yaw cur
                            (route_point objs (Z.of_nat c))) (PI / 4)
              then Z.of_nat c else Z.of_nat c + 1), s).
Proof.
  intros Hne Hbase Hcur Hview.
  destruct (get_closest_waypoint_spec s wps objs cur Hbase Hcur Hview Hne)
    as (c & Hrun & Hc & Hmin & Hfirst).
  exists c. repeat split; try assumption.
  apply (get_next_waypoint_run atan2 euler_yaw s wps objs cur c); assumption.
Qed.

Lemma tick_without_signal_run atan2 euler_yaw s cur wps objs :
  current_pose s = Some cur -> base_waypoints s = Some wps -> wps <> [] ->
  route_view s wps objs -> traffic_waypoint s = -1 ->
  exists n,
    get_next_waypoint atan2 euler_yaw s = (Ok n, s)
    /\ 0 <= n <= Py.len wps
    /\ update atan2 euler_yaw s
       = (Ok (Some (nominal_entry objs <$> Py.range n (n + LOOKAHEAD_WPS))),
          emit_all objs true (Py.range n (n + LOOKAHEAD_WPS))
            (with_final_waypoints (Some []) (with_state 0 s))).
Proof.
  intros Hcur Hbase Hne Hview Htw.
  destruct (locator_run atan2 euler_yaw s wps objs cur Hne Hbase Hcur Hview)
    as (c & Hc & _ & _ & Hnext).
  set (n := if Rle_dec _ _ then _ else _) in Hnext.
  exists n. split; [exact Hnext|]. split.
  { unfold n, Py.len. destruct (Rle_dec _ _); lia. }
  rewrite (update_runs _ _ _ _ _ Hcur Hbase).
  rewrite (bind_ok _ _ _ _ _ Hnext).
  rewrite (bind_ok _ _ _ _ _ (resolve_no_signal s n Htw)).
  apply (driving_run (with_state 0 s) wps objs n); try assumption.
  reflexivity.
Qed.

(** X7: without a stop signal, a tick of a node that has a pose and a
    non-empty route runs the whole pipeline and publishes, from any motion
    state and without needing a speed message: the published list has
    exactly LOOKAHEAD_WPS entries, entry [k] being the pose and the nominal
    speed of route entry [(n + k) mod N], where [n], between 0 and N, is the
    index the locator returns; the node ends Driving with its route intact,
    so the next tick can run. *)
Theorem tick_publishes_without_signal (atan2 : R -> R -> R)
    (euler_yaw : Quaternion -> R) (s : WaypointUpdater) (cur : Pose)
    (wps : list loc) (objs : list (Waypoint * Pose)) :
  current_pose s = Some cur -> base_waypoints s = Some wps -> wps <> [] ->
  route_view s wps objs -> traffic_waypoint s = -1 ->
  exists n msg s',
    get_next_waypoint atan2 euler_yaw s = (Ok n, s)
    /\ 0 <= n <= Py.len wps
    /\ update atan2 euler_yaw s = (Ok (Some msg), s')
    /\ length msg = Z.to_nat LOOKAHEAD_WPS
    /\ (forall k : nat,
          (k < Z.to_nat LOOKAHEAD_WPS)%nat ->
          msg !! k
          = Some (route_pose objs ((n + Z.of_nat k) mod Py.len wps),
                  route_speed objs ((n + Z.of_nat k) mod Py.len wps)))
    /\ state s' = 0
    /\ base_waypoints s' = Some wps
    /\ route_view s' wps objs.
Proof.
  intros Hcur Hbase Hne Hview Htw.
  destruct (tick_without_signal_run atan2 euler_yaw s cur wps objs
              Hcur Hbase Hne Hview Htw) as (n & Hnext & Hn & Hrun).
  eexists n, _, _. split; [exact Hnext|]. split; [exact Hn|].
  split; [exact Hrun|]. split; [|split; [|split; [|split]]].
  - rewrite length_fmap, Py_range_length. f_equal. lia.
  - intros k Hk. rewrite list_lookup_fmap, Py_range_lookup by lia.
    unfold nominal_entry, Py.len.
    rewrite (route_view_length _ _ _ Hview). reflexivity.
  - reflexivity.
  - exact Hbase.
  - apply route_view_emit_all. exact Hview.
Qed.

Lemma tick_publishes_without_signal_witness :
  exists n msg s',
    get_next_waypoint atan2_sample euler_yaw_sample sample_started
    = (Ok n, sample_started)
    /\ 0 <= n <= 3
    /\ update atan2_sample euler_yaw_sample sample_started = (Ok (Some msg), s')
    /\ length msg = Z.to_nat LOOKAHEAD_WPS
    /\ (forall k : nat,
          (k < Z.to_nat LOOKAHEAD_WPS)%nat ->
          msg !! k
          = Some (route_pose sample_objs ((n + Z.of_nat k) mod 3),
                  route_speed sample_objs ((n + Z.of_nat k) mod 3)))
    /\ state s' = 0
    /\ base_waypoints s' = Some [0%nat; 1%nat; 2%nat]
    /\ route_view s' [0%nat; 1%nat; 2%nat] sample_objs.
Proof.
  apply (tick_publishes_without_signal atan2_sample euler_yaw_sample
           sample_started (sample_pose 0) [0%nat; 1%nat; 2%nat] sample_objs).
  - reflexivity.
  - reflexivity.
  - discriminate.
  - repeat constructor.
  - reflexivity.
Defined.

(** X8: with no new message in between, two ticks in a row publish the same
    list: the second tick finds the route untouched by the first, the
    locator returns the same index, and the window is rebuilt from the
    route. *)
Theorem tick_repeats_without_signal (atan2 : R -> R -> R)
    (euler_yaw : Quaternion -> R) (s : WaypointUpdater) (cur : Pose)
    (wps : list loc) (objs : list (Waypoint * Pose)) :
  current_pose s = Some cur -> base_waypoints s = Some wps -> wps <> [] ->
  route_view s wps objs -> traffic_waypoint s = -1 ->
  exists msg s1 s2,
    update atan2 euler_yaw s = (Ok (Some msg), s1)
    /\ update atan2 euler_yaw s1 = (Ok (Some msg), s2).
Proof.
  intros Hcur Hbase Hne Hview Htw.
  destruct (tick_without_signal_run atan2 euler_yaw s cur wps objs
              Hcur Hbase Hne Hview Htw) as (n & Hnext & Hn & Hrun).
  set (s1 := emit_all objs true (Py.range n (n + LOOKAHEAD_WPS))
               (with_final_waypoints (Some []) (with_state 0 s))) in *.
  assert (Hview1 : route_view s1 wps objs)
    by (apply route_view_emit_all; exact Hview).
  destruct (tick_without_signal_run atan2 euler_yaw s1 cur wps objs
              Hcur Hbase Hne Hview1 Htw) as (n' & Hnext' & Hn' & Hrun').
  assert (n' = n).
  { destruct (locator_run atan2 euler_yaw s wps objs cur Hne Hbase Hcur Hview)
      as (c & Hc & Hmin & Hfirst & Hc_run).
    destruct (locator_run atan2 euler_yaw s1 wps objs cur Hne Hbase Hcur Hview1)
      as (c' & Hc' & Hmin' & Hfirst' & Hc_run').
    assert (c' = c)
      by (apply (closest_unique objs cur (length wps)); assumption).
    subst c'. rewrite Hc_run in Hnext. rewrite Hc_run' in Hnext'.
    congruence. }
  subst n'. eexists _, s1, _. split; [exact Hrun|exact Hrun'].
Qed.

Lemma tick_repeats_without_signal_witness :
  exists msg s1 s2,
    update atan2_sample euler_yaw_sample sample_started = (Ok (Some msg), s1)
    /\ update atan2_sample euler_yaw_sample s1 = (Ok (Some msg), s2).
Proof.
  apply (tick_repeats_without_signal atan2_sample euler_yaw_sample
           sample_started (sample_pose 0) [0%nat; 1%nat; 2%nat] sample_objs).
  - reflexivity.
  - reflexivity.
  - discriminate.
  - repeat constructor.
  - reflexivity.
Defined.

(** ** Whole windows in the Braking state *)

Lemma braking_entries_length objs a t S :
  (Z.to_nat LOOKAHEAD_WPS <= length (braking_entries objs a t S))%nat.
Proof.
  unfold braking_entries.
  rewrite length_app, !length_fmap, cruise_idxs_length, stop_idxs_length_eq.
  unfold LOOKAHEAD_WPS. lia.
Qed.

Lemma braking_publish_run s wps objs t S a :
  state s = 1 -> traffic_waypoint s = S ->
  base_waypoints s = Some wps -> wps <> [] -> route_view s wps objs ->
  breaking_acceleration s = Some a -> (0 <= a)%R ->
  exists s',
    (calculate_final_waypoints t ;; publish_window) s
    = (Ok (take (Z.to_nat LOOKAHEAD_WPS) (braking_entries objs a t S)), s').
Proof.
  intros Hst Htw Hbase Hne Hview Hacc Hpos.
  destruct (braking_run s wps objs t S a Hst Htw Hbase Hne Hview Hacc Hpos)
    as (h' & Hrun & Hstop & Hcruise).
  set (sF := with_waypoint_heap h' (after_segments objs t S s)) in *.
  pose proof (route_len_objs s wps objs Hview) as Hobjs.
  assert (Hfw : final_waypoints sF
                = Some (seq (length (waypoint_heap s)) (length (cruise_idxs t S))
                        ++ seq (length (waypoint_heap s)
                                + length (cruise_idxs t S))
                             (length (stop_idxs t S))))
    by apply after_segments_final.
  exists sF. rewrite (bind_ok _ _ _ _ _ Hrun). unfold publish_window.
  rewrite (bind_ok _ _ _ _ _ (the_final_waypoints_ok sF _ Hfw)).
  unfold Py.slice_to. apply publish_ok. apply Forall2_take.
  apply Forall2_same_length_lookup_2.
  - unfold braking_entries. rewrite !length_app, !length_seq, !length_fmap.
    reflexivity.
  - intros k l e Hl He.
    assert (Hwin : window_entry sF k = entry_at sF l).
    { unfold window_entry. rewrite Hfw. cbn [mbind option_bind].
      rewrite Hl. reflexivity. }
    rewrite <- Hwin. unfold braking_entries in He.
    destruct (le_lt_dec (length (cruise_idxs t S)) k) as [Hge|Hlt].
    + rewrite lookup_app_r in He by (rewrite length_fmap; exact Hge).
      rewrite length_fmap, list_lookup_fmap in He.
      destruct (stop_idxs t S !! (k - length (cruise_idxs t S))%nat)
        as [i|] eqn:Hi; [|discriminate].
      injection He as <-.
      replace k with (length (cruise_idxs t S)
                      + (k - length (cruise_idxs t S)))%nat at 1 by lia.
      unfold stop_entry. rewrite Hobjs.
      apply (window_stop s wps objs t S h' _ i Hne Hview Hi). apply Hstop.
    + rewrite lookup_app_l in He by (rewrite length_fmap; exact Hlt).
      rewrite list_lookup_fmap in He.
      destruct (cruise_idxs t S !! k) as [i|] eqn:Hi; [|discriminate].
      injection He as <-.
      unfold cruise_entry. cbv zeta. rewrite Hobjs.
      apply (window_cruise s wps objs t S a h' k i Hne Hview Hi).
      apply Hcruise, Hi.
Qed.

(** X9: in the Braking state the tick publishes exactly LOOKAHEAD_WPS
    entries.  Entry [k] with [k < S - t] is a cruise entry: the pose of route
    entry [(t + k) mod N] and the smaller of the candidate speed and the
    nominal speed.  Every later entry [k] is a stop entry: the pose of route
    entry [(S + k - max(0, S - t)) mod N] with speed 0.  So when the stop
    index is at or behind the tracked index, all entries have speed 0 and
    the list starts at the stop index, not at the tracked one. *)
Theorem braking_published_window (s : WaypointUpdater) (wps : list loc)
    (objs : list (Waypoint * Pose)) (t S : Z) (A : R) :
  state s = 1 -> traffic_waypoint s = S ->
  base_waypoints s = Some wps -> wps <> [] -> route_view s wps objs ->
  breaking_acceleration s = Some A -> (0 <= A)%R ->
  exists msg s',
    (calculate_final_waypoints t ;; publish_window) s = (Ok msg, s')
    /\ length msg = Z.to_nat LOOKAHEAD_WPS
    /\ (forall k : nat,
          (k < Z.to_nat LOOKAHEAD_WPS)%nat -> Z.of_nat k < S - t ->
          msg !! k = Some (cruise_entry objs A S (t + Z.of_nat k)))
    /\ (forall k : nat,
          (k < Z.to_nat LOOKAHEAD_WPS)%nat -> S - t <= Z.of_nat k ->
          msg !! k
          = Some (route_pose objs
                    ((S + Z.of_nat k - Z.max 0 (S - t)) mod Py.len wps),
                  0%R))
    /\ (S <= t ->
        forall k : nat,
          (k < Z.to_nat LOOKAHEAD_WPS)%nat ->
          msg !! k
          = Some (route_pose objs ((S + Z.of_nat k) mod Py.len wps), 0%R)).
Proof.
  intros Hst Htw Hbase Hne Hview Hacc Hpos.
  destruct (braking_publish_run s wps objs t S A Hst Htw Hbase Hne Hview
              Hacc Hpos) as (s' & Hrun).
  pose proof (route_len_objs s wps objs Hview) as Hobjs.
  pose proof (braking_entries_length objs A t S) as Hlen.
  assert (Hstopk : forall k : nat,
            (k < Z.to_nat LOOKAHEAD_WPS)%nat -> S - t <= Z.of_nat k ->
            take (Z.to_nat LOOKAHEAD_WPS) (braking_entries objs A t S) !! k
            = Some (route_pose objs
                      ((S + Z.of_nat k - Z.max 0 (S - t)) mod Py.len wps),
                    0%R)).
  { intros k Hk Hge. rewrite lookup_take_lt by exact Hk.
    unfold braking_entries.
    rewrite lookup_app_r
      by (rewrite length_fmap, cruise_idxs_length; lia).
    rewrite length_fmap, cruise_idxs_length, list_lookup_fmap.
    unfold stop_idxs.
    rewrite Py_range_lookup by (unfold LOOKAHEAD_WPS in *; lia).
    cbn [fmap option_fmap option_map]. unfold stop_entry. rewrite Hobjs.
    replace (S + Z.of_nat (k - Z.to_nat (S - t)))
      with (S + Z.of_nat k - Z.max 0 (S - t)) by lia.
    reflexivity. }
  eexists _, s'. split; [exact Hrun|]. split; [|split; [|split]].
  - rewrite length_take. lia.
  - intros k Hk Hlt. rewrite lookup_take_lt by exact Hk.
    unfold braking_entries.
    rewrite lookup_app_l by (rewrite length_fmap, cruise_idxs_length; lia).
    rewrite list_lookup_fmap. unfold cruise_idxs.
    rewrite Py_range_lookup by lia. reflexivity.
  - exact Hstopk.
  - intros HSt k Hk. rewrite (Hstopk k Hk) by lia.
    replace (S + Z.of_nat k - Z.max 0 (S - t)) with (S + Z.of_nat k) by lia.
    reflexivity.
Qed.

Lemma braking_published_window_witness :
  exists msg s',
    (calculate_final_waypoints 0 ;; publish_window) sample_braking = (Ok msg, s')
    /\ length msg = Z.to_nat LOOKAHEAD_WPS
    /\ (forall k : nat,
          (k < Z.to_nat LOOKAHEAD_WPS)%nat -> Z.of_nat k < 2 - 0 ->
          msg !! k = Some (cruise_entry sample_objs (5 / 2) 2 (0 + Z.of_nat k)))
    /\ (forall k : nat,
          (k < Z.to_nat LOOKAHEAD_WPS)%nat -> 2 - 0 <= Z.of_nat k ->
          msg !! k
          = Some (route_pose sample_objs
                    ((2 + Z.of_nat k - Z.max 0 (2 - 0)) mod 3),
                  0%R))
    /\ (2 <= 0 ->
        forall k : nat,
          (k < Z.to_nat LOOKAHEAD_WPS)%nat ->
          msg !! k
          = Some (route_pose sample_objs ((2 + Z.of_nat k) mod 3), 0%R)).
Proof.
  apply (braking_published_window sample_braking [0%nat; 1%nat; 2%nat]
           sample_objs 0 2 (5 / 2)).
  - reflexivity.
  - reflexivity.
  - reflexivity.
  - discriminate.
  - exact sample_view.
  - reflexivity.
  - lra.
Defined.

(** ** The speed profile of the cruise zone *)

Lemma candidate_speed_nonneg a d : (0 <= candidate_speed a d)%R.
Proof.
  unfold candidate_speed. destruct (Rlt_dec _ 1); [lra|apply sqrt_pos].
Qed.

Lemma candidate_speed_near a d : (d <= 5)%R -> candidate_speed a d = 0%R.
Proof.
  intros H. unfold candidate_speed. rewrite Rmax_left by lra.
  rewrite Rmult_0_r, sqrt_0. destruct (Rlt_dec 0 1); [reflexivity|lra].
Qed.

Lemma candidate_speed_gap a d :
  candidate_speed a d = 0%R \/ (1 <= candidate_speed a d)%R.
Proof.
  unfold candidate_speed. destruct (Rlt_dec _ 1); [left; reflexivity|right; lra].
Qed.

Lemma candidate_speed_below_root a d :
  (candidate_speed a d <= R_sqrt.sqrt (2 * a * Rmax 0 (d - 5)))%R.
Proof.
  unfold candidate_speed. destruct (Rlt_dec _ 1); [apply sqrt_pos|lra].
Qed.

Lemma candidate_speed_mono a d1 d2 :
  (0 <= a)%R -> (d1 <= d2)%R ->
  (candidate_speed a d1 <= candidate_speed a d2)%R.
Proof.
  intros Ha Hd.
  assert (Hroot : (R_sqrt.sqrt (2 * a * Rmax 0 (d1 - 5))
                   <= R_sqrt.sqrt (2 * a * Rmax 0 (d2 - 5)))%R).
  { pose proof (Rmax_l 0 (d1 - 5)). pose proof (Rmax_l 0 (d2 - 5)).
    assert ((Rmax 0 (d1 - 5) <= Rmax 0 (d2 - 5))%R)
      by (apply Rle_max_compat_l; lra).
    apply sqrt_le_1; [apply Rmult_le_pos; lra|apply Rmult_le_pos; lra|].
    apply Rmult_le_compat_l; lra. }
  unfold candidate_speed.
  destruct (Rlt_dec _ 1), (Rlt_dec _ 1); lra.
Qed.

Lemma route_speed_nonneg objs j :
  Forall (fun o : Waypoint * Pose => (0 <= wp_linear_x o.1)%R) objs ->
  (0 <= route_speed objs j)%R.
Proof.
  intros H. unfold route_speed.
  destruct (objs !! Z.to_nat j) as [o|] eqn:Ho; simpl; [|lra].
  rewrite Forall_forall in H. apply H. eapply list_elem_of_lookup_2, Ho.
Qed.

(** X10: the speeds of the published cruise entries.  When the route's
    nominal speeds are non-negative, each cruise entry has a speed
    between 0 and its nominal speed; it is 0 within 5 units (straight line)
    of the stop entry; it is the nominal speed, or 0, or at least 1 (nothing
    strictly between 0 and 1 is left by the snap, unless the nominal speed
    itself is); and of two cruise entries, the one that is no farther from
    the stop entry and has no larger nominal speed has no larger speed. *)
Theorem cruise_speed_profile (s : WaypointUpdater) (wps : list loc)
    (objs : list (Waypoint * Pose)) (t S : Z) (A : R) :
  state s = 1 -> traffic_waypoint s = S ->
  base_waypoints s = Some wps -> wps <> [] -> route_view s wps objs ->
  breaking_acceleration s = Some A -> (0 <= A)%R ->
  Forall (fun o : Waypoint * Pose => (0 <= wp_linear_x o.1)%R) objs ->
  exists msg s',
    (calculate_final_waypoints t ;; publish_window) s = (Ok msg, s')
    /\ forall k : nat,
         (k < Z.to_nat LOOKAHEAD_WPS)%nat -> Z.of_nat k < S - t ->
         let i := t + Z.of_nat k in
         let nominal := route_speed objs (i mod Py.len wps) in
         exists v,
           msg !! k = Some (route_pose objs (i mod Py.len wps), v)
           /\ (0 <= v <= nominal)%R
           /\ ((stop_distance objs S i <= 5)%R -> v = 0%R)
           /\ (v = nominal \/ v = 0%R \/ (1 <= v)%R)
           /\ (forall (k' : nat) v',
                 (k' < Z.to_nat LOOKAHEAD_WPS)%nat -> Z.of_nat k' < S - t ->
                 msg !! k'
                 = Some (route_pose objs ((t + Z.of_nat k') mod Py.len wps), v') ->
                 (stop_distance objs S i
                  <= stop_distance objs S (t + Z.of_nat k'))%R ->
                 (nominal
                  <= route_speed objs ((t + Z.of_nat k') mod Py.len wps))%R ->
                 (v <= v')%R).
Proof.
  intros Hst Htw Hbase Hne Hview Hacc Hpos Hnom.
  destruct (braking_publish_run s wps objs t S A Hst Htw Hbase Hne Hview
              Hacc Hpos) as (s' & Hrun).
  pose proof (route_len_objs s wps objs Hview) as Hobjs.
  assert (Hentry : forall k : nat,
            (k < Z.to_nat LOOKAHEAD_WPS)%nat -> Z.of_nat k < S - t ->
            take (Z.to_nat LOOKAHEAD_WPS) (braking_entries objs A t S) !! k
            = Some (route_pose objs ((t + Z.of_nat k) mod Py.len wps),
                    Rmin (candidate_speed A
                            (stop_distance objs S (t + Z.of_nat k)))
                         (route_speed objs ((t + Z.of_nat k) mod Py.len wps)))).
  { intros k Hk Hlt. rewrite lookup_take_lt by exact Hk.
    unfold braking_entries.
    rewrite lookup_app_l by (rewrite length_fmap, cruise_idxs_length; lia).
    rewrite list_lookup_fmap. unfold cruise_idxs.
    rewrite Py_range_lookup by lia.
    cbn [fmap option_fmap option_map].
    unfold cruise_entry, stop_distance. cbv zeta. rewrite Hobjs.
    reflexivity. }
  eexists _, s'. split; [exact Hrun|].
  intros k Hk Hlt i nominal.
  pose proof (candidate_speed_nonneg A (stop_distance objs S i)) as Hc0.
  pose proof (route_speed_nonneg objs (i mod Py.len wps) Hnom) as Hn0.
  fold nominal in Hn0.
  eexists. split; [apply (Hentry k Hk Hlt)|]. fold i. fold nominal.
  split; [|split; [|split]].
  - split; [apply Rmin_glb; assumption|apply Rmin_r].
  - intros Hnear. rewrite candidate_speed_near by exact Hnear.
    apply Rmin_left, Hn0.
  - destruct (Rle_dec (candidate_speed A (stop_distance objs S i)) nominal)
      as [Hle|Hgt].
    + rewrite Rmin_left by exact Hle.
      destruct (candidate_speed_gap A (stop_distance objs S i)) as [->|H1];
        auto.
    + left. apply Rmin_right. lra.
  - intros k' v' Hk' Hlt' Hmsg Hd Hn.
    rewrite (Hentry k' Hk' Hlt') in Hmsg. injection Hmsg as <-.
    pose proof (candidate_speed_mono A _ _ Hpos Hd) as Hmono.
    apply Rmin_glb.
    + eapply Rle_trans; [apply Rmin_l|exact Hmono].
    + eapply Rle_trans; [apply Rmin_r|exact Hn].
Qed.

Lemma cruise_speed_profile_witness :
  exists msg s',
    (calculate_final_waypoints 0 ;; publish_window) sample_braking = (Ok msg, s')
    /\ forall k : nat,
         (k < Z.to_nat LOOKAHEAD_WPS)%nat -> Z.of_nat k < 2 - 0 ->
         let i := 0 + Z.of_nat k in
         let nominal := route_speed sample_objs (i mod 3) in
         exists v,
           msg !! k = Some (route_pose sample_objs (i mod 3), v)
           /\ (0 <= v <= nominal)%R
           /\ ((stop_distance sample_objs 2 i <= 5)%R -> v = 0%R)
           /\ (v = nominal \/ v = 0%R \/ (1 <= v)%R)
           /\ (forall (k' : nat) v',
                 (k' < Z.to_nat LOOKAHEAD_WPS)%nat -> Z.of_nat k' < 2 - 0 ->
                 msg !! k'
                 = Some (route_pose sample_objs ((0 + Z.of_nat k') mod 3), v') ->
                 (stop_distance sample_objs 2 i
                  <= stop_distance sample_objs 2 (0 + Z.of_nat k'))%R ->
                 (nominal <= route_speed sample_objs ((0 + Z.of_nat k') mod 3))%R ->
                 (v <= v')%R).
Proof.
  apply (cruise_speed_profile sample_braking [0%nat; 1%nat; 2%nat]
           sample_objs 0 2 (5 / 2)).
  - reflexivity.
  - reflexivity.
  - reflexivity.
  - discriminate.
  - exact sample_view.
  - reflexivity.
  - lra.
  - repeat constructor; simpl; lra.
Defined.

(** ** The tick that starts braking *)

Lemma mod_small_route (i n : Z) : 0 <= i < n -> i mod n = i.
Proof. intros H. apply Z.mod_small, H. Qed.

(** X11: the tick that starts braking does not ask for more than the
    current speed.  When the resolver, Driving with a stop index inside the
    route, finds the stop farther than the minimum stopping distance, it
    moves to Braking, and in the window built in the same tick every cruise
    entry has a target speed of at most the magnitude of the current
    speed: the straight-line distance to the stop entry is at most the arc
    distance the deceleration was computed from. *)
Theorem braking_starts_below_current_speed (s : WaypointUpdater)
    (wps : list loc) (objs : list (Waypoint * Pose)) (t idx : Z) (v : R) :
  state s = 0 -> traffic_waypoint s = idx -> idx <> -1 ->
  base_waypoints s = Some wps -> wps <> [] -> route_view s wps objs ->
  0 <= t -> idx < Py.len wps ->
  current_velocity s = Some v -> breaking_acceleration_limit s <> 0%R ->
  (arc_distance objs t idx
   > v ^ 2 / (2 * Rabs (breaking_acceleration_limit s)))%R ->
  exists s',
    (resolve_traffic_lights t ;; calculate_final_waypoints t) s = (Ok tt, s')
    /\ state s' = 1
    /\ forall k : nat,
         Z.of_nat k < idx - t ->
         exists p speed,
           window_entry s' k = Some (p, speed) /\ (speed <= Rabs v)%R.
Proof.
  intros Hst Htw Hidx Hbase Hne Hview Ht Hlt Hv Hlim HD. subst idx.
  set (D := arc_distance objs t (traffic_waypoint s)) in *.
  pose proof (resolve_driving_signal s wps objs t v Hst Hidx Hbase Hview
                Ht Hlt Hv Hlim) as Hres.
  cbv zeta in Hres. fold D in Hres.
  rewrite (stopping_distance_abs _ _ Hlim) in Hres.
  destruct (Rgt_dec D _) as [_|Hn]; [|contradiction].
  assert (HM : (0 <= v ^ 2 / (2 * Rabs (breaking_acceleration_limit s)))%R).
  { rewrite <- (stopping_distance_abs _ _ Hlim). apply Rabs_pos. }
  assert (HDpos : (0 < D)%R) by lra.
  rewrite Rabs_decel in Hres by exact HDpos.
  set (a := (v ^ 2 / (2 * D))%R) in *.
  assert (Ha : (0 <= a)%R).
  { unfold a. rewrite <- Rabs_decel by exact HDpos. apply Rabs_pos. }
  set (s1 := with_breaking_acceleration (Some a) (with_state 1 s)) in *.
  destruct (braking_run s1 wps objs t (traffic_waypoint s) a
              eq_refl eq_refl Hbase Hne Hview eq_refl Ha)
    as (h' & Hrun & _ & Hcruise).
  exists (with_waypoint_heap h' (after_segments objs t (traffic_waypoint s) s1)).
  split; [rewrite (bind_ok _ _ _ _ _ Hres); exact Hrun|].
  split; [reflexivity|].
  intros k Hk.
  assert (Hi : cruise_idxs t (traffic_waypoint s) !! k = Some (t + Z.of_nat k))
    by (apply Py_range_lookup; lia).
  eexists _, _. split.
  { apply (window_cruise s1 wps objs t (traffic_waypoint s) a h' k _
             Hne Hview Hi). apply Hcruise, Hi. }
  rewrite !mod_small_route by lia.
  set (i := t + Z.of_nat k).
  set (dist := euclid _ _).
  assert (Hdist : (dist <= D)%R).
  { unfold dist. fold (route_point objs i).
    fold (route_point objs (traffic_waypoint s)).
    eapply Rle_trans; [apply arc_distance_chord; unfold i; lia|].
    unfold D. rewrite (arc_distance_split objs t i (traffic_waypoint s))
      by (unfold i; lia).
    pose proof (arc_distance_nonneg objs t i). lra. }
  eapply Rle_trans; [apply Rmin_l|].
  eapply Rle_trans; [apply candidate_speed_below_root|].
  rewrite <- sqrt_Rsqr_abs. apply sqrt_le_1.
  - pose proof (Rmax_l 0 (dist - 5)). apply Rmult_le_pos; lra.
  - apply Rle_0_sqr.
  - assert (Hmax : (Rmax 0 (dist - 5) <= D)%R) by (apply Rmax_lub; lra).
    replace (Rsqr v) with (2 * a * D)%R
      by (unfold a, Rsqr; field; lra).
    apply Rmult_le_compat_l; lra.
Qed.

Lemma braking_starts_below_current_speed_witness :
  exists s',
    (resolve_traffic_lights 0 ;; calculate_final_waypoints 0) sample_node
    = (Ok tt, s')
    /\ state s' = 1
    /\ forall k : nat,
         Z.of_nat k < 2 - 0 ->
         exists p speed,
           window_entry s' k = Some (p, speed) /\ (speed <= Rabs 10)%R.
Proof.
  apply (braking_starts_below_current_speed sample_node [0%nat; 1%nat; 2%nat]
           sample_objs 0 2 10).
  - reflexivity.
  - reflexivity.
  - lia.
  - reflexivity.
  - discriminate.
  - exact sample_view.
  - lia.
  - unfold Py.len. simpl. lia.
  - reflexivity.
  - simpl. lra.
  - rewrite sample_arc_distance.
    change (breaking_acceleration_limit sample_node) with (-5)%R.
    rewrite Rabs_left by lra.
    replace (10 ^ 2 / (2 * - (-5)))%R with 10%R by field. lra.
Defined.

(** ** Whole ticks in the Braking state *)

(** X13: while Braking with a stop signal pending, a tick of a node that has
    a pose, a non-empty route and a recorded non-negative deceleration never
    raises, whatever the stop index (inside the route or not) and with or
    without a speed: it publishes exactly LOOKAHEAD_WPS entries, the first
    of the Braking-case window built from the index [n] the locator
    returns, and stays Braking with the same deceleration. *)
Theorem braking_tick_publishes (atan2 : R -> R -> R)
    (euler_yaw : Quaternion -> R) (s : WaypointUpdater) (cur : Pose)
    (wps : list loc) (objs : list (Waypoint * Pose)) (A : R) :
  current_pose s = Some cur -> base_waypoints s = Some wps -> wps <> [] ->
  route_view s wps objs ->
  state s = 1 -> traffic_waypoint s <> -1 ->
  breaking_acceleration s = Some A -> (0 <= A)%R ->
  exists n msg s',
    get_next_waypoint atan2 euler_yaw s = (Ok n, s)
    /\ update atan2 euler_yaw s = (Ok (Some msg), s')
    /\ msg = take (Z.to_nat LOOKAHEAD_WPS)
               (braking_entries objs A n (traffic_waypoint s))
    /\ length msg = Z.to_nat LOOKAHEAD_WPS
    /\ state s' = 1
    /\ breaking_acceleration s' = Some A.
Proof.
  intros Hcur Hbase Hne Hview Hst Htw Hacc Hpos.
  destruct (locator_run atan2 euler_yaw s wps objs cur Hne Hbase Hcur Hview)
    as (c & _ & _ & _ & Hnext).
  set (n := if Rle_dec _ _ then _ else _) in Hnext.
  destruct (braking_publish_run s wps objs n (traffic_waypoint s) A Hst eq_refl
              Hbase Hne Hview Hacc Hpos) as (s' & Hrun).
  assert (Hupd : update atan2 euler_yaw s
                 = (Ok (Some (take (Z.to_nat LOOKAHEAD_WPS)
                                (braking_entries objs A n (traffic_waypoint s)))),
                    s')).
  { rewrite (update_runs _ _ _ _ _ Hcur Hbase).
    rewrite (bind_ok _ _ _ _ _ Hnext).
    rewrite (bind_ok _ _ _ _ _
               (resolve_braking_pending s n ltac:(lia) Htw)).
    unfold bind at 1. unfold bind at 1 in Hrun.
    destruct (calculate_final_waypoints n s) as [[u|e] s1]; [|discriminate].
    unfold bind. rewrite Hrun. reflexivity. }
  pose proof (update_after_resolver atan2 euler_yaw s) as Hctl.
  assert (Hsame : same_control s s').
  { destruct Hctl as [H|[n' H]].
    - rewrite Hupd in H. exact H.
    - rewrite (resolve_braking_pending s n' ltac:(lia) Htw), Hupd in H.
      exact H. }
  destruct Hsame as (H1 & H2 & _).
  eexists n, _, s'. split; [exact Hnext|]. split; [exact Hupd|].
  split; [reflexivity|]. split; [|split; congruence].
  rewrite length_take. pose proof (braking_entries_length objs A n
                                     (traffic_waypoint s)). lia.
Qed.

Lemma braking_tick_publishes_witness :
  exists n msg s',
    get_next_waypoint atan2_sample euler_yaw_sample sample_braking
    = (Ok n, sample_braking)
    /\ update atan2_sample euler_yaw_sample sample_braking = (Ok (Some msg), s')
    /\ msg = take (Z.to_nat LOOKAHEAD_WPS)
               (braking_entries sample_objs (5 / 2) n
                  (traffic_waypoint sample_braking))
    /\ length msg = Z.to_nat LOOKAHEAD_WPS
    /\ state s' = 1
    /\ breaking_acceleration s' = Some (5 / 2)%R.
Proof.
  apply (braking_tick_publishes atan2_sample euler_yaw_sample sample_braking
           (sample_pose 0) [0%nat; 1%nat; 2%nat] sample_objs (5 / 2)).
  - reflexivity.
  - reflexivity.
  - discriminate.
  - exact sample_view.
  - reflexivity.
  - simpl. lia.
  - reflexivity.
  - lra.
Defined.

(** ** The tracked index wraps *)

Lemma nominal_entry_wraps objs t t' (k : nat) :
  t mod Py.len objs = t' mod Py.len objs ->
  nominal_entry objs (t + Z.of_nat k) = nominal_entry objs (t' + Z.of_nat k).
Proof.
  intros H. unfold nominal_entry.
  destruct (Z.eq_dec (Py.len objs) 0) as [E|E].
  - rewrite E, !Z.mod_0_r in *. subst t'. reflexivity.
  - rewrite (Z.add_mod t), (Z.add_mod t'), H by exact E. reflexivity.
Qed.

(** X14: the Driving-case window depends on the tracked index only through
    its remainder modulo the route length: two tracked indices with the same
    remainder give the same published list.  In particular the unwrapped
    index N, which the locator returns past the last waypoint, publishes
    what index 0 does. *)
Theorem driving_window_wraps (s : WaypointUpdater) (wps : list loc)
    (objs : list (Waypoint * Pose)) (t t' : Z) :
  state s = 0 -> base_waypoints s = Some wps -> wps <> [] ->
  route_view s wps objs ->
  t mod Py.len wps = t' mod Py.len wps ->
  exists msg s1 s2,
    (calculate_final_waypoints t ;; publish_window) s = (Ok msg, s1)
    /\ (calculate_final_waypoints t' ;; publish_window) s = (Ok msg, s2).
Proof.
  intros Hst Hbase Hne Hview Hmod.
  pose proof (route_len_objs s wps objs Hview) as Hobjs.
  assert (Hrun : forall t0,
            (calculate_final_waypoints t0 ;; publish_window) s
            = (Ok (nominal_entry objs <$> Py.range t0 (t0 + LOOKAHEAD_WPS)),
               emit_all objs true (Py.range t0 (t0 + LOOKAHEAD_WPS))
                 (with_final_waypoints (Some []) s))).
  { intros t0.
    pose proof (driving_run s wps objs t0 Hst Hbase Hne Hview) as H.
    unfold bind in *.
    destruct (calculate_final_waypoints t0 s) as [[u|e] s1]; [|discriminate].
    destruct (publish_window s1) as [[msg|e] s2]; [|discriminate].
    unfold ret in H. congruence. }
  eexists _, _, _. split; [apply Hrun|]. rewrite Hrun. f_equal. f_equal.
  apply list_eq. intros k. rewrite !list_lookup_fmap.
  destruct (decide (k < Z.to_nat LOOKAHEAD_WPS)%nat) as [Hk|Hk].
  - rewrite !Py_range_lookup by lia. cbn [fmap option_fmap option_map].
    f_equal. symmetry. apply nominal_entry_wraps. rewrite Hobjs. exact Hmod.
  - unfold Py.range. rewrite !lookup_seqZ_ge by lia. reflexivity.
Qed.

Lemma driving_window_wraps_witness :
  exists msg s1 s2,
    (calculate_final_waypoints 3 ;; publish_window) sample_node = (Ok msg, s1)
    /\ (calculate_final_waypoints 0 ;; publish_window) sample_node = (Ok msg, s2).
Proof.
  apply (driving_window_wraps sample_node [0%nat; 1%nat; 2%nat] sample_objs 3 0).
  - reflexivity.
  - reflexivity.
  - discriminate.
  - exact sample_view.
  - reflexivity.
Defined.

(** ** The braking decision is monotone *)

Lemma resolve_driving_state s wps objs t v :
  state s = 0 -> traffic_waypoint s <> -1 ->
  base_waypoints s = Some wps -> route_view s wps objs ->
  0 <= t -> traffic_waypoint s < Py.len wps ->
  current_velocity s = Some v -> breaking_acceleration_limit s <> 0%R ->
  state (resolve_traffic_lights t s).2 = 1
  <-> (arc_distance objs t (traffic_waypoint s)
       > v ^ 2 / (2 * Rabs (breaking_acceleration_limit s)))%R.
Proof.
  intros Hst Htw Hbase Hview Ht Hidx Hv Hlim.
  rewrite (resolve_driving_signal s wps objs t v Hst Htw Hbase Hview Ht Hidx
             Hv Hlim).
  cbv zeta. rewrite (stopping_distance_abs _ _ Hlim).
  destruct (Rgt_dec _ _) as [Hgt|Hle]; simpl.
  - split; [intros _; exact Hgt|reflexivity].
  - split; [rewrite Hst; discriminate|intros H; contradiction].
Qed.

(** X15: the decision to brake is monotone.  If the resolver, Driving with
    a stop index inside the route, decides to brake, it also decides to
    brake when the speed message had carried a speed of no larger
    magnitude, and when the stop signal had named a later index of the
    route. *)
Theorem braking_decision_monotone (s : WaypointUpdater) (wps : list loc)
    (objs : list (Waypoint * Pose)) (t : Z) (v : R) :
  state s = 0 -> traffic_waypoint s <> -1 ->
  base_waypoints s = Some wps -> route_view s wps objs ->
  0 <= t -> traffic_waypoint s < Py.len wps ->
  current_velocity s = Some v -> breaking_acceleration_limit s <> 0%R ->
  state (resolve_traffic_lights t s).2 = 1 ->
  (forall v', (Rabs v' <= Rabs v)%R ->
     state (resolve_traffic_lights t (current_velocity_cb v' s).2).2 = 1)
  /\ (forall idx', traffic_waypoint s <= idx' < Py.len wps ->
        state (resolve_traffic_lights t (traffic_cb idx' s).2).2 = 1).
Proof.
  intros Hst Htw Hbase Hview Ht Hidx Hv Hlim Hbrake.
  apply (resolve_driving_state s wps objs t v Hst Htw Hbase Hview Ht Hidx
           Hv Hlim) in Hbrake.
  assert (Hl : (0 < Rabs (breaking_acceleration_limit s))%R)
    by (apply Rabs_pos_lt, Hlim).
  split.
  - intros v' Hv'.
    apply (resolve_driving_state (current_velocity_cb v' s).2 wps objs t v');
      try assumption; [reflexivity|].
    cbn [current_velocity_cb modify snd traffic_waypoint
         breaking_acceleration_limit].
    assert (Hsq : (v' ^ 2 <= v ^ 2)%R).
    { replace (v' ^ 2)%R with (Rsqr v') by (unfold Rsqr; ring).
      replace (v ^ 2)%R with (Rsqr v) by (unfold Rsqr; ring).
      apply Rsqr_le_abs_1, Hv'. }
    eapply Rle_lt_trans; [|exact Hbrake].
    apply Rmult_le_compat_r; [|exact Hsq].
    apply Rlt_le, Rinv_0_lt_compat. lra.
  - intros idx' [Hge Hlt].
    assert (HM : (0 <= v ^ 2 / (2 * Rabs (breaking_acceleration_limit s)))%R).
    { rewrite <- (stopping_distance_abs _ _ Hlim). apply Rabs_pos. }
    assert (Hahead : t < traffic_waypoint s).
    { destruct (Z_lt_le_dec t (traffic_waypoint s)) as [H|H]; [exact H|].
      rewrite arc_distance_past in Hbrake by exact H. lra. }
    apply (resolve_driving_state (traffic_cb idx' s).2 wps objs t v);
      try assumption;
      cbn [traffic_cb modify snd traffic_waypoint breaking_acceleration_limit];
      try lia.
    pose proof (arc_distance_mono objs t (traffic_waypoint s) idx' Hge). lra.
Qed.

Lemma braking_decision_monotone_witness :
  (forall v', (Rabs v' <= Rabs 10)%R ->
     state (resolve_traffic_lights 0 (current_velocity_cb v' sample_node).2).2
     = 1)
  /\ (forall idx', traffic_waypoint sample_node <= idx' < 3 ->
        state (resolve_traffic_lights 0 (traffic_cb idx' sample_node).2).2 = 1).
Proof.
  apply (braking_decision_monotone sample_node [0%nat; 1%nat; 2%nat]
           sample_objs 0 10).
  - reflexivity.
  - simpl. lia.
  - reflexivity.
  - exact sample_view.
  - lia.
  - unfold Py.len. simpl. lia.
  - reflexivity.
  - simpl. lra.
  - rewrite sample_starts_braking. reflexivity.
Defined.
